(** * Technical indicators and investment signals of the ETL pipeline

    A shallow embedding of [src/etl/transform.py]: the per-ticker series
    primitives ([calcular_rsi], [calcular_macd], [calcular_atr],
    [calcular_obv]), the indicator engine ([calcular_indicadores_tecnicos]),
    the signal aggregator ([calcular_resumen_inversion]) and the variation
    engine ([calcular_variaciones_precios]).

    Numbers.  The program computes on float64 cells.  Here a finite cell is
    an exact rational, so rounding error of the binary format is not part of
    the model; the special values of the format (the two infinities and NaN,
    which pandas also uses for a missing cell) are modelled explicitly, with
    the IEEE rules for the operations that can produce them.  Zero carries
    no sign.  The cells of an input price table are finite numbers.
    Where the rounding of the format decides a result that the program
    shows, as between two levels at the same distance, the computation is
    also given in binary64. *)

From Stdlib Require Import String Ascii.
From Stdlib Require Import ZArith QArith Qround Qabs Qminmax.
From Stdlib Require Import NArith List Bool Arith Lia Lqa Permutation Sorted.
From Stdlib Require Floats.SpecFloat.
Import ListNotations.
Open Scope Q_scope.

(* ================================================================== *)
(** * Cells *)

(** A float64 cell. *)
Inductive float : Type :=
| Fin (q : Q)
| PInf
| NInf
| NaN.

(** A cell that is finite or missing, as produced from finite inputs by
    [shift], [diff] and the rolling windows: [None] is NaN. *)
Abbreviation cell := (option Q) (only parsing).

Definition of_cell (c : cell) : float :=
  match c with Some q => Fin q | None => NaN end.

(** [pd.notna] *)
Definition notna (x : float) : bool :=
  match x with NaN => false | _ => true end.

Definition fneg (a : float) : float :=
  match a with
  | Fin x => Fin (- x)
  | PInf => NInf
  | NInf => PInf
  | NaN => NaN
  end.

Definition fadd (a b : float) : float :=
  match a, b with
  | NaN, _ | _, NaN => NaN
  | Fin x, Fin y => Fin (x + y)
  | PInf, NInf | NInf, PInf => NaN
  | PInf, _ | _, PInf => PInf
  | NInf, _ | _, NInf => NInf
  end.

Definition fsub (a b : float) : float := fadd a (fneg b).

(** Division; a finite non-zero number over zero is an infinity, zero over
    zero is NaN, and no case raises. *)
Definition fdiv (a b : float) : float :=
  match a, b with
  | NaN, _ | _, NaN => NaN
  | Fin x, Fin y =>
      match y ?= 0 with
      | Eq => match x ?= 0 with Eq => NaN | Gt => PInf | Lt => NInf end
      | _ => Fin (x / y)
      end
  | Fin _, _ => Fin 0
  | PInf, Fin y => match y ?= 0 with Lt => NInf | _ => PInf end
  | NInf, Fin y => match y ?= 0 with Lt => PInf | _ => NInf end
  | _, _ => NaN
  end.

(** [a < b] and [a > b] on cells: every comparison with NaN is false. *)
Definition fltb (a b : float) : bool :=
  match a, b with
  | NaN, _ | _, NaN => false
  | Fin x, Fin y => match x ?= y with Lt => true | _ => false end
  | NInf, NInf => false
  | NInf, _ => true
  | _, PInf => match a with PInf => false | _ => true end
  | _, _ => false
  end.

Definition fgtb (a b : float) : bool := fltb b a.

(** Equality of cells up to the equality of rationals. *)
Definition feq (a b : float) : Prop :=
  match a, b with
  | Fin x, Fin y => x == y
  | PInf, PInf | NInf, NInf | NaN, NaN => True
  | _, _ => False
  end.

Definition ceq (a b : cell) : Prop :=
  match a, b with
  | Some x, Some y => x == y
  | None, None => True
  | _, _ => False
  end.

(** Round half to even, the rule of [numpy.rint] and of Python's [round]. *)
Definition rint (x : Q) : Z :=
  let f := Qfloor x in
  match Qcompare (x - inject_Z f) (1 # 2) with
  | Lt => f
  | Gt => (f + 1)%Z
  | Eq => if Z.even f then f else (f + 1)%Z
  end.

Definition pow10 (d : nat) : Q := inject_Z (10 ^ Z.of_nat d).

(** [round(x, d)] on a finite number. *)
Definition round_dec (d : nat) (x : Q) : Q :=
  inject_Z (rint (x * pow10 d)) / pow10 d.

(** [Series.round(d)]: the special values are left as they are. *)
Definition fround (d : nat) (a : float) : float :=
  match a with Fin x => Fin (round_dec d x) | _ => a end.

(* ================================================================== *)
(** * Series primitives of pandas *)

(** [Series.shift(n)]: the same length, the first [n] cells missing. *)
Definition shift (n : nat) (xs : list cell) : list cell :=
  firstn (length xs) (repeat None n ++ xs).

Definition lift2 (f : Q -> Q -> Q) (a b : cell) : cell :=
  match a, b with Some x, Some y => Some (f x y) | _, _ => None end.

Definition lift1 (f : Q -> Q) (a : cell) : cell :=
  match a with Some x => Some (f x) | None => None end.

(** Element-wise operation on two series of equal length. *)
Fixpoint zip_with {A B C} (f : A -> B -> C) (xs : list A) (ys : list B)
  : list C :=
  match xs, ys with
  | x :: xs', y :: ys' => f x y :: zip_with f xs' ys'
  | _, _ => []
  end.

Definition series (xs : list Q) : list cell := map Some xs.

(** [Series.diff()]: [x - x.shift()]. *)
Definition diff (xs : list cell) : list cell :=
  zip_with (lift2 Qminus) xs (shift 1 xs).

(** [Series.clip(lower=0)] and [Series.clip(upper=0)]; NaN stays NaN. *)
Definition clip_lower (lo : Q) (xs : list cell) : list cell :=
  map (lift1 (fun x => Qmax x lo)) xs.

Definition clip_upper (hi : Q) (xs : list cell) : list cell :=
  map (lift1 (fun x => Qmin x hi)) xs.

Definition Qsum (l : list Q) : Q := fold_right Qplus 0 l.

Definition Qlen (l : list Q) : Q := inject_Z (Z.of_nat (length l)).

Definition mean (l : list Q) : Q := Qsum l / Qlen l.

(** Sum of squared deviations over [n - 1] (ddof = 1). *)
Definition variance (l : list Q) : Q :=
  Qsum (map (fun x => (x - mean l) * (x - mean l)) l) / (Qlen l - 1).

(** The cells of the window of width [w] that ends at index [i]. *)
Definition window (w : nat) (xs : list cell) (i : nat) : list cell :=
  firstn w (skipn (i + 1 - w) xs).

(** All cells of a window, when none is missing. *)
Fixpoint observed (cs : list cell) : option (list Q) :=
  match cs with
  | [] => Some []
  | Some q :: cs' =>
      match observed cs' with Some qs => Some (q :: qs) | None => None end
  | None :: _ => None
  end.

(** [Series.rolling(window=w)] followed by an aggregation [f]:
    [min_periods] is [w], so the result is NaN until index [w - 1] and
    wherever a cell of the window is NaN. *)
Definition rolling (w : nat) (f : list Q -> cell) (xs : list cell)
  : list cell :=
  map (fun i =>
         if (w <=? i + 1)%nat then
           match observed (window w xs i) with
           | Some qs => f qs
           | None => None
           end
         else None)
      (seq 0 (length xs)).

Definition rolling_mean (w : nat) (xs : list cell) : list cell :=
  rolling w (fun qs => Some (mean qs)) xs.

(** One step of the loop of pandas' [ewm] kernel with [adjust=False],
    [ignore_na=False]: the state is the running average and the weight of
    the past. *)
Definition ewm_step (alpha : Q) (st : cell * Q) (cur : cell) : cell * Q :=
  let (weighted, old_wt) := st in
  match weighted with
  | Some w =>
      let old_wt := old_wt * (1 - alpha) in
      match cur with
      | Some c =>
          let w' := if Qeq_bool w c then w
                    else (old_wt * w + alpha * c) / (old_wt + alpha) in
          (Some w', 1)
      | None => (Some w, old_wt)
      end
  | None => (cur, old_wt)
  end.

Fixpoint ewm_loop (alpha : Q) (st : cell * Q) (xs : list cell)
  : list cell :=
  match xs with
  | [] => []
  | cur :: xs' =>
      let st' := ewm_step alpha st cur in
      fst st' :: ewm_loop alpha st' xs'
  end.

(** The smoothing factor of a span: [com = (span - 1) / 2] and
    [alpha = 1 / (1 + com)]. *)
Definition alpha_of_span (span : nat) : Q :=
  let com := (inject_Z (Z.of_nat span) - 1) / 2 in
  1 / (1 + com).

(** [Series.ewm(span=span, adjust=False).mean()]; pandas accepts a span
    of at least 1, and the calls of the program use 9, 12, 20 and 26. *)
Definition ewm_mean (span : nat) (xs : list cell) : list cell :=
  match xs with
  | [] => []
  | x0 :: xs' => x0 :: ewm_loop (alpha_of_span span) (x0, 1) xs'
  end.

(** Maximum of two cells that ignores a missing one ([skipna=True]). *)
Definition nanmax (a b : cell) : cell :=
  match a, b with
  | Some x, Some y => Some (Qmax x y)
  | Some x, None => Some x
  | None, _ => b
  end.

(** [np.sign] *)
Definition Qsign (x : Q) : Q :=
  match x ?= 0 with Lt => - (1) | Eq => 0 | Gt => 1 end.

(** [Series.fillna(v)] *)
Definition fillna (v : Q) (xs : list cell) : list Q :=
  map (fun c => match c with Some x => x | None => v end) xs.

(** [Series.cumsum()] *)
Fixpoint cumsum_from (acc : Q) (xs : list Q) : list Q :=
  match xs with
  | [] => []
  | x :: xs' => (acc + x) :: cumsum_from (acc + x) xs'
  end.

Definition cumsum (xs : list Q) : list Q := cumsum_from 0 xs.

(** [Series.pct_change(periods=n)] on a series without missing cells:
    [data / data.shift(n) - 1]. *)
Definition pct_change (n : nat) (xs : list Q) : list float :=
  zip_with (fun x s => fsub (fdiv (Fin x) (of_cell s)) (Fin 1))
           xs (shift n (series xs)).

(* ================================================================== *)
(** * SeriesMath: the indicator functions of [transform.py] *)

Definition cell_div (a b : cell) : float := fdiv (of_cell a) (of_cell b).

(** [calcular_rsi(close, window=14)] *)
Definition calcular_rsi (close : list Q) (window : nat) : list float :=
  let delta := diff (series close) in
  let gain := clip_lower 0 delta in
  let loss := map (lift1 Qopp) (clip_upper 0 delta) in
  let avg_gain := rolling_mean window gain in
  let avg_loss := rolling_mean window loss in
  let rs := zip_with cell_div avg_gain avg_loss in
  map (fun r => fsub (Fin 100) (fdiv (Fin 100) (fadd (Fin 1) r))) rs.

(** [calcular_macd(close, short=12, long=26, signal=9)] *)
Definition calcular_macd (close : list Q) (short long signal : nat)
  : list cell * list cell * list cell :=
  let ema_short := ewm_mean short (series close) in
  let ema_long := ewm_mean long (series close) in
  let macd := zip_with (lift2 Qminus) ema_short ema_long in
  let macd_signal := ewm_mean signal macd in
  let macd_hist := zip_with (lift2 Qminus) macd macd_signal in
  (macd, macd_signal, macd_hist).

(** The row-wise maximum of the three ranges, missing cells ignored. *)
Definition true_range (high low close : list Q) : list cell :=
  let high_low := zip_with (lift2 Qminus) (series high) (series low) in
  let high_close :=
    map (lift1 Qabs)
        (zip_with (lift2 Qminus) (series high) (shift 1 (series close))) in
  let low_close :=
    map (lift1 Qabs)
        (zip_with (lift2 Qminus) (series low) (shift 1 (series close))) in
  zip_with nanmax (zip_with nanmax high_low high_close) low_close.

(** [calcular_atr(high, low, close, window=14)] *)
Definition calcular_atr (high low close : list Q) (window : nat)
  : list cell :=
  rolling_mean window (true_range high low close).

(** [calcular_obv(close, volume)] *)
Definition calcular_obv (close volume : list Q) : list Q :=
  cumsum
    (fillna 0
       (zip_with (lift2 Qmult)
                 (map (lift1 Qsign) (diff (series close)))
                 (series volume))).

(* ================================================================== *)
(** * Tables *)

(** A row of the tidy price table; [Ticker] is the text of the ticker
    cell of the file. *)
Record PricePoint : Type := mkPricePoint {
  Date : Z;
  Ticker : string;
  Open : Q;
  High : Q;
  Low : Q;
  Close : Q;
  Volume : Q
}.

(** The texts that [read_csv] reads as a missing value, its default
    [na_values]: a ticker cell that holds one of them is NaN in the
    frame. *)
Definition na_values : list string :=
  [ EmptyString; "#N/A"; "#N/A N/A"; "#NA"; "-1.#IND"; "-1.#QNAN";
    "-NaN"; "-nan"; "1.#IND"; "1.#QNAN"; "<NA>"; "N/A"; "NA"; "NULL";
    "NaN"; "None"; "n/a"; "nan"; "null" ]%string.

Definition ticker_isna (t : string) : bool :=
  existsb (String.eqb t) na_values.

(** What a call can raise. *)
Inductive exn : Type :=
| ValueError
| IndexError.

Inductive result (A : Type) : Type :=
| Ok (a : A)
| Raise (e : exn).

Arguments Ok {A} a.
Arguments Raise {A} e.

Definition bind {A B} (r : result A) (k : A -> result B) : result B :=
  match r with Ok a => k a | Raise e => Raise e end.

Fixpoint mapM {A B} (f : A -> result B) (l : list A) : result (list B) :=
  match l with
  | [] => Ok []
  | a :: l' =>
      bind (f a) (fun b => bind (mapM f l') (fun bs => Ok (b :: bs)))
  end.

(** [pd.concat]: refuses an empty list of frames. *)
Definition pd_concat {A} (frames : list (list A)) : result (list A) :=
  match frames with
  | [] => Raise ValueError
  | _ => Ok (concat frames)
  end.

(** Stable sort by insertion, for [sort_values] and the group keys. *)
Fixpoint insert_by {A} (leb : A -> A -> bool) (x : A) (l : list A)
  : list A :=
  match l with
  | [] => [x]
  | y :: l' => if leb x y then x :: l else y :: insert_by leb x l'
  end.

Definition sort_by {A} (leb : A -> A -> bool) (l : list A) : list A :=
  fold_right (insert_by leb) [] l.

(** The order of [by=['Ticker', 'Date']]. *)
Definition ticker_date_leb (a b : PricePoint) : bool :=
  match String.compare (Ticker a) (Ticker b) with
  | Lt => true
  | Gt => false
  | Eq => (Date a <=? Date b)%Z
  end.

Definition sort_values (df : list PricePoint) : list PricePoint :=
  sort_by ticker_date_leb df.

(** The rows of one ticker, in the order of the table. *)
Definition rows_of (t : string) (df : list PricePoint) : list PricePoint :=
  filter (fun p => String.eqb (Ticker p) t) df.

(** [df.groupby('Ticker')] on a frame in which no ticker is missing: one
    group per ticker, keys in sorted order. *)
Definition groupby_ticker (df : list PricePoint)
  : list (string * list PricePoint) :=
  map (fun t => (t, rows_of t df))
      (sort_by String.leb (nodup string_dec (map Ticker df))).

(** [df.groupby('Ticker')] on the frame as [read_csv] returns it: the
    rows whose ticker is missing belong to no group. *)
Definition groupby_ticker_dropna (df : list PricePoint)
  : list (string * list PricePoint) :=
  map (fun t => (t, rows_of t df))
      (sort_by String.leb
               (nodup string_dec
                      (filter (fun t => negb (ticker_isna t))
                              (map Ticker df)))).

(** [f] applied to every element with its position. *)
Fixpoint imap_from {A B} (i : nat) (f : nat -> A -> B) (l : list A)
  : list B :=
  match l with
  | [] => []
  | a :: l' => f i a :: imap_from (S i) f l'
  end.

Definition imap {A B} (f : nat -> A -> B) (l : list A) : list B :=
  imap_from 0 f l.

(* ================================================================== *)
(** * FibonacciLevels and IndicatorEngine *)

(** A row of the indicator table. *)
Record IndicatorRow : Type := mkIndicatorRow {
  ind_Date : Z;
  ind_Ticker : string;
  ind_Close : Q;
  SMA_20 : cell;
  SMA_50 : cell;
  EMA_20 : cell;
  RSI_14 : float;
  MACD : cell;
  MACD_Signal : cell;
  MACD_Hist : cell;
  ATR_14 : cell;
  OBV : Q;
  BB_Middle : cell;
  BB_Upper : cell;
  BB_Lower : cell;
  Volatility_20 : cell;
  Fib_0_0 : Q;
  Fib_23_6 : Q;
  Fib_38_2 : Q;
  Fib_50_0 : Q;
  Fib_61_8 : Q;
  Fib_100 : Q;
  Nivel_Fib_Cercano : string;
  Estado_Fibonacci : string
}.

Definition Qltb (x y : Q) : bool :=
  match x ?= y with Lt => true | _ => false end.

(** Python's [min(d, key=d.get)] on the items of a dict in insertion
    order: the running best is replaced only by a strictly smaller one. *)
Fixpoint min_key_from (best : string * Q) (items : list (string * Q))
  : string :=
  match items with
  | [] => fst best
  | kv :: items' =>
      if Qltb (snd kv) (snd best) then min_key_from kv items'
      else min_key_from best items'
  end.

(** [min] raises on an empty dict. *)
Definition min_key (items : list (string * Q)) : result string :=
  match items with
  | [] => Raise ValueError
  | first :: items' => Ok (min_key_from first items')
  end.

(** [x in keys] on a list of strings. *)
Definition str_in (x : string) (keys : list string) : bool :=
  existsb (String.eqb x) keys.

(** [Series.max()] and [Series.min()]: NaN on an empty series. *)
Definition series_max (xs : list Q) : cell :=
  match xs with [] => None | x :: xs' => Some (fold_left Qmax xs' x) end.

Definition series_min (xs : list Q) : cell :=
  match xs with [] => None | x :: xs' => Some (fold_left Qmin xs' x) end.

(** [group.iloc[-1]['Close']] *)
Definition ultimo (xs : list Q) : result Q :=
  match rev xs with [] => Raise IndexError | x :: _ => Ok x end.

(** The six retracement levels of a maximum and a minimum close, in the
    order of the columns [Fib_0.0%] to [Fib_100%]. *)
Definition fib_levels (max_close min_close : Q) : Q * Q * Q * Q * Q * Q :=
  let diff := max_close - min_close in
  (max_close,
   max_close - diff * 0.236,
   max_close - diff * 0.382,
   max_close - diff * 0.50,
   max_close - diff * 0.618,
   min_close).

(** The dict [diffs]: the distance of the last close to every level, as
    exact numbers.  The program holds these distances as floats, and two
    equal distances can come out different: [fib_diffs_f64] below gives
    them in binary64. *)
Definition fib_diffs (ultimo_close : Q) (levels : Q * Q * Q * Q * Q * Q)
  : list (string * Q) :=
  let '(f0, f23, f38, f50, f61, f100) := levels in
  [ ("0.0%", Qabs (ultimo_close - f0));
    ("23.6%", Qabs (ultimo_close - f23));
    ("38.2%", Qabs (ultimo_close - f38));
    ("50.0%", Qabs (ultimo_close - f50));
    ("61.8%", Qabs (ultimo_close - f61));
    ("100%", Qabs (ultimo_close - f100)) ]%string.

Definition estado_fib_of (nivel_cercano : string) : string :=
  if str_in nivel_cercano ["38.2%"; "50.0%"; "61.8%"]%string
  then "SOPORTE"%string
  else if str_in nivel_cercano ["0.0%"; "23.6%"]%string
       then "RESISTENCIA"%string
       else "NEUTRO"%string.

Section Engine.

(** The square root of the standard deviation.  It is irrational in
    general; the engine takes it as a parameter on the rationals. *)
Variable sqrtQ : Q -> Q.

(** [Series.rolling(window=w).std()] *)
Definition rolling_std (w : nat) (xs : list cell) : list cell :=
  rolling w (fun qs =>
               if (length qs <=? 1)%nat then None
               else Some (sqrtQ (variance qs)))
          xs.

(** The row at position [i] of the frame of a group once the columns of
    the indicators are assigned; [p] is the price row at that position. *)
Definition indicador_fila (group : list PricePoint)
           (levels : Q * Q * Q * Q * Q * Q)
           (nivel_cercano estado_fib : string)
           (i : nat) (p : PricePoint) : IndicatorRow :=
  let close := map Close group in
  let high := map High group in
  let low := map Low group in
  let volume := map Volume group in
  let sma_20 := rolling_mean 20 (series close) in
  let sma_50 := rolling_mean 50 (series close) in
  let ema_20 := ewm_mean 20 (series close) in
  let rsi_14 := calcular_rsi close 14 in
  let '(macd, macd_signal, macd_hist) := calcular_macd close 12 26 9 in
  let atr_14 := calcular_atr high low close 14 in
  let obv := calcular_obv close volume in
  let bb_middle := rolling_mean 20 (series close) in
  let bb_upper :=
    zip_with (lift2 Qplus) bb_middle
             (map (lift1 (Qmult 2)) (rolling_std 20 (series close))) in
  let bb_lower :=
    zip_with (lift2 Qminus) bb_middle
             (map (lift1 (Qmult 2)) (rolling_std 20 (series close))) in
  let volatility_20 := rolling_std 20 (series close) in
  let '(f0, f23, f38, f50, f61, f100) := levels in
  {| ind_Date := Date p;
     ind_Ticker := Ticker p;
     ind_Close := Close p;
     SMA_20 := nth i sma_20 None;
     SMA_50 := nth i sma_50 None;
     EMA_20 := nth i ema_20 None;
     RSI_14 := nth i rsi_14 NaN;
     MACD := nth i macd None;
     MACD_Signal := nth i macd_signal None;
     MACD_Hist := nth i macd_hist None;
     ATR_14 := nth i atr_14 None;
     OBV := nth i obv 0;
     BB_Middle := nth i bb_middle None;
     BB_Upper := nth i bb_upper None;
     BB_Lower := nth i bb_lower None;
     Volatility_20 := nth i volatility_20 None;
     Fib_0_0 := f0;
     Fib_23_6 := f23;
     Fib_38_2 := f38;
     Fib_50_0 := f50;
     Fib_61_8 := f61;
     Fib_100 := f100;
     Nivel_Fib_Cercano := nivel_cercano;
     Estado_Fibonacci := estado_fib |}.

(** The body of the loop over the groups: the indicator rows of one
    ticker from its price rows sorted by date.  The extrema are taken
    over the whole group, the last close is [iloc[-1]], which raises on
    an empty frame. *)
Definition indicadores_grupo (group : list PricePoint)
  : result (list IndicatorRow) :=
  let close := map Close group in
  match series_max close, series_min close with
  | Some max_close, Some min_close =>
      let levels := fib_levels max_close min_close in
      bind (ultimo close) (fun ultimo_close =>
      bind (min_key (fib_diffs ultimo_close levels)) (fun nivel_cercano =>
      let estado_fib := estado_fib_of nivel_cercano in
      Ok (imap (indicador_fila group levels nivel_cercano estado_fib)
               group)))
  | _, _ => Raise IndexError
  end.

(** [calcular_indicadores_tecnicos], from the table read from the input
    file to the table written to the output file, when every ticker of
    the table is present. *)
Definition calcular_indicadores_tecnicos (df : list PricePoint)
  : result (list IndicatorRow) :=
  let df := sort_values df in
  bind (mapM (fun g => indicadores_grupo (snd g)) (groupby_ticker df))
       (fun indicadores => pd_concat indicadores).

(** [calcular_indicadores_tecnicos] from the rows of the input file,
    whatever the ticker cells hold.  [sort_values] puts the rows with a
    missing ticker last; here they stay where their text sorts, which
    is immaterial since no group holds them. *)
Definition calcular_indicadores_tecnicos_csv (df : list PricePoint)
  : result (list IndicatorRow) :=
  let df := sort_values df in
  bind (mapM (fun g => indicadores_grupo (snd g)) (groupby_ticker_dropna df))
       (fun indicadores => pd_concat indicadores).

End Engine.

(* ================================================================== *)
(** * SignalAggregator *)

(** A row of the merge of the latest indicator row of a ticker with its
    fundamentals, as read back from the files: any cell may be NaN. *)
Record JoinedRow : Type := mkJoinedRow {
  row_Ticker : string;
  row_Close : float;
  row_SMA_20 : float;
  row_EMA_20 : float;
  row_MACD : float;
  row_MACD_Signal : float;
  row_RSI_14 : float;
  row_BB_Upper : float;
  row_BB_Lower : float;
  row_Estado_Fibonacci : option string;
  row_PER : float;
  row_ROE : float;
  row_EPS_Growth_YoY : float;
  row_Deuda_Patrimonio : float
}.

Inductive Senal : Type :=
| COMPRAR
| VENDER
| MANTENER.

Definition Senal_eqb (a b : Senal) : bool :=
  match a, b with
  | COMPRAR, COMPRAR | VENDER, VENDER | MANTENER, MANTENER => true
  | _, _ => false
  end.

(** A dict of signals in insertion order. *)
Definition senales := list (string * Senal).

(** [d[k] = v] *)
Fixpoint dict_set (d : senales) (k : string) (v : Senal) : senales :=
  match d with
  | [] => [(k, v)]
  | (k', v') :: d' =>
      if String.eqb k' k then (k', v) :: d' else (k', v') :: dict_set d' k v
  end.

(** [d.get(k, np.nan)] *)
Fixpoint dict_get (d : senales) (k : string) : option Senal :=
  match d with
  | [] => None
  | (k', v) :: d' => if String.eqb k' k then Some v else dict_get d' k
  end.

(** [list(d.values()).count(v)] *)
Definition count_senal (v : Senal) (d : senales) : nat :=
  length (filter (fun kv => Senal_eqb (snd kv) v) d).

Definition señales_tec (row : JoinedRow) : senales :=
  let d := [] in
  let d :=
    if notna (row_SMA_20 row) && notna (row_EMA_20 row) then
      dict_set d "SMA_vs_EMA"
               (if fgtb (row_SMA_20 row) (row_EMA_20 row)
                then COMPRAR else VENDER)
    else d in
  let d :=
    if notna (row_MACD row) && notna (row_MACD_Signal row) then
      dict_set d "MACD"
               (if fgtb (row_MACD row) (row_MACD_Signal row)
                then COMPRAR else VENDER)
    else d in
  let d :=
    if notna (row_RSI_14 row) then
      dict_set d "RSI"
               (if fltb (row_RSI_14 row) (Fin 30) then COMPRAR
                else if fgtb (row_RSI_14 row) (Fin 70) then VENDER
                     else MANTENER)
    else d in
  let d :=
    match row_Estado_Fibonacci row with
    | Some estado =>
        dict_set d "Estado_Fibonacci"
                 (if String.eqb estado "SOPORTE" then COMPRAR
                  else if String.eqb estado "RESISTENCIA" then VENDER
                       else MANTENER)
    | None => d
    end in
  d.

Definition señales_fund (row : JoinedRow) : senales :=
  let d := [] in
  let d :=
    if notna (row_PER row) then
      dict_set d "PER"
               (if fltb (row_PER row) (Fin 20) then COMPRAR
                else if fgtb (row_PER row) (Fin 30) then VENDER
                     else MANTENER)
    else d in
  let d :=
    if notna (row_ROE row) then
      dict_set d "ROE"
               (if fgtb (row_ROE row) (Fin 0.15) then COMPRAR
                else if fltb (row_ROE row) (Fin 0.05) then VENDER
                     else MANTENER)
    else d in
  let d :=
    if notna (row_EPS_Growth_YoY row) then
      dict_set d "EPS Growth YoY"
               (if fgtb (row_EPS_Growth_YoY row) (Fin 0.10) then COMPRAR
                else if fltb (row_EPS_Growth_YoY row) (Fin 0) then VENDER
                     else MANTENER)
    else d in
  let d :=
    if notna (row_Deuda_Patrimonio row) then
      dict_set d "Deuda/Patrimonio"
               (if fltb (row_Deuda_Patrimonio row) (Fin 100) then COMPRAR
                else if fgtb (row_Deuda_Patrimonio row) (Fin 200) then VENDER
                     else MANTENER)
    else d in
  d.

Definition Qnat (n : nat) : Q := inject_Z (Z.of_nat n).

(** [round(count('COMPRAR') / len(d) * 100, 2) if len(d) > 0 else nan] *)
Definition pct_buy (d : senales) : cell :=
  if (0 <? length d)%nat
  then Some (round_dec 2 (Qnat (count_senal COMPRAR d) / Qnat (length d) * 100))
  else None.

Definition estado_bollinger (row : JoinedRow) : option string :=
  if notna (row_BB_Upper row) && notna (row_BB_Lower row)
     && notna (row_Close row)
  then if fgtb (row_Close row) (row_BB_Upper row) then Some "Sobrecompra"%string
       else if fltb (row_Close row) (row_BB_Lower row)
            then Some "Sobreventa"%string
            else Some "Normal"%string
  else None.

(** A row of the summary table. *)
Record DecisionRow : Type := mkDecisionRow {
  dec_Ticker : string;
  pct_tecnico_buy : cell;
  pct_fundamental_buy : cell;
  Decision_Final : Senal;
  Estado_BollingerBands : option string;
  dec_SMA_vs_EMA : option Senal;
  dec_MACD : option Senal;
  dec_RSI : option Senal;
  dec_PER : option Senal;
  dec_ROE : option Senal;
  dec_EPS_Growth_YoY : option Senal;
  dec_Deuda_Patrimonio : option Senal;
  dec_Estado_Fibonacci : option string
}.

(** The body of the loop over the joined rows. *)
Definition resumen_fila (row : JoinedRow) : DecisionRow :=
  let tec := señales_tec row in
  let fund := señales_fund row in
  let compras := (count_senal COMPRAR tec + count_senal COMPRAR fund)%nat in
  let ventas := (count_senal VENDER tec + count_senal VENDER fund)%nat in
  let decision :=
    if (ventas <? compras)%nat then COMPRAR
    else if (compras <? ventas)%nat then VENDER
         else MANTENER in
  {| dec_Ticker := row_Ticker row;
     pct_tecnico_buy := pct_buy tec;
     pct_fundamental_buy := pct_buy fund;
     Decision_Final := decision;
     Estado_BollingerBands := estado_bollinger row;
     dec_SMA_vs_EMA := dict_get tec "SMA_vs_EMA";
     dec_MACD := dict_get tec "MACD";
     dec_RSI := dict_get tec "RSI";
     dec_PER := dict_get fund "PER";
     dec_ROE := dict_get fund "ROE";
     dec_EPS_Growth_YoY := dict_get fund "EPS Growth YoY";
     dec_Deuda_Patrimonio := dict_get fund "Deuda/Patrimonio";
     dec_Estado_Fibonacci := row_Estado_Fibonacci row |}.

(** [calcular_resumen_inversion] from the merged table on. *)
Definition calcular_resumen_inversion (df : list JoinedRow)
  : list DecisionRow :=
  map resumen_fila df.

(* ================================================================== *)
(** * VariationEngine *)

(** A row of the variation table; the [var_] columns are kept by name, in
    the order in which the loop over [periods] adds them. *)
Record VariationRow : Type := mkVariationRow {
  var_Date : Z;
  var_Ticker : string;
  var_Close : Q;
  var_cols : list (string * float)
}.

(** The dict [periods]. *)
Definition periods : list (string * nat) :=
  [ ("daily", 1); ("weekly", 5); ("monthly", 21); ("annual", 252);
    ("5y", 252 * 5) ]%string%nat.

(** [df.groupby("Ticker")["Close"].pct_change(periods=days)]: the value at
    a row is the change within the rows of its ticker, at the position of
    the row among them.  [groupby] leaves out the rows whose ticker is
    missing, and the result is NaN on them. *)
Definition groupby_pct_change (days : nat) (df : list PricePoint)
  : list float :=
  imap (fun i p =>
          if ticker_isna (Ticker p) then NaN
          else nth (length (rows_of (Ticker p) (firstn i df)))
                   (pct_change days (map Close (rows_of (Ticker p) df)))
                   NaN)
       df.

(** The column [var_<name>] of the sorted table.  The cell is rounded as
    an exact number; the program rounds the float quotient, so that at a
    tie of the fourth decimal the two can fall on either side. *)
Definition var_column (days : nat) (df : list PricePoint) : list float :=
  map (fround 4) (groupby_pct_change days df).

(** [calcular_variaciones_precios], from the table read to the table
    written. *)
Definition calcular_variaciones_precios (df : list PricePoint)
  : list VariationRow :=
  let df := sort_values df in
  imap (fun i p =>
          {| var_Date := Date p;
             var_Ticker := Ticker p;
             var_Close := Close p;
             var_cols :=
               map (fun nd => (("var_" ++ fst nd)%string,
                               nth i (var_column (snd nd) df) NaN))
                   periods |})
       df.

(** The cell of a named column of a row. *)
Fixpoint col_get (cols : list (string * float)) (name : string)
  : option float :=
  match cols with
  | [] => None
  | (k, v) :: cols' => if String.eqb k name then Some v else col_get cols' name
  end.

(* ================================================================== *)
(** * Vocabulary of the statements *)

(** The keys of the four technical and the four fundamental signals. *)
Definition tec_keys : list string :=
  ["SMA_vs_EMA"; "MACD"; "RSI"; "Estado_Fibonacci"]%string.

Definition fund_keys : list string :=
  ["PER"; "ROE"; "EPS Growth YoY"; "Deuda/Patrimonio"]%string.

Definition is_present (o : option Senal) : bool :=
  match o with Some _ => true | None => false end.

Definition is_vote (v : Senal) (o : option Senal) : bool :=
  match o with Some s => Senal_eqb s v | None => false end.

(** How many of the named signals are present in a dict, and how many of
    them carry a given vote. *)
Definition n_present (d : senales) (keys : list string) : nat :=
  length (filter (fun k => is_present (dict_get d k)) keys).

Definition n_votes (v : Senal) (d : senales) (keys : list string) : nat :=
  length (filter (fun k => is_vote v (dict_get d k)) keys).

(** The percentage of the specification: BUY votes over present signals,
    times 100, rounded to two decimals; undefined without a signal. *)
Definition spec_pct (buy present : nat) : cell :=
  match present with
  | O => None
  | _ => Some (round_dec 2 (Qnat buy / Qnat present * 100))
  end.

(** The decision of the specification from the two vote counts. *)
Definition spec_decision (buy sell : nat) : Senal :=
  if (sell <? buy)%nat then COMPRAR
  else if (buy <? sell)%nat then VENDER
       else MANTENER.

(** A dict built from optional entries: an entry without a value is not
    inserted. *)
Definition build (entries : list (string * option Senal)) : senales :=
  fold_left (fun d e =>
               match snd e with
               | Some v => dict_set d (fst e) v
               | None => d
               end)
            entries [].

(** The rule of a signal with a BUY test and a SELL test. *)
Definition three_way (buy sell : bool) : Senal :=
  if buy then COMPRAR else if sell then VENDER else MANTENER.

(** The four technical signals of a row, absent when an input is NaN. *)
Definition tec_entries (row : JoinedRow) : list (string * option Senal) :=
  [ ("SMA_vs_EMA",
     if notna (row_SMA_20 row) && notna (row_EMA_20 row)
     then Some (three_way (fgtb (row_SMA_20 row) (row_EMA_20 row)) true)
     else None);
    ("MACD",
     if notna (row_MACD row) && notna (row_MACD_Signal row)
     then Some (three_way (fgtb (row_MACD row) (row_MACD_Signal row)) true)
     else None);
    ("RSI",
     if notna (row_RSI_14 row)
     then Some (three_way (fltb (row_RSI_14 row) (Fin 30))
                          (fgtb (row_RSI_14 row) (Fin 70)))
     else None);
    ("Estado_Fibonacci",
     match row_Estado_Fibonacci row with
     | Some estado =>
         Some (three_way (String.eqb estado "SOPORTE")
                         (String.eqb estado "RESISTENCIA"))
     | None => None
     end) ]%string.

(** The four fundamental signals of a row. *)
Definition fund_entries (row : JoinedRow) : list (string * option Senal) :=
  [ ("PER",
     if notna (row_PER row)
     then Some (three_way (fltb (row_PER row) (Fin 20))
                          (fgtb (row_PER row) (Fin 30)))
     else None);
    ("ROE",
     if notna (row_ROE row)
     then Some (three_way (fgtb (row_ROE row) (Fin 0.15))
                          (fltb (row_ROE row) (Fin 0.05)))
     else None);
    ("EPS Growth YoY",
     if notna (row_EPS_Growth_YoY row)
     then Some (three_way (fgtb (row_EPS_Growth_YoY row) (Fin 0.10))
                          (fltb (row_EPS_Growth_YoY row) (Fin 0)))
     else None);
    ("Deuda/Patrimonio",
     if notna (row_Deuda_Patrimonio row)
     then Some (three_way (fltb (row_Deuda_Patrimonio row) (Fin 100))
                          (fgtb (row_Deuda_Patrimonio row) (Fin 200)))
     else None) ]%string.

(** The value [v] of a variation column at position [i] of the close
    series of a ticker, for a lag of [days] rows: missing on the first
    [days] rows; where the earlier close is not zero, a number of four
    decimals at most half a unit of the fourth decimal away from the
    relative change; and where the earlier close is zero, an infinity, or
    NaN for zero over zero. *)
Definition variation_law (closes : list Q) (days i : nat) (v : float)
  : Prop :=
  let cur := nth i closes 0 in
  let prev := nth (i - days) closes 0 in
  ((i < days)%nat -> v = NaN) /\
  ((days <= i)%nat -> ~ prev == 0 ->
   exists k : Z,
     feq v (Fin (inject_Z k / 10000)) /\
     Qabs (inject_Z k / 10000 - (cur - prev) / prev) <= 1 # 20000) /\
  ((days <= i)%nat -> prev == 0 ->
   (cur == 0 -> v = NaN) /\ (~ cur == 0 -> v = PInf \/ v = NInf)).

(** The rows of a ticker in an output table; [tk] reads the ticker. *)
Definition out_rows_of {B} (tk : B -> string) (t : string) (out : list B)
  : list B :=
  filter (fun r => String.eqb (tk r) t) out.

(** A rational stand-in for the square root, exact to six decimals, for
    running the engine on sample tables. *)
Definition sqrt6 (x : Q) : Q :=
  inject_Z (Z.sqrt (Qfloor (x * 1000000000000))) / 1000000.

(** The rows of a table whose ticker is present. *)
Definition dropna_ticker (df : list PricePoint) : list PricePoint :=
  filter (fun p => negb (ticker_isna (Ticker p))) df.

(** The keys of the groups: every ticker of the table, once. *)
Definition group_keys (df : list PricePoint) : list string :=
  sort_by String.leb (nodup string_dec (map Ticker df)).

(** What the engine reads off the closes of a group: the extrema, the last
    close and the nearest level. *)
Definition fib_of (closes : list Q) (mx mn u : Q) (nivel : string) : Prop :=
  series_max closes = Some mx /\
  series_min closes = Some mn /\
  ultimo closes = Ok u /\
  min_key (fib_diffs u (fib_levels mx mn)) = Ok nivel.

(** The rows of the output computed for one ticker. *)
Definition filas_de (sqrtQ : Q -> Q) (df : list PricePoint) (t : string)
  : list IndicatorRow :=
  match indicadores_grupo sqrtQ (rows_of t (sort_values df)) with
  | Ok rows => rows
  | Raise _ => []
  end.

(** The fields that need a full window. *)
Definition windowed_null (r : IndicatorRow) : Prop :=
  SMA_20 r = None /\ SMA_50 r = None /\ RSI_14 r = NaN /\
  ATR_14 r = None /\ BB_Middle r = None /\ BB_Upper r = None /\
  BB_Lower r = None /\ Volatility_20 r = None.

Definition ticker_date_le (a b : PricePoint) : Prop :=
  ticker_date_leb a b = true.

(** [c] is the largest close among the rows of ticker [t]. *)
Definition max_close_of (df : list PricePoint) (t : string) (c : Q) : Prop :=
  (exists q, In q df /\ Ticker q = t /\ Close q = c) /\
  forall q, In q df -> Ticker q = t -> Close q <= c.

(** [c] is the smallest close among the rows of ticker [t]. *)
Definition min_close_of (df : list PricePoint) (t : string) (c : Q) : Prop :=
  (exists q, In q df /\ Ticker q = t /\ Close q = c) /\
  forall q, In q df -> Ticker q = t -> c <= Close q.

(** The first minimum of a dict of distances: the key of an entry that is
    strictly below every earlier entry and not above any later one. *)
Definition first_min (items : list (string * Q)) (k : string) : Prop :=
  exists before d after,
    items = before ++ (k, d) :: after /\
    (forall e, In e before -> d < snd e) /\
    (forall e, In e after -> d <= snd e).

(** [p] is a row of ticker [t] with the latest date. *)
Definition most_recent (df : list PricePoint) (t : string) (p : PricePoint)
  : Prop :=
  In p df /\ Ticker p = t /\
  forall q, In q df -> Ticker q = t -> (Date q <= Date p)%Z.

(** The recursion of the exponential moving average: [ys] starts at the
    first value of [xs] and every later value is
    [alpha * x + (1 - alpha) * previous]. *)
Definition ema_law (alpha : Q) (xs ys : list Q) : Prop :=
  length ys = length xs /\
  nth_error ys 0 = nth_error xs 0 /\
  forall i, (S i < length xs)%nat ->
            nth (S i) ys 0 == alpha * nth (S i) xs 0 + (1 - alpha) * nth i ys 0.

(** The series of gains and of losses inside [calcular_rsi], and their
    rolling means. *)
Definition rsi_gain (close : list Q) : list cell :=
  clip_lower 0 (diff (series close)).

Definition rsi_loss (close : list Q) : list cell :=
  map (lift1 Qopp) (clip_upper 0 (diff (series close))).

Definition rsi_avg_gain (close : list Q) (window : nat) : list cell :=
  rolling_mean window (rsi_gain close).

Definition rsi_avg_loss (close : list Q) (window : nat) : list cell :=
  rolling_mean window (rsi_loss close).

(** The gain and the loss of day [j]: [max(delta, 0)] and [max(-delta, 0)]
    for the change [delta] of the close since the day before. *)
Definition gain_at (close : list Q) (j : nat) : Q :=
  Qmax (nth j close 0 - nth (j - 1) close 0) 0.

Definition loss_at (close : list Q) (j : nat) : Q :=
  - Qmin (nth j close 0 - nth (j - 1) close 0) 0.

(** [100 - 100 / (1 + rs)] *)
Definition rsi_of (rs : float) : float :=
  fsub (Fin 100) (fdiv (Fin 100) (fadd (Fin 1) rs)).

(** The true range of day [i]: the range of the day on the first day,
    and from the second day on the largest of the range of the day and of
    the distances of the high and of the low to the close of the day
    before. *)
Definition true_range_at (high low close : list Q) (i : nat) : Q :=
  match i with
  | O => nth 0 high 0 - nth 0 low 0
  | S j =>
      Qmax (Qmax (nth i high 0 - nth i low 0)
                 (Qabs (nth i high 0 - nth j close 0)))
           (Qabs (nth i low 0 - nth j close 0))
  end.

(* ================================================================== *)
(** * Sample tables *)

(** Three days of one ticker, given out of order. *)
Definition df_example : list PricePoint :=
  [ mkPricePoint 3 "A" 121 121 121 121 10;
    mkPricePoint 1 "A" 100 100 100 100 10;
    mkPricePoint 2 "A" 110 110 110 110 10 ]%string.

(** Twenty days of one ticker: nineteen flat days, then a jump. *)
Definition df_twenty : list PricePoint :=
  map (fun k => mkPricePoint k "A" 10 11 9 10 10)
      [1; 2; 3; 4; 5; 6; 7; 8; 9; 10;
       11; 12; 13; 14; 15; 16; 17; 18; 19]%Z
  ++ [mkPricePoint 20 "A" 30 31 29 30 10].

(** A close of zero followed by a positive close. *)
Definition df_zero_close : list PricePoint :=
  [ mkPricePoint 1 "A" 0 0 0 0 10;
    mkPricePoint 2 "A" 5 5 5 5 10 ]%string.

(* ================================================================== *)
(** * The cleaning steps of [transform.py] *)

(** [transformar_precios_historicos] after the columns are renamed and
    selected: the four prices are rounded to three decimals, the other
    columns are kept.  A price is rounded here as an exact number; the
    program rounds its float, so that a price midway between two numbers
    of three decimals can fall on either side. *)
Definition transformar_precios_historicos (df : list PricePoint)
  : list PricePoint :=
  map (fun p =>
         {| Date := Date p;
            Ticker := Ticker p;
            Open := round_dec 3 (Open p);
            High := round_dec 3 (High p);
            Low := round_dec 3 (Low p);
            Close := round_dec 3 (Close p);
            Volume := Volume p |})
      df.

(** Two price rows that agree up to the equality of rationals. *)
Definition PricePoint_eq (a b : PricePoint) : Prop :=
  Date a = Date b /\ Ticker a = Ticker b /\
  Open a == Open b /\ High a == High b /\ Low a == Low b /\
  Close a == Close b /\ Volume a == Volume b.

(** A row of the table of fundamentals as extracted. *)
Record Fundamental : Type := mkFundamental {
  fun_Ticker : string;
  fun_Name : string;
  fun_PER : float;
  fun_ROE : float;
  fun_EPS_Growth_YoY : float;
  fun_Deuda_Patrimonio : float;
  fun_Margen_Neto : float;
  fun_Dividend_Yield : float;
  fun_Market_Cap : cell;
  fun_Acciones_en_Circulacion : float
}.

(** A row of the table of fundamentals with its ranking. *)
Record FundamentalReady : Type := mkFundamentalReady {
  fr_row : Fundamental;
  Ranking_MarketCap : nat
}.

(** The position of the first occurrence of [i] in a list of indices. *)
Fixpoint position (i : nat) (l : list nat) : nat :=
  match l with
  | [] => O
  | j :: l' => if Nat.eqb i j then O else S (position i l')
  end.

(** The rows of a column numbered from [k], sorted by value from the
    largest to the smallest; the sort is stable, so equal values stay in
    the order of the rows. *)
Definition order_desc (k : nat) (vals : list Q) : list (nat * Q) :=
  sort_by (fun a b => Qle_bool (snd b) (snd a))
          (combine (seq k (length vals)) vals).

(** [Series.rank(ascending=False, method='first')] on a column without
    missing cells: the rank of a row is its place in the descending
    order, counted from 1. *)
Definition rank_first_desc (vals : list Q) : list nat :=
  map (fun i => S (position i (map fst (order_desc 0 vals))))
      (seq 0 (length vals)).

(** [transformar_indicadores_fundamentales] after the columns are
    selected: the ranking by market capitalisation is added.  The rank
    of a missing market cap is NaN, which [astype(int)] refuses. *)
Definition transformar_indicadores_fundamentales (df : list Fundamental)
  : result (list FundamentalReady) :=
  match observed (map fun_Market_Cap df) with
  | Some caps =>
      Ok (imap (fun i f =>
                  {| fr_row := f;
                     Ranking_MarketCap := nth i (rank_first_desc caps) O |})
               df)
  | None => Raise ValueError
  end.

(** [a] comes before [b] in the ranking: a larger value, or the same
    value on an earlier row. *)
Definition ranks_before (a b : nat * Q) : Prop :=
  snd b < snd a \/ (snd a == snd b /\ (fst a < fst b)%nat).

(** Three fundamentals rows; the first and the third have the same
    market cap. *)
Definition fundamentales_example : list Fundamental :=
  [ mkFundamental "A" "Alfa" (Fin 15) (Fin 0.20) (Fin 0.12) (Fin 50)
                  (Fin 0.1) (Fin 0.02) (Some 100) (Fin 10);
    mkFundamental "B" "Beta" (Fin 25) NaN (Fin 0.05) (Fin 150)
                  (Fin 0.2) NaN (Some 300) (Fin 20);
    mkFundamental "C" "Gama" NaN (Fin 0.01) (Fin (-0.3)) (Fin 250)
                  (Fin 0.3) (Fin 0.01) (Some 100) (Fin 30) ]%string.

(** The [w] latest values of a series at index [i]. *)
Definition ventana (w i : nat) (xs : list Q) : list Q :=
  map (fun j => nth j xs 0) (seq (i + 1 - w) w).

(* ================================================================== *)
(** * Vocabulary of the further statements *)

(** The values a percentage of BUY votes can take: [c / n * 100] rounded
    to two decimals for [0 <= c <= n] and [1 <= n <= 4]. *)
Definition pct_values : list Q := [0; 25; 33.33; 50; 66.67; 75; 100].

(** A percentage cell: NaN, or one of the values of [pct_values]. *)
Definition pct_cell_ok (c : cell) : Prop :=
  match c with
  | Some q => Exists (Qeq q) pct_values
  | None => True
  end.

(** The key of a price row: its ticker and its date. *)
Definition clave (p : PricePoint) : string * Z := (Ticker p, Date p).

(** The variation rows of the rows of one ticker in date order: the
    change of each row is taken within the closes of the group. *)
Definition variaciones_grupo (group : list PricePoint) : list VariationRow :=
  imap (fun j p =>
          {| var_Date := Date p;
             var_Ticker := Ticker p;
             var_Close := Close p;
             var_cols :=
               map (fun nd =>
                      (("var_" ++ fst nd)%string,
                       fround 4
                         (if ticker_isna (Ticker p) then NaN
                          else nth j (pct_change (snd nd)
                                                 (map Close group)) NaN)))
                   periods |})
       group.

(* ================================================================== *)
(** * The tables read by [calcular_resumen_inversion] *)

(** A row of the technical file as [read_csv] returns it, with the
    columns that the summary reads; any cell but the key may be NaN. *)
Record TecRow : Type := mkTecRow {
  tec_Date : Z;
  tec_Ticker : string;
  tec_Close : float;
  tec_SMA_20 : float;
  tec_EMA_20 : float;
  tec_MACD : float;
  tec_MACD_Signal : float;
  tec_RSI_14 : float;
  tec_BB_Upper : float;
  tec_BB_Lower : float;
  tec_Estado_Fibonacci : option string
}.

(** [df.groupby(key).tail(1)]: the last row of every group, in the order
    of the frame. *)
Fixpoint groupby_tail_1 {A} (key : A -> string) (df : list A) : list A :=
  match df with
  | [] => []
  | r :: df' =>
      if existsb (fun r' => String.eqb (key r') (key r)) df'
      then groupby_tail_1 key df'
      else r :: groupby_tail_1 key df'
  end.

(** [pd.merge(left, right, on=key, how='inner')]: every pair of a left
    and a right row with the same key, in the order of the left rows and,
    for one left row, in the order of the right rows. *)
Definition merge_inner {A B C} (lkey : A -> string) (rkey : B -> string)
           (pair : A -> B -> C) (left : list A) (right : list B) : list C :=
  flat_map (fun l =>
              map (pair l)
                  (filter (fun r => String.eqb (rkey r) (lkey l)) right))
           left.

(** The row of the merged table that the loop reads. *)
Definition unir (r : TecRow) (f : FundamentalReady) : JoinedRow :=
  {| row_Ticker := tec_Ticker r;
     row_Close := tec_Close r;
     row_SMA_20 := tec_SMA_20 r;
     row_EMA_20 := tec_EMA_20 r;
     row_MACD := tec_MACD r;
     row_MACD_Signal := tec_MACD_Signal r;
     row_RSI_14 := tec_RSI_14 r;
     row_BB_Upper := tec_BB_Upper r;
     row_BB_Lower := tec_BB_Lower r;
     row_Estado_Fibonacci := tec_Estado_Fibonacci r;
     row_PER := fun_PER (fr_row f);
     row_ROE := fun_ROE (fr_row f);
     row_EPS_Growth_YoY := fun_EPS_Growth_YoY (fr_row f);
     row_Deuda_Patrimonio := fun_Deuda_Patrimonio (fr_row f) |}.

Section Resumen.

(** [df.sort_values('Date')].  The default sort of a single column is not
    stable, so rows of the same date may come out in any order: the sort
    is a parameter here, and the statements ask only that it sorts. *)
Variable sort_values_date : list TecRow -> list TecRow.

(** [calcular_resumen_inversion] from the two tables read: the latest
    technical row of every ticker, merged with the fundamentals, then the
    loop over the merged rows. *)
Definition resumen_inversion (df_tecnicos : list TecRow)
           (df_fundamentales : list FundamentalReady) : list DecisionRow :=
  let df_ultimos_tecnicos :=
    groupby_tail_1 tec_Ticker (sort_values_date df_tecnicos) in
  let df :=
    merge_inner tec_Ticker (fun f => fun_Ticker (fr_row f)) unir
                df_ultimos_tecnicos df_fundamentales in
  calcular_resumen_inversion df.

End Resumen.

Definition tec_date_le (a b : TecRow) : Prop := (tec_Date a <= tec_Date b)%Z.

(** What is asked of [sort_values('Date')]: the same rows, by date. *)
Definition sorts_by_date (sort : list TecRow -> list TecRow) : Prop :=
  forall l, Permutation (sort l) l /\ StronglySorted tec_date_le (sort l).

(** A sort by date, for running the summary on sample tables. *)
Definition sort_date_insertion (l : list TecRow) : list TecRow :=
  sort_by (fun a b => (tec_Date a <=? tec_Date b)%Z) l.

(** A row of the indicator table as written to the technical file and
    read back: a missing cell is NaN. *)
Definition leer_tecnico (r : IndicatorRow) : TecRow :=
  {| tec_Date := ind_Date r;
     tec_Ticker := ind_Ticker r;
     tec_Close := Fin (ind_Close r);
     tec_SMA_20 := of_cell (SMA_20 r);
     tec_EMA_20 := of_cell (EMA_20 r);
     tec_MACD := of_cell (MACD r);
     tec_MACD_Signal := of_cell (MACD_Signal r);
     tec_RSI_14 := RSI_14 r;
     tec_BB_Upper := of_cell (BB_Upper r);
     tec_BB_Lower := of_cell (BB_Lower r);
     tec_Estado_Fibonacci := Some (Estado_Fibonacci r) |}.

(** Two technical rows of ticker A and one of B, and the fundamentals of
    A and C. *)
Definition tecnicos_example : list TecRow :=
  [ mkTecRow 2 "A" (Fin 11) (Fin 105) (Fin 100) (Fin 1) (Fin 0.5) (Fin 25)
             NaN NaN (Some "SOPORTE");
    mkTecRow 1 "A" (Fin 10) NaN (Fin 10) (Fin 0) (Fin 0) NaN
             NaN NaN (Some "NEUTRO");
    mkTecRow 2 "B" (Fin 7) NaN (Fin 7) (Fin 0) (Fin 0) NaN
             NaN NaN (Some "RESISTENCIA") ]%string.

Definition fundamentales_ready_example : list FundamentalReady :=
  [ mkFundamentalReady
      (mkFundamental "A" "Alfa" (Fin 15) (Fin 0.20) (Fin 0.12) (Fin 50)
                     (Fin 0.1) (Fin 0.02) (Some 100) (Fin 10)) 1;
    mkFundamentalReady
      (mkFundamental "C" "Gama" NaN (Fin 0.01) (Fin (-0.3)) (Fin 250)
                     (Fin 0.3) (Fin 0.01) (Some 100) (Fin 30)) 2 ]%string.

(* ================================================================== *)
(** * The daily update of the price file ([ext_diario.py]) *)

Definition clave_eqb (a b : string * Z) : bool :=
  String.eqb (fst a) (fst b) && Z.eqb (snd a) (snd b).

(** [df.drop_duplicates(subset=key, keep='last')]: of the rows with the
    same key only the last one is kept, and the rows kept stay in the
    order of the frame. *)
Fixpoint drop_duplicates_last {A} (key : A -> string * Z) (df : list A)
  : list A :=
  match df with
  | [] => []
  | r :: df' =>
      if existsb (fun r' => clave_eqb (key r') (key r)) df'
      then drop_duplicates_last key df'
      else r :: drop_duplicates_last key df'
  end.

(** The table that [actualizar_datos_historicos] writes once rows have
    been downloaded: the table read and the new rows, one after the
    other, without the earlier rows of a repeated date and ticker. *)
Definition actualizar_datos_historicos
           (historico_df nuevos_datos_tidy : list PricePoint)
  : list PricePoint :=
  let df_actualizado := historico_df ++ nuevos_datos_tidy in
  drop_duplicates_last clave df_actualizado.

(* ================================================================== *)
(** * The incremental loads of [load.py] *)

Section Carga.

(** The rows of a table of the database and of the file loaded into it;
    the date and the ticker of a row are the unique key of the table. *)
Context {A : Type}.
Variable fecha : A -> Z.
Variable ticker : A -> string.

Definition clave_de (r : A) : Z * string := (fecha r, ticker r).

Definition misma_clave (a b : A) : bool :=
  Z.eqb (fecha a) (fecha b) && String.eqb (ticker a) (ticker b).

(** [SELECT MAX(date) FROM tabla]: NULL on a table without rows. *)
Definition max_date (db : list A) : option Z :=
  match db with
  | [] => None
  | r :: db' => Some (fold_left Z.max (map fecha db') (fecha r))
  end.

(** [INSERT ... ON CONFLICT (date, ticker) DO NOTHING] *)
Definition insert_do_nothing (db : list A) (row : A) : list A :=
  if existsb (misma_clave row) db then db else db ++ [row].

(** [INSERT ... ON CONFLICT (date, ticker) DO UPDATE SET ...]: every
    column of the stored row is replaced. *)
Definition insert_do_update (db : list A) (row : A) : list A :=
  if existsb (misma_clave row) db
  then map (fun r => if misma_clave row r then row else r) db
  else db ++ [row].

(** The shape shared by [upsert_precios_historicos],
    [upsert_indicadores_tecnicos] and [upsert_precios_variaciones]: the
    rows of the file later than the latest date of the table are sent,
    one by one, and nothing is sent when there is none. *)
Definition carga_incremental (insert : list A -> A -> list A)
           (df db : list A) : list A :=
  let df :=
    match max_date db with
    | Some max_date_db => filter (fun r => (max_date_db <? fecha r)%Z) df
    | None => df
    end in
  match df with
  | [] => db
  | _ => fold_left insert df db
  end.

(** The two statements sent to the database. *)
Definition es_insert (insert : list A -> A -> list A) : Prop :=
  insert = insert_do_nothing \/ insert = insert_do_update.

Definition upsert_precios_historicos : list A -> list A -> list A :=
  carga_incremental insert_do_nothing.

Definition upsert_indicadores_tecnicos : list A -> list A -> list A :=
  carga_incremental insert_do_update.

Definition upsert_precios_variaciones : list A -> list A -> list A :=
  carga_incremental insert_do_update.

End Carga.

(** [l'] continues [l]: the same cells, followed by more. *)
Definition continua {B} (l l' : list B) : Prop := exists z, l' = l ++ z.

(** The columns of an indicator row that come from windows, running
    averages and running sums: every column but the Fibonacci ones. *)
Definition columnas_causales (r : IndicatorRow) :=
  (ind_Date r, ind_Ticker r, ind_Close r,
   (SMA_20 r, SMA_50 r, EMA_20 r, RSI_14 r),
   (MACD r, MACD_Signal r, MACD_Hist r),
   (ATR_14 r, OBV r),
   (BB_Middle r, BB_Upper r, BB_Lower r, Volatility_20 r)).



(* ================================================================== *)
(** * The nearest level in binary64 *)










(* ================================================================== *)
(** * Theorems *)

(** The daily variation of the closes 100, 110, 121. *)
Example pct_change_daily :
  Forall2 feq (map (fround 4) (pct_change 1 [100; 110; 121]))
          [NaN; Fin 0.1; Fin 0.1].
Proof. repeat constructor. Qed.

(* ------------------------------------------------------------------ *)
(** ** SignalAggregator *)

Lemma senales_tec_build (row : JoinedRow) :
  señales_tec row = build (tec_entries row).
Proof.
  unfold señales_tec, tec_entries, build, three_way; cbn [fold_left fst snd].
  destruct (notna (row_SMA_20 row) && notna (row_EMA_20 row));
    destruct (notna (row_MACD row) && notna (row_MACD_Signal row));
    destruct (notna (row_RSI_14 row));
    destruct (row_Estado_Fibonacci row); reflexivity.
Qed.

Lemma senales_fund_build (row : JoinedRow) :
  señales_fund row = build (fund_entries row).
Proof.
  unfold señales_fund, fund_entries, build, three_way; cbn [fold_left fst snd].
  destruct (notna (row_PER row)); destruct (notna (row_ROE row));
    destruct (notna (row_EPS_Growth_YoY row));
    destruct (notna (row_Deuda_Patrimonio row)); reflexivity.
Qed.

(** A dict built from four entries under four distinct keys holds exactly
    the entries that have a value. *)
Lemma build4_facts (k1 k2 k3 k4 : string) (o1 o2 o3 o4 : option Senal) :
  NoDup [k1; k2; k3; k4] ->
  let keys := [k1; k2; k3; k4] in
  let d := build [(k1, o1); (k2, o2); (k3, o3); (k4, o4)] in
  map (dict_get d) keys = [o1; o2; o3; o4] /\
  length d = n_present d keys /\
  forall v, count_senal v d = n_votes v d keys.
Proof.
  intros ND.
  assert (E : forall a b, In a [k1; k2; k3; k4] -> In b [k1; k2; k3; k4] ->
                          a = b \/ String.eqb a b = false).
  { intros a b _ _. destruct (String.eqb_spec a b); auto. }
  inversion ND as [|? ? N1 ND1]; subst.
  inversion ND1 as [|? ? N2 ND2]; subst.
  inversion ND2 as [|? ? N3 ND3]; subst.
  assert (H12 : String.eqb k1 k2 = false) by (apply String.eqb_neq; intro; subst; apply N1; simpl; auto).
  assert (H13 : String.eqb k1 k3 = false) by (apply String.eqb_neq; intro; subst; apply N1; simpl; auto).
  assert (H14 : String.eqb k1 k4 = false) by (apply String.eqb_neq; intro; subst; apply N1; simpl; auto).
  assert (H23 : String.eqb k2 k3 = false) by (apply String.eqb_neq; intro; subst; apply N2; simpl; auto).
  assert (H24 : String.eqb k2 k4 = false) by (apply String.eqb_neq; intro; subst; apply N2; simpl; auto).
  assert (H34 : String.eqb k3 k4 = false) by (apply String.eqb_neq; intro; subst; apply N3; simpl; auto).
  assert (H21 : String.eqb k2 k1 = false) by (rewrite String.eqb_sym; exact H12).
  assert (H31 : String.eqb k3 k1 = false) by (rewrite String.eqb_sym; exact H13).
  assert (H41 : String.eqb k4 k1 = false) by (rewrite String.eqb_sym; exact H14).
  assert (H32 : String.eqb k3 k2 = false) by (rewrite String.eqb_sym; exact H23).
  assert (H42 : String.eqb k4 k2 = false) by (rewrite String.eqb_sym; exact H24).
  assert (H43 : String.eqb k4 k3 = false) by (rewrite String.eqb_sym; exact H34).
  clear E ND ND1 ND2 ND3 N1 N2 N3.
  destruct o1 as [s1|], o2 as [s2|], o3 as [s3|], o4 as [s4|];
    unfold build, n_present, n_votes, count_senal;
    repeat (progress
              (cbn [fold_left fst snd dict_set dict_get map filter length
                    is_present is_vote];
               rewrite ?String.eqb_refl, ?H12, ?H13, ?H14, ?H23, ?H24, ?H34,
                       ?H21, ?H31, ?H41, ?H32, ?H42, ?H43));
    (split; [reflexivity|split; [reflexivity|]]);
    intros v;
    repeat match goal with
           | |- context [Senal_eqb ?s v] => destruct (Senal_eqb s v)
           end; reflexivity.
Qed.

Lemma tec_keys_nodup : NoDup tec_keys.
Proof.
  unfold tec_keys.
  repeat constructor; simpl; intuition discriminate.
Qed.

Lemma fund_keys_nodup : NoDup fund_keys.
Proof.
  unfold fund_keys.
  repeat constructor; simpl; intuition discriminate.
Qed.

Lemma senales_tec_facts (row : JoinedRow) :
  map (dict_get (señales_tec row)) tec_keys = map snd (tec_entries row) /\
  length (señales_tec row) = n_present (señales_tec row) tec_keys /\
  forall v, count_senal v (señales_tec row)
            = n_votes v (señales_tec row) tec_keys.
Proof.
  rewrite senales_tec_build.
  exact (build4_facts _ _ _ _ _ _ _ _ tec_keys_nodup).
Qed.

Lemma senales_fund_facts (row : JoinedRow) :
  map (dict_get (señales_fund row)) fund_keys = map snd (fund_entries row) /\
  length (señales_fund row) = n_present (señales_fund row) fund_keys /\
  forall v, count_senal v (señales_fund row)
            = n_votes v (señales_fund row) fund_keys.
Proof.
  rewrite senales_fund_build.
  exact (build4_facts _ _ _ _ _ _ _ _ fund_keys_nodup).
Qed.

Lemma gate1 (x : float) (v : Senal) :
  (if notna x then Some v else None) = None <-> x = NaN.
Proof. destruct x; simpl; split; congruence. Qed.

Lemma gate2 (x y : float) (v : Senal) :
  (if notna x && notna y then Some v else None) = None
  <-> x = NaN \/ y = NaN.
Proof.
  destruct x, y; simpl; split; try congruence; auto;
    intros [H|H]; congruence.
Qed.

Lemma pct_buy_spec (d : senales) (keys : list string) :
  length d = n_present d keys ->
  count_senal COMPRAR d = n_votes COMPRAR d keys ->
  pct_buy d = spec_pct (n_votes COMPRAR d keys) (n_present d keys).
Proof.
  intros Hl Hc. unfold pct_buy, spec_pct.
  rewrite Hl, Hc. destruct (n_present d keys); reflexivity.
Qed.

(** C4.  Every one of the eight signals is left out of its dict exactly
    when an input it reads is NaN, so that the dicts hold the present
    signals only, and each percentage is the number of BUY votes over the
    number of present signals, times 100, rounded to two decimals, and NaN
    when no signal is present. *)
Theorem signals_gated_and_percentages (row : JoinedRow) :
  let tec := señales_tec row in
  let fund := señales_fund row in
  (dict_get tec "SMA_vs_EMA" = None
   <-> row_SMA_20 row = NaN \/ row_EMA_20 row = NaN) /\
  (dict_get tec "MACD" = None
   <-> row_MACD row = NaN \/ row_MACD_Signal row = NaN) /\
  (dict_get tec "RSI" = None <-> row_RSI_14 row = NaN) /\
  (dict_get tec "Estado_Fibonacci" = None
   <-> row_Estado_Fibonacci row = None) /\
  (dict_get fund "PER" = None <-> row_PER row = NaN) /\
  (dict_get fund "ROE" = None <-> row_ROE row = NaN) /\
  (dict_get fund "EPS Growth YoY" = None <-> row_EPS_Growth_YoY row = NaN) /\
  (dict_get fund "Deuda/Patrimonio" = None
   <-> row_Deuda_Patrimonio row = NaN) /\
  length tec = n_present tec tec_keys /\
  length fund = n_present fund fund_keys /\
  pct_tecnico_buy (resumen_fila row)
  = spec_pct (n_votes COMPRAR tec tec_keys) (n_present tec tec_keys) /\
  pct_fundamental_buy (resumen_fila row)
  = spec_pct (n_votes COMPRAR fund fund_keys) (n_present fund fund_keys).
Proof.
  intros tec fund.
  destruct (senales_tec_facts row) as (Gt & Lt & Ct).
  destruct (senales_fund_facts row) as (Gf & Lf & Cf).
  fold tec in Gt, Lt, Ct. fold fund in Gf, Lf, Cf.
  unfold tec_keys, tec_entries in Gt. unfold fund_keys, fund_entries in Gf.
  cbn [map snd] in Gt, Gf.
  injection Gt as G1 G2 G3 G4. injection Gf as G5 G6 G7 G8.
  rewrite G1, G2, G3, G4, G5, G6, G7, G8.
  repeat split; try apply gate1; try apply gate2; try assumption;
    try (destruct (row_Estado_Fibonacci row); congruence).
  - apply pct_buy_spec; [exact Lt | apply Ct].
  - apply pct_buy_spec; [exact Lf | apply Cf].
Qed.

(** C5.  The final decision is BUY when the BUY votes of the eight signals
    outnumber the SELL votes, SELL when the SELL votes outnumber the BUY
    votes, and HOLD otherwise; on the row of the example all eight signals
    are BUY, both percentages are 100 and the decision is COMPRAR. *)
Theorem final_decision_majority :
  (forall row : JoinedRow,
      let tec := señales_tec row in
      let fund := señales_fund row in
      Decision_Final (resumen_fila row)
      = spec_decision
          (n_votes COMPRAR tec tec_keys + n_votes COMPRAR fund fund_keys)
          (n_votes VENDER tec tec_keys + n_votes VENDER fund fund_keys)) /\
  (forall (ticker : string) (close bb_upper bb_lower : float),
      let row :=
        {| row_Ticker := ticker; row_Close := close;
           row_SMA_20 := Fin 105; row_EMA_20 := Fin 100;
           row_MACD := Fin 1.0; row_MACD_Signal := Fin 0.5;
           row_RSI_14 := Fin 25;
           row_BB_Upper := bb_upper; row_BB_Lower := bb_lower;
           row_Estado_Fibonacci := Some "SOPORTE"%string;
           row_PER := Fin 15; row_ROE := Fin 0.20;
           row_EPS_Growth_YoY := Fin 0.12;
           row_Deuda_Patrimonio := Fin 50 |} in
      map (dict_get (señales_tec row)) tec_keys
      = [Some COMPRAR; Some COMPRAR; Some COMPRAR; Some COMPRAR] /\
      map (dict_get (señales_fund row)) fund_keys
      = [Some COMPRAR; Some COMPRAR; Some COMPRAR; Some COMPRAR] /\
      ceq (pct_tecnico_buy (resumen_fila row)) (Some 100) /\
      ceq (pct_fundamental_buy (resumen_fila row)) (Some 100) /\
      Decision_Final (resumen_fila row) = COMPRAR).
Proof.
  split.
  - intros row tec fund.
    destruct (senales_tec_facts row) as (_ & _ & Ct).
    destruct (senales_fund_facts row) as (_ & _ & Cf).
    unfold resumen_fila, spec_decision; cbn [Decision_Final].
    fold tec fund. fold tec in Ct. fold fund in Cf.
    rewrite !Ct, !Cf. reflexivity.
  - intros ticker close bb_upper bb_lower row.
    repeat split; vm_compute; reflexivity.
Qed.

(* ------------------------------------------------------------------ *)
(** ** Lists, positions and groups *)

Lemma zip_with_length {A B C} (f : A -> B -> C) (xs : list A) (ys : list B) :
  length xs = length ys -> length (zip_with f xs ys) = length xs.
Proof.
  revert ys; induction xs as [|x xs IH]; intros [|y ys] H; simpl in *;
    try discriminate; auto.
Qed.

Lemma nth_zip_with {A B C} (f : A -> B -> C) (xs : list A) (ys : list B)
      (i : nat) (da : A) (db : B) (dc : C) :
  length xs = length ys -> (i < length xs)%nat ->
  nth i (zip_with f xs ys) dc = f (nth i xs da) (nth i ys db).
Proof.
  revert ys i; induction xs as [|x xs IH]; intros [|y ys] i H Hi;
    simpl in *; try discriminate; try lia.
  destruct i; auto. apply IH; lia.
Qed.

Lemma shift_length (n : nat) (xs : list cell) :
  length (shift n xs) = length xs.
Proof.
  unfold shift. rewrite length_firstn, length_app, repeat_length.
  lia.
Qed.

Lemma nth_shift (n i : nat) (xs : list cell) :
  (i < length xs)%nat ->
  nth i (shift n xs) None = if (i <? n)%nat then None else nth (i - n) xs None.
Proof.
  intros Hi. unfold shift.
  rewrite nth_firstn. destruct (Nat.ltb_spec i (length xs)) as [_|]; [|lia].
  destruct (Nat.ltb_spec i n).
  - rewrite app_nth1 by (rewrite repeat_length; lia).
    apply nth_repeat.
  - rewrite app_nth2 by (rewrite repeat_length; lia).
    rewrite repeat_length. reflexivity.
Qed.

Lemma series_length (xs : list Q) : length (series xs) = length xs.
Proof. apply length_map. Qed.

Lemma nth_series (xs : list Q) (i : nat) :
  (i < length xs)%nat -> nth i (series xs) None = Some (nth i xs 0).
Proof.
  intros Hi. unfold series.
  rewrite (nth_indep _ None (Some 0)) by (rewrite length_map; lia).
  apply (map_nth Some).
Qed.

Lemma imap_from_length {A B} (f : nat -> A -> B) (l : list A) (k : nat) :
  length (imap_from k f l) = length l.
Proof. revert k; induction l; simpl; auto. Qed.

Lemma nth_error_imap_from {A B} (f : nat -> A -> B) (l : list A) (k i : nat) :
  nth_error (imap_from k f l) i = option_map (f (k + i)%nat) (nth_error l i).
Proof.
  revert k i; induction l as [|a l IH]; intros k [|i]; simpl; auto.
  - rewrite Nat.add_0_r. reflexivity.
  - rewrite IH. replace (S k + i)%nat with (k + S i)%nat by lia. reflexivity.
Qed.

Lemma nth_imap {A B} (f : nat -> A -> B) (l : list A) (i : nat) (a : A) (d : B) :
  nth_error l i = Some a -> nth i (imap f l) d = f i a.
Proof.
  intros H. apply nth_error_nth. unfold imap.
  rewrite nth_error_imap_from, H. reflexivity.
Qed.

Section Groups.

Context {B : Type}.
Variable tk : B -> string.
Variable f : nat -> PricePoint -> B.
Hypothesis tk_f : forall i p, tk (f i p) = Ticker p.

(** The rows of a ticker in a table computed row by row are the rows
    computed at the rows of that ticker, in the same order. *)
Lemma rows_of_imap_from (t : string) (l : list PricePoint) :
  forall (k j : nat) (p : PricePoint),
    nth_error (rows_of t l) j = Some p ->
    exists i,
      nth_error l i = Some p /\
      length (rows_of t (firstn i l)) = j /\
      nth_error (out_rows_of tk t (imap_from k f l)) j = Some (f (k + i)%nat p).
Proof.
  induction l as [|a l IH]; intros k j p H; simpl in H.
  - destruct j; discriminate.
  - unfold out_rows_of; simpl. rewrite tk_f.
    destruct (String.eqb (Ticker a) t) eqn:E.
    + destruct j as [|j]; simpl in H.
      * injection H as <-. exists 0%nat. simpl.
        rewrite Nat.add_0_r. auto.
      * destruct (IH (S k) j p H) as (i & H1 & H2 & H3).
        exists (S i). simpl. rewrite E. simpl.
        replace (k + S i)%nat with (S k + i)%nat by lia. auto.
    + destruct (IH (S k) j p H) as (i & H1 & H2 & H3).
      exists (S i). simpl. rewrite E.
      replace (k + S i)%nat with (S k + i)%nat by lia. auto.
Qed.

Lemma out_rows_of_imap_from_length (t : string) (l : list PricePoint) (k : nat) :
  length (out_rows_of tk t (imap_from k f l)) = length (rows_of t l).
Proof.
  revert k; induction l as [|a l IH]; intros k; simpl; auto.
  unfold out_rows_of in *; simpl. rewrite tk_f.
  destruct (String.eqb (Ticker a) t); simpl; auto.
Qed.

End Groups.

(* ------------------------------------------------------------------ *)
(** ** Rounding and division *)

Lemma rint_comp (x y : Q) : x == y -> rint x = rint y.
Proof.
  intros H. unfold rint. rewrite (Qfloor_comp _ _ H).
  assert (E : x - inject_Z (Qfloor y) == y - inject_Z (Qfloor y))
    by (rewrite H; reflexivity).
  rewrite (Qcompare_comp _ _ E _ _ (Qeq_refl (1 # 2))). reflexivity.
Qed.

Lemma round_dec_comp (d : nat) (x y : Q) :
  x == y -> round_dec d x == round_dec d y.
Proof.
  intros H. unfold round_dec.
  rewrite (rint_comp (x * pow10 d) (y * pow10 d)) by (rewrite H; reflexivity).
  reflexivity.
Qed.

Lemma Qcompare_0_cases (x : Q) :
  (x ?= 0) = Eq /\ x == 0 \/ (x ?= 0) = Lt /\ x < 0 \/ (x ?= 0) = Gt /\ 0 < x.
Proof.
  destruct (x ?= 0) eqn:E.
  - left. split; auto. apply Qeq_alt; exact E.
  - right; left. split; auto.
  - right; right. split; auto. apply Qgt_alt; exact E.
Qed.

(* ------------------------------------------------------------------ *)
(** ** VariationEngine *)

Lemma pct_change_length (n : nat) (xs : list Q) :
  length (pct_change n xs) = length xs.
Proof.
  unfold pct_change. apply zip_with_length.
  rewrite shift_length, series_length. reflexivity.
Qed.

Lemma nth_pct_change (n i : nat) (xs : list Q) :
  (i < length xs)%nat ->
  nth i (pct_change n xs) NaN
  = fsub (fdiv (Fin (nth i xs 0))
               (if (i <? n)%nat then NaN else Fin (nth (i - n) xs 0)))
         (Fin 1).
Proof.
  intros Hi. unfold pct_change.
  rewrite (nth_zip_with _ _ _ _ 0 None)
    by (rewrite ?shift_length, ?series_length; auto).
  rewrite nth_shift by (rewrite series_length; auto).
  destruct (Nat.ltb_spec i n); [reflexivity|].
  rewrite nth_series by lia. reflexivity.
Qed.

(** The change over a lag at one position of a series. *)
Lemma pct_change_cases (n i : nat) (xs : list Q) :
  (i < length xs)%nat ->
  let v := fround 4 (nth i (pct_change n xs) NaN) in
  let cur := nth i xs 0 in
  let prev := nth (i - n) xs 0 in
  ((i < n)%nat -> v = NaN) /\
  ((n <= i)%nat -> ~ prev == 0 ->
   feq v (Fin (round_dec 4 ((cur - prev) / prev)))) /\
  ((n <= i)%nat -> prev == 0 ->
   v = match cur ?= 0 with Gt => PInf | Lt => NInf | Eq => NaN end).
Proof.
  intros Hi v cur prev. unfold v. rewrite nth_pct_change by auto.
  fold cur prev.
  repeat split.
  - intros H. destruct (Nat.ltb_spec i n); [reflexivity|lia].
  - intros H Hp. destruct (Nat.ltb_spec i n); [lia|].
    unfold fdiv.
    destruct (Qcompare_0_cases prev) as [[E He]|[[E He]|[E He]]];
      [contradiction| |]; rewrite E; simpl;
      apply round_dec_comp; field; exact Hp.
  - intros H Hp. destruct (Nat.ltb_spec i n); [lia|].
    unfold fdiv.
    assert (E : (prev ?= 0) = Eq) by (apply Qeq_alt; exact Hp).
    rewrite E. destruct (cur ?= 0); reflexivity.
Qed.

Lemma col_get_periods (X : nat -> float) (name : string) (days : nat) :
  In (name, days) periods ->
  col_get (map (fun nd => (("var_" ++ fst nd)%string, X (snd nd))) periods)
          ("var_" ++ name)
  = Some (X days).
Proof.
  unfold periods. simpl In.
  intros [H|[H|[H|[H|[H|[]]]]]]; injection H as <- <-; reflexivity.
Qed.

Lemma rows_of_ticker (t : string) (df : list PricePoint) (i : nat)
      (p : PricePoint) :
  nth_error (rows_of t df) i = Some p -> Ticker p = t.
Proof.
  intros H. apply nth_error_In in H. unfold rows_of in H.
  apply filter_In in H. destruct H as [_ H].
  apply String.eqb_eq; exact H.
Qed.

(* ------------------------------------------------------------------ *)
(** ** Rounding to decimals *)

Lemma pow10_pos (d : nat) : 0 < pow10 d.
Proof.
  unfold pow10. change 0 with (inject_Z 0). rewrite <- Zlt_Qlt.
  apply Z.pow_pos_nonneg; lia.
Qed.

Lemma Qfloor_bounds (x : Q) :
  inject_Z (Qfloor x) <= x /\ x < inject_Z (Qfloor x) + 1.
Proof.
  split; [apply Qfloor_le|].
  assert (H := Qlt_floor x). rewrite inject_Z_plus in H. exact H.
Qed.

(** Rounding to the nearest integer moves a number by at most one half. *)
Lemma rint_bounds (x : Q) :
  inject_Z (rint x) - x <= 1 # 2 /\ x - inject_Z (rint x) <= 1 # 2.
Proof.
  destruct (Qfloor_bounds x) as [Hl Hu]. unfold rint.
  destruct (Qcompare (x - inject_Z (Qfloor x)) (1 # 2)) eqn:E.
  - apply Qeq_alt in E.
    destruct (Z.even (Qfloor x)); rewrite ?inject_Z_plus;
      change (inject_Z 1) with 1; split; lra.
  - apply Qlt_alt in E. split; lra.
  - apply Qgt_alt in E. rewrite inject_Z_plus.
    change (inject_Z 1) with 1. split; lra.
Qed.

Lemma rint_Z (z : Z) : rint (inject_Z z) = z.
Proof.
  unfold rint. rewrite Qfloor_Z.
  assert (E : Qcompare (inject_Z z - inject_Z z) (1 # 2) = Lt).
  { apply Qlt_alt.
    setoid_replace (inject_Z z - inject_Z z) with 0 by ring.
    reflexivity. }
  rewrite E. reflexivity.
Qed.

Lemma inject_Z_succ_le (a b : Z) :
  (a < b)%Z -> inject_Z a + 1 <= inject_Z b.
Proof.
  intros H. change 1 with (inject_Z 1). rewrite <- inject_Z_plus.
  rewrite <- Zle_Qle. lia.
Qed.

Lemma rint_cases (x : Q) (f : Z) :
  f = Qfloor x ->
  rint x = f /\
  (x - inject_Z f < 1 # 2 \/
   x - inject_Z f == 1 # 2 /\ Z.even f = true)
  \/
  rint x = (f + 1)%Z /\
  (1 # 2 < x - inject_Z f \/
   x - inject_Z f == 1 # 2 /\ Z.even f = false).
Proof.
  intros ->. unfold rint.
  destruct (Qcompare (x - inject_Z (Qfloor x)) (1 # 2)) eqn:E.
  - apply Qeq_alt in E. destruct (Z.even (Qfloor x)); [left|right]; auto.
  - apply Qlt_alt in E. left; auto.
  - apply Qgt_alt in E. right; auto.
Qed.

Lemma rint_mono (x y : Q) : x <= y -> (rint x <= rint y)%Z.
Proof.
  intros Hxy.
  assert (Hf := Qfloor_resp_le _ _ Hxy).
  destruct (rint_cases x _ eq_refl) as [[Rx Cx]|[Rx Cx]];
    destruct (rint_cases y _ eq_refl) as [[Ry Cy]|[Ry Cy]];
    rewrite Rx, Ry; try lia.
  destruct (Z.eq_dec (Qfloor x) (Qfloor y)) as [Ef|Nf]; [|lia].
  exfalso. rewrite Ef in Cx.
  destruct Cx as [Cx|[Cx Ox]]; destruct Cy as [Cy|[Cy Oy]]; try lra.
  congruence.
Qed.

Lemma round_dec_scaled (d : nat) (x : Q) :
  round_dec d x * pow10 d == inject_Z (rint (x * pow10 d)).
Proof.
  unfold round_dec. assert (H := pow10_pos d). field. lra.
Qed.

(** Rounding to [d] decimals moves a number by at most half a unit of
    the last decimal. *)
Lemma round_dec_error (d : nat) (x : Q) :
  round_dec d x - x <= (1 # 2) / pow10 d /\
  x - round_dec d x <= (1 # 2) / pow10 d.
Proof.
  assert (Hp := pow10_pos d).
  destruct (rint_bounds (x * pow10 d)) as [H1 H2].
  rewrite <- round_dec_scaled in H1, H2.
  split; apply Qle_shift_div_l; try exact Hp.
  - setoid_replace ((round_dec d x - x) * pow10 d)
      with (round_dec d x * pow10 d - x * pow10 d) by ring. exact H1.
  - setoid_replace ((x - round_dec d x) * pow10 d)
      with (x * pow10 d - round_dec d x * pow10 d) by ring. exact H2.
Qed.

Lemma round_dec_mono (d : nat) (x y : Q) :
  x <= y -> round_dec d x <= round_dec d y.
Proof.
  intros H. assert (Hp := pow10_pos d). unfold round_dec.
  apply Qmult_le_compat_r.
  - rewrite <- Zle_Qle. apply rint_mono.
    apply Qmult_le_compat_r; [exact H|lra].
  - apply Qinv_le_0_compat. lra.
Qed.

Lemma round_dec_idem (d : nat) (x : Q) :
  round_dec d (round_dec d x) == round_dec d x.
Proof.
  unfold round_dec at 1.
  rewrite (rint_comp _ _ (round_dec_scaled d x)), rint_Z.
  reflexivity.
Qed.

(* ------------------------------------------------------------------ *)
(** ** Cleaning of the price table *)

Lemma round3_error (x : Q) :
  round_dec 3 x - x <= 0.0005 /\ x - round_dec 3 x <= 0.0005.
Proof.
  destruct (round_dec_error 3 x) as [H1 H2].
  assert (E : (1 # 2) / pow10 3 == 0.0005) by reflexivity.
  rewrite E in H1, H2. auto.
Qed.

(* ------------------------------------------------------------------ *)
(** ** The variation table *)

Lemma nth_var_column (days idx : nat) (df : list PricePoint)
      (p : PricePoint) :
  nth_error df idx = Some p ->
  nth idx (var_column days df) NaN
  = fround 4
      (if ticker_isna (Ticker p) then NaN
       else nth (length (rows_of (Ticker p) (firstn idx df)))
                (pct_change days (map Close (rows_of (Ticker p) df))) NaN).
Proof.
  intros H. unfold var_column.
  change NaN with (fround 4 NaN) at 1. rewrite map_nth.
  unfold groupby_pct_change. rewrite (nth_imap _ _ _ p) by exact H.
  reflexivity.
Qed.

Lemma variation_law_holds (n i : nat) (xs : list Q) :
  (i < length xs)%nat ->
  variation_law xs n i (fround 4 (nth i (pct_change n xs) NaN)).
Proof.
  intros Hi. destruct (pct_change_cases n i xs Hi) as (C1 & C2 & C3).
  unfold variation_law. split; [exact C1|]. split.
  - intros Hn Hz. specialize (C2 Hn Hz).
    set (x := (nth i xs 0 - nth (i - n) xs 0) / nth (i - n) xs 0) in *.
    exists (rint (x * pow10 4)).
    assert (E : inject_Z (rint (x * pow10 4)) / 10000 == round_dec 4 x)
      by reflexivity.
    split.
    + destruct (fround 4 _); try contradiction.
      cbn [feq] in C2 |- *. rewrite C2, E. reflexivity.
    + rewrite E. destruct (round_dec_error 4 x) as [H1 H2].
      assert (P : (1 # 2) / pow10 4 == 1 # 20000) by reflexivity.
      rewrite P in H1, H2. apply Qabs_Qle_condition. split; lra.
  - intros Hn Hz. specialize (C3 Hn Hz). split.
    + intros Hc. rewrite C3.
      replace (nth i xs 0 ?= 0) with Eq
        by (symmetry; apply Qeq_alt, Hc). reflexivity.
    + intros Hc. rewrite C3. destruct (nth i xs 0 ?= 0) eqn:E; auto.
      exfalso. apply Hc, Qeq_alt, E.
Qed.

(** C2 (as amended).  Within the rows of a ticker sorted by date, the
    variation over each of the five lags is missing on the first [lag]
    rows; where the earlier close is not zero it is a number of four
    decimals that differs from the relative change by at most half a unit
    of the fourth decimal; where the earlier close is zero the cell is an
    infinity (NaN when the later close is zero too).  On the rows of a
    ticker that is read as missing every variation is NaN. *)
Theorem variation_values (df : list PricePoint) (t name : string)
        (days i : nat) :
  let closes := map Close (rows_of t (sort_values df)) in
  let out := filter (fun r => String.eqb (var_Ticker r) t)
                    (calcular_variaciones_precios df) in
  In (name, days) periods ->
  (i < length closes)%nat ->
  length out = length closes /\
  exists r v,
    nth_error out i = Some r /\
    col_get (var_cols r) ("var_" ++ name) = Some v /\
    (ticker_isna t = false -> variation_law closes days i v) /\
    (ticker_isna t = true -> v = NaN).
Proof.
  intros closes out Hin Hi.
  unfold out, calcular_variaciones_precios, imap.
  set (sdf := sort_values df) in *.
  set (F := fun (i : nat) (p : PricePoint) => _).
  assert (TK : forall i p, var_Ticker (F i p) = Ticker p) by reflexivity.
  split.
  - unfold closes. rewrite length_map.
    apply (out_rows_of_imap_from_length var_Ticker F TK).
  - unfold closes in Hi. rewrite length_map in Hi.
    destruct (nth_error (rows_of t sdf) i) as [p|] eqn:Hp;
      [|apply nth_error_None in Hp; lia].
    destruct (rows_of_imap_from var_Ticker F TK t sdf 0 i p Hp)
      as (idx & H1 & H2 & H3).
    exists (F idx p), (nth idx (var_column days sdf) NaN).
    split; [exact H3|]. split.
    + unfold F; cbn [var_cols].
      apply (col_get_periods (fun d => nth idx (var_column d sdf) NaN)).
      exact Hin.
    + rewrite (nth_var_column _ _ _ p H1).
      rewrite (rows_of_ticker _ _ _ _ Hp), H2. split.
      * intros Hna. rewrite Hna.
        apply variation_law_holds. unfold closes. rewrite length_map.
        exact Hi.
      * intros Hna. rewrite Hna. reflexivity.
Qed.

Lemma variation_values_witness :
  In ("daily"%string, 1%nat) periods /\
  (1 < length (map Close (rows_of "A" (sort_values df_example))))%nat /\
  exists r v,
    nth_error (filter (fun r => String.eqb (var_Ticker r) "A")
                      (calcular_variaciones_precios df_example)) 1 = Some r /\
    col_get (var_cols r) "var_daily" = Some v /\
    variation_law (map Close (rows_of "A" (sort_values df_example))) 1 1 v.
Proof.
  assert (H1 : In ("daily"%string, 1%nat) periods) by (simpl; auto).
  assert (H2 : (1 < length (map Close (rows_of "A" (sort_values df_example))))%nat)
    by (vm_compute; lia).
  split; [exact H1|]. split; [exact H2|].
  destruct (variation_values df_example "A" "daily" 1 1 H1 H2)
    as (_ & r & v & Hr & Hv & Hlaw & _).
  exists r, v. split; [exact Hr|]. split; [exact Hv|].
  apply Hlaw. reflexivity.
Defined.

(** C2 as stated fails: after a close of zero the daily variation is
    [+inf], which [pd.notna] accepts, not a missing cell. *)
Lemma variation_zero_close_is_infinite :
  let closes := map Close (rows_of "A" (sort_values df_zero_close)) in
  nth (1 - 1) closes 0 == 0 /\
  exists r,
    nth_error (filter (fun r => String.eqb (var_Ticker r) "A")
                      (calcular_variaciones_precios df_zero_close)) 1
    = Some r /\
    col_get (var_cols r) "var_daily" = Some PInf /\
    PInf <> NaN /\ notna PInf = true.
Proof.
  split; [vm_compute; reflexivity|].
  eexists. split; [vm_compute; reflexivity|].
  split; [vm_compute; reflexivity|].
  split; [discriminate|reflexivity].
Qed.

(* ------------------------------------------------------------------ *)
(** ** Sorting and grouping *)

Lemma insert_by_perm {A} (leb : A -> A -> bool) (x : A) (l : list A) :
  Permutation (insert_by leb x l) (x :: l).
Proof.
  induction l as [|y l IH]; simpl; auto.
  destruct (leb x y); auto.
  rewrite IH. apply perm_swap.
Qed.

Lemma sort_by_perm {A} (leb : A -> A -> bool) (l : list A) :
  Permutation (sort_by leb l) l.
Proof.
  induction l as [|x l IH]; simpl; auto.
  rewrite insert_by_perm. constructor. exact IH.
Qed.

Lemma filter_perm {A} (f : A -> bool) (l l' : list A) :
  Permutation l l' -> Permutation (filter f l) (filter f l').
Proof.
  induction 1; simpl; auto.
  - destruct (f x); auto.
  - destruct (f x), (f y); auto. apply perm_swap.
  - etransitivity; eauto.
Qed.

Lemma rows_of_sort_values (t : string) (df : list PricePoint) :
  Permutation (rows_of t (sort_values df)) (rows_of t df).
Proof. apply filter_perm, sort_by_perm. Qed.

Lemma rows_of_In (t : string) (df : list PricePoint) (p : PricePoint) :
  In p (rows_of t df) <-> In p df /\ Ticker p = t.
Proof.
  unfold rows_of. rewrite filter_In, String.eqb_eq. reflexivity.
Qed.

Lemma group_keys_In (df : list PricePoint) (t : string) :
  In t (group_keys df) <-> In t (map Ticker df).
Proof.
  unfold group_keys.
  rewrite <- (nodup_In string_dec (map Ticker df) t).
  split; apply Permutation_in; [|symmetry]; apply sort_by_perm.
Qed.

Lemma group_keys_NoDup (df : list PricePoint) : NoDup (group_keys df).
Proof.
  unfold group_keys.
  apply (Permutation_NoDup (l := nodup string_dec (map Ticker df))).
  - symmetry. apply sort_by_perm.
  - apply NoDup_nodup.
Qed.

Lemma groupby_ticker_keys (df : list PricePoint) :
  groupby_ticker df = map (fun t => (t, rows_of t df)) (group_keys df).
Proof. reflexivity. Qed.

Lemma rows_of_other (t k : string) (df : list PricePoint) :
  t <> k ->
  rows_of t (filter (fun p => negb (String.eqb (Ticker p) k)) df)
  = rows_of t df.
Proof.
  intros Hne. induction df as [|p df IH]; simpl; auto.
  destruct (String.eqb_spec (Ticker p) k) as [E|E]; simpl.
  - rewrite IH. destruct (String.eqb_spec (Ticker p) t); congruence.
  - destruct (String.eqb (Ticker p) t); rewrite IH; reflexivity.
Qed.

Lemma filter_split_perm {A} (f : A -> bool) (l : list A) :
  Permutation (filter f l ++ filter (fun a => negb (f a)) l) l.
Proof.
  induction l as [|a l IH]; simpl; auto.
  destruct (f a); simpl.
  - constructor. exact IH.
  - rewrite <- Permutation_middle. constructor. exact IH.
Qed.

(** The groups of distinct keys that cover the tickers of a table are a
    partition of its rows. *)
Lemma groups_partition (ks : list string) :
  NoDup ks ->
  forall df : list PricePoint,
    (forall p, In p df -> In (Ticker p) ks) ->
    Permutation (concat (map (fun t => rows_of t df) ks)) df.
Proof.
  induction 1 as [|k ks Hk ND IH]; intros df Hcov.
  - destruct df as [|p df]; [constructor|].
    destruct (Hcov p (or_introl eq_refl)).
  - simpl.
    set (rest := filter (fun p => negb (String.eqb (Ticker p) k)) df).
    assert (E : map (fun t => rows_of t df) ks
                = map (fun t => rows_of t rest) ks).
    { apply map_ext_in. intros t Ht. symmetry. apply rows_of_other.
      intro; subst; contradiction. }
    rewrite E, (IH rest).
    + apply (filter_split_perm (fun p => String.eqb (Ticker p) k)).
    + intros p Hp. unfold rest in Hp. apply filter_In in Hp.
      destruct Hp as [Hp Hne].
      destruct (Hcov p Hp) as [E'|]; auto.
      rewrite <- E', String.eqb_refl in Hne. discriminate.
Qed.

Lemma mapM_ok {A B} (f : A -> result B) (g : A -> B) (l : list A) :
  (forall a, In a l -> f a = Ok (g a)) -> mapM f l = Ok (map g l).
Proof.
  induction l as [|a l IH]; intros H; simpl; auto.
  rewrite (H a (or_introl eq_refl)); simpl.
  rewrite IH by (intros; apply H; right; assumption).
  reflexivity.
Qed.

Lemma filter_none {A} (f : A -> bool) (l : list A) :
  (forall a, In a l -> f a = false) -> filter f l = [].
Proof.
  induction l as [|a l IH]; intros H; simpl; auto.
  rewrite (H a (or_introl eq_refl)). apply IH.
  intros; apply H; right; assumption.
Qed.

Section Concat.

Context {B : Type}.
Variable tk : B -> string.

(** Rows filed under distinct keys: the rows of a key in the concatenation
    are the rows filed under it. *)
Lemma out_rows_of_concat (h : string -> list B) (ks : list string) :
  NoDup ks ->
  (forall k r, In r (h k) -> tk r = k) ->
  forall t,
    out_rows_of tk t (concat (map h ks)) = if in_dec string_dec t ks then h t else [].
Proof.
  intros ND Hk t. induction ND as [|k ks Hnk ND IH]; simpl; auto.
  unfold out_rows_of in *. rewrite filter_app, IH.
  destruct (string_dec k t) as [->|Hne].
  - destruct (in_dec string_dec t ks); [contradiction|].
    rewrite app_nil_r. apply forallb_filter_id.
    apply forallb_forall. intros r Hr. apply String.eqb_eq. eauto.
  - rewrite (filter_none (fun r => String.eqb (tk r) t) (h k)).
    + destruct (in_dec string_dec t ks); reflexivity.
    + intros r Hr. apply String.eqb_neq. rewrite (Hk k r Hr). exact Hne.
Qed.

End Concat.

(* ------------------------------------------------------------------ *)
(** ** The indicator engine, group by group *)

Lemma series_max_some (xs : list Q) :
  xs <> [] -> exists m, series_max xs = Some m.
Proof. destruct xs; [congruence|]. intros _. eexists; reflexivity. Qed.

Lemma series_min_some (xs : list Q) :
  xs <> [] -> exists m, series_min xs = Some m.
Proof. destruct xs; [congruence|]. intros _. eexists; reflexivity. Qed.

Lemma ultimo_some (xs : list Q) :
  xs <> [] -> exists u, ultimo xs = Ok u /\ u = last xs 0.
Proof.
  intros H. destruct (exists_last H) as (l & a & ->).
  exists a. unfold ultimo. rewrite rev_app_distr. simpl.
  split; [reflexivity|]. symmetry. apply last_last.
Qed.

Lemma min_key_fib_diffs (u : Q) (levels : Q * Q * Q * Q * Q * Q) :
  exists nivel, min_key (fib_diffs u levels) = Ok nivel.
Proof.
  destruct levels as [[[[[f0 f23] f38] f50] f61] f100].
  eexists. reflexivity.
Qed.

Lemma fib_of_exists (closes : list Q) :
  closes <> [] -> exists mx mn u nivel, fib_of closes mx mn u nivel.
Proof.
  intros H.
  destruct (series_max_some _ H) as (mx & Hmx).
  destruct (series_min_some _ H) as (mn & Hmn).
  destruct (ultimo_some _ H) as (u & Hu & _).
  destruct (min_key_fib_diffs u (fib_levels mx mn)) as (nivel & Hn).
  exists mx, mn, u, nivel. repeat split; assumption.
Qed.

Lemma indicadores_grupo_ok (sqrtQ : Q -> Q) (group : list PricePoint)
      (mx mn u : Q) (nivel : string) :
  fib_of (map Close group) mx mn u nivel ->
  indicadores_grupo sqrtQ group
  = Ok (imap (indicador_fila sqrtQ group (fib_levels mx mn) nivel
                             (estado_fib_of nivel))
             group).
Proof.
  intros (A & B & C & D). unfold indicadores_grupo.
  rewrite A, B, C. cbn [bind]. rewrite D. reflexivity.
Qed.

Lemma indicador_fila_ticker (sqrtQ : Q -> Q) (group : list PricePoint)
      (levels : Q * Q * Q * Q * Q * Q) (nivel estado : string)
      (i : nat) (p : PricePoint) :
  ind_Ticker (indicador_fila sqrtQ group levels nivel estado i p) = Ticker p.
Proof.
  destruct levels as [[[[[f0 f23] f38] f50] f61] f100]. reflexivity.
Qed.

Lemma rows_of_nonempty (t : string) (df : list PricePoint) :
  In t (map Ticker df) -> rows_of t df <> [].
Proof.
  intros H. apply in_map_iff in H. destruct H as (p & Hp & Hin).
  assert (In p (rows_of t df)) by (apply rows_of_In; auto).
  intro E. rewrite E in H. contradiction.
Qed.

Lemma sort_values_In (df : list PricePoint) (p : PricePoint) :
  In p (sort_values df) <-> In p df.
Proof.
  split; apply Permutation_in; [|symmetry]; apply sort_by_perm.
Qed.

Lemma sort_values_tickers (df : list PricePoint) (t : string) :
  In t (map Ticker (sort_values df)) <-> In t (map Ticker df).
Proof.
  rewrite !in_map_iff. split; intros (p & E & H); exists p; split; auto;
    apply sort_values_In; exact H.
Qed.

(** On a table with at least one row the engine returns the rows of the
    groups, one group after the other. *)
Lemma engine_ok (sqrtQ : Q -> Q) (df : list PricePoint) :
  df <> [] ->
  calcular_indicadores_tecnicos sqrtQ df
  = Ok (concat (map (filas_de sqrtQ df) (group_keys (sort_values df)))).
Proof.
  intros Hne. unfold calcular_indicadores_tecnicos.
  rewrite groupby_ticker_keys.
  rewrite (mapM_ok _ (fun g => filas_de sqrtQ df (fst g))).
  - cbn [bind]. rewrite map_map; cbn [fst].
    destruct (group_keys (sort_values df)) as [|k ks] eqn:E.
    + exfalso. destruct df as [|p df]; [congruence|].
      assert (H : In (Ticker p) (group_keys (sort_values (p :: df)))).
      { apply group_keys_In, sort_values_tickers. left; reflexivity. }
      rewrite E in H. contradiction.
    + reflexivity.
  - intros g Hg. apply in_map_iff in Hg. destruct Hg as (t & <- & Ht).
    cbn [fst snd]. unfold filas_de.
    apply group_keys_In in Ht.
    destruct (fib_of_exists (map Close (rows_of t (sort_values df))))
      as (mx & mn & u & nivel & Hf).
    { intro E. apply map_eq_nil in E. revert E. apply rows_of_nonempty, Ht. }
    rewrite (indicadores_grupo_ok _ _ _ _ _ _ Hf). reflexivity.
Qed.

Lemma engine_empty (sqrtQ : Q -> Q) :
  calcular_indicadores_tecnicos sqrtQ [] = Raise ValueError.
Proof. reflexivity. Qed.

Lemma filas_de_ticker (sqrtQ : Q -> Q) (df : list PricePoint) (t : string)
      (r : IndicatorRow) :
  In r (filas_de sqrtQ df t) -> ind_Ticker r = t.
Proof.
  unfold filas_de.
  destruct (rows_of t (sort_values df)) as [|p0 g] eqn:Eg.
  - simpl. contradiction.
  - destruct (fib_of_exists (map Close (p0 :: g)))
      as (mx & mn & u & nivel & Hf); [discriminate|].
    rewrite (indicadores_grupo_ok _ _ _ _ _ _ Hf).
    intros H. apply In_nth_error in H. destruct H as (i & Hi).
    unfold imap in Hi. rewrite nth_error_imap_from in Hi.
    destruct (nth_error (p0 :: g) i) as [p|] eqn:Hp; [|discriminate].
    injection Hi as <-. rewrite indicador_fila_ticker.
    rewrite <- Eg in Hp. exact (rows_of_ticker _ _ _ _ Hp).
Qed.

(** The rows of a ticker in the output of the engine. *)
Lemma engine_rows (sqrtQ : Q -> Q) (df : list PricePoint)
      (out : list IndicatorRow) (t : string) :
  calcular_indicadores_tecnicos sqrtQ df = Ok out ->
  In t (map Ticker df) ->
  let group := rows_of t (sort_values df) in
  exists mx mn u nivel,
    fib_of (map Close group) mx mn u nivel /\
    out_rows_of ind_Ticker t out
    = imap (indicador_fila sqrtQ group (fib_levels mx mn) nivel
                           (estado_fib_of nivel))
           group.
Proof.
  intros Hout Ht group.
  assert (Hne : df <> []) by (intro; subst; discriminate).
  rewrite (engine_ok _ _ Hne) in Hout. injection Hout as <-.
  rewrite (out_rows_of_concat ind_Ticker (filas_de sqrtQ df) _
             (group_keys_NoDup _) (filas_de_ticker sqrtQ df)).
  destruct (in_dec string_dec t (group_keys (sort_values df))) as [_|Hn].
  - destruct (fib_of_exists (map Close group))
      as (mx & mn & u & nivel & Hf).
    { intro E. apply map_eq_nil in E. revert E.
      apply rows_of_nonempty, sort_values_tickers, Ht. }
    exists mx, mn, u, nivel. split; [exact Hf|].
    unfold filas_de. fold group.
    rewrite (indicadores_grupo_ok _ _ _ _ _ _ Hf). reflexivity.
  - exfalso. apply Hn, group_keys_In, sort_values_tickers, Ht.
Qed.

Lemma indicador_fila_key (sqrtQ : Q -> Q) (group : list PricePoint)
      (levels : Q * Q * Q * Q * Q * Q) (nivel estado : string)
      (i : nat) (p : PricePoint) :
  let r := indicador_fila sqrtQ group levels nivel estado i p in
  (ind_Date r, ind_Ticker r, ind_Close r) = (Date p, Ticker p, Close p).
Proof.
  destruct levels as [[[[[f0 f23] f38] f50] f61] f100]. reflexivity.
Qed.

Lemma map_imap_from {A B C} (h : B -> C) (h' : A -> C) (F : nat -> A -> B)
      (l : list A) (k : nat) :
  (forall i a, h (F i a) = h' a) ->
  map h (imap_from k F l) = map h' l.
Proof.
  intros H. revert k; induction l as [|a l IH]; intros k; simpl; auto.
  rewrite H, IH. reflexivity.
Qed.

Lemma filas_de_empty (sqrtQ : Q -> Q) (df : list PricePoint) (t : string) :
  rows_of t (sort_values df) = [] -> filas_de sqrtQ df t = [].
Proof. intros E. unfold filas_de. rewrite E. reflexivity. Qed.

Lemma filas_de_keys (sqrtQ : Q -> Q) (df : list PricePoint) (t : string) :
  map (fun r => (ind_Date r, ind_Ticker r, ind_Close r))
      (filas_de sqrtQ df t)
  = map (fun p => (Date p, Ticker p, Close p)) (rows_of t (sort_values df)).
Proof.
  destruct (rows_of t (sort_values df)) as [|p0 g] eqn:Eg.
  - rewrite filas_de_empty by exact Eg. reflexivity.
  - unfold filas_de. rewrite Eg.
    destruct (fib_of_exists (map Close (p0 :: g)))
      as (mx & mn & u & nivel & Hf); [discriminate|].
    rewrite (indicadores_grupo_ok _ _ _ _ _ _ Hf).
    apply map_imap_from. intros i a. apply indicador_fila_key.
Qed.

(** The rows of any ticker in the output are the rows computed for it. *)
Lemma engine_rows_all (sqrtQ : Q -> Q) (df : list PricePoint)
      (out : list IndicatorRow) (t : string) :
  calcular_indicadores_tecnicos sqrtQ df = Ok out ->
  out_rows_of ind_Ticker t out = filas_de sqrtQ df t.
Proof.
  intros Hout.
  assert (Hne : df <> []) by (intro; subst; discriminate).
  rewrite (engine_ok _ _ Hne) in Hout. injection Hout as <-.
  rewrite (out_rows_of_concat ind_Ticker (filas_de sqrtQ df) _
             (group_keys_NoDup _) (filas_de_ticker sqrtQ df)).
  destruct (in_dec string_dec t (group_keys (sort_values df))) as [|Hn];
    [reflexivity|].
  symmetry. apply filas_de_empty.
  apply filter_none. intros p Hp. apply String.eqb_neq. intros E.
  apply Hn, group_keys_In, in_map_iff. exists p; auto.
Qed.

Lemma length_concat_map {A B C} (f : A -> list B) (g : A -> list C)
      (ks : list A) :
  (forall k, In k ks -> length (f k) = length (g k)) ->
  length (concat (map f ks)) = length (concat (map g ks)).
Proof.
  induction ks as [|k ks IH]; intros H; simpl; auto.
  rewrite !length_app, (H k (or_introl eq_refl)), IH; auto.
  intros; apply H; right; assumption.
Qed.

Lemma engine_length (sqrtQ : Q -> Q) (df : list PricePoint)
      (out : list IndicatorRow) :
  calcular_indicadores_tecnicos sqrtQ df = Ok out ->
  length out = length df.
Proof.
  intros Hout.
  assert (Hne : df <> []) by (intro; subst; discriminate).
  rewrite (engine_ok _ _ Hne) in Hout. injection Hout as <-.
  rewrite (length_concat_map _ (fun t => rows_of t (sort_values df))).
  - assert (Hcov : forall p, In p (sort_values df) ->
                             In (Ticker p) (group_keys (sort_values df))).
    { intros p Hp. apply group_keys_In, in_map. exact Hp. }
    rewrite (Permutation_length
               (groups_partition _ (group_keys_NoDup _) (sort_values df) Hcov)).
    apply Permutation_length, sort_by_perm.
  - intros t _.
    rewrite <- (length_map (fun r => (ind_Date r, ind_Ticker r, ind_Close r))).
    rewrite filas_de_keys. apply length_map.
Qed.

(** The leading rows of a group: a single-row group has every windowed
    field missing. *)
Lemma windowed_fields_single (sqrtQ : Q -> Q) (p : PricePoint)
      (levels : Q * Q * Q * Q * Q * Q) (nivel estado : string) :
  let r := indicador_fila sqrtQ [p] levels nivel estado 0 p in
  SMA_20 r = None /\ SMA_50 r = None /\ RSI_14 r = NaN /\
  ATR_14 r = None /\ BB_Middle r = None /\ BB_Upper r = None /\
  BB_Lower r = None /\ Volatility_20 r = None.
Proof.
  destruct levels as [[[[[f0 f23] f38] f50] f61] f100].
  repeat split; reflexivity.
Qed.

(** On a table with at least one row and no missing ticker the engine
    returns one row per input row. *)
Lemma engine_one_per_input (sqrtQ : Q -> Q)
        (df : list PricePoint) :
  df <> [] ->
  exists out,
    calcular_indicadores_tecnicos sqrtQ df = Ok out /\
    length out = length df /\
    (forall t,
        map (fun r => (ind_Date r, ind_Ticker r, ind_Close r))
            (out_rows_of ind_Ticker t out)
        = map (fun p => (Date p, Ticker p, Close p))
              (rows_of t (sort_values df)) /\
        Permutation (rows_of t (sort_values df)) (rows_of t df) /\
        length (out_rows_of ind_Ticker t out) = length (rows_of t df)) /\
    (forall t r,
        (length (rows_of t df) < 2)%nat ->
        In r out -> ind_Ticker r = t -> windowed_null r).
Proof.
  intros Hne. eexists. split; [apply (engine_ok _ _ Hne)|].
  set (out := concat _).
  assert (Hout : calcular_indicadores_tecnicos sqrtQ df = Ok out)
    by apply (engine_ok _ _ Hne).
  split; [apply (engine_length _ _ _ Hout)|].
  assert (K : forall t,
             map (fun r => (ind_Date r, ind_Ticker r, ind_Close r))
                 (out_rows_of ind_Ticker t out)
             = map (fun p => (Date p, Ticker p, Close p))
                   (rows_of t (sort_values df))).
  { intros t. rewrite (engine_rows_all _ _ _ t Hout). apply filas_de_keys. }
  split.
  - intros t. split; [apply K|]. split; [apply rows_of_sort_values|].
    rewrite <- (Permutation_length (rows_of_sort_values t df)).
    rewrite <- (length_map (fun r => (ind_Date r, ind_Ticker r, ind_Close r))).
    rewrite K. apply length_map.
  - intros t r Hlt Hr Ht.
    assert (Hin : In r (out_rows_of ind_Ticker t out)).
    { unfold out_rows_of. apply filter_In. split; [exact Hr|].
      apply String.eqb_eq; exact Ht. }
    rewrite (engine_rows_all _ _ _ t Hout) in Hin.
    rewrite <- (Permutation_length (rows_of_sort_values t df)) in Hlt.
    unfold filas_de in Hin.
    destruct (rows_of t (sort_values df)) as [|p [|p' g]]; simpl in Hlt;
      [contradiction| |lia].
    destruct (fib_of_exists (map Close [p]))
      as (mx & mn & u & nivel & Hf); [discriminate|].
    rewrite (indicadores_grupo_ok _ _ _ _ _ _ Hf) in Hin.
    destruct Hin as [<-|[]].
    apply windowed_fields_single.
Qed.

(* ------------------------------------------------------------------ *)
(** ** The order of the sorted table *)

Lemma string_compare_refl (s : string) : String.compare s s = Eq.
Proof.
  induction s as [|c s IH]; simpl; auto.
  unfold Ascii.compare. rewrite N.compare_refl. exact IH.
Qed.

Lemma string_compare_lt_trans (s1 s2 s3 : string) :
  String.compare s1 s2 = Lt -> String.compare s2 s3 = Lt ->
  String.compare s1 s3 = Lt.
Proof.
  revert s2 s3; induction s1 as [|c1 s1 IH]; intros [|c2 s2] [|c3 s3];
    simpl; try congruence.
  unfold Ascii.compare.
  destruct (N.compare_spec (N_of_ascii c1) (N_of_ascii c2)) as [E12|L12|G12];
    destruct (N.compare_spec (N_of_ascii c2) (N_of_ascii c3)) as [E23|L23|G23];
    try congruence; intros H12 H23.
  - rewrite E12, E23, N.compare_refl. eauto.
  - rewrite E12. apply N.compare_lt_iff in L23. rewrite L23. reflexivity.
  - rewrite <- E23. apply N.compare_lt_iff in L12. rewrite L12. reflexivity.
  - assert (L : (N_of_ascii c1 < N_of_ascii c3)%N) by (eapply N.lt_trans; eauto).
    apply N.compare_lt_iff in L. rewrite L. reflexivity.
Qed.

Lemma ticker_date_le_trans (a b c : PricePoint) :
  ticker_date_le a b -> ticker_date_le b c -> ticker_date_le a c.
Proof.
  unfold ticker_date_le, ticker_date_leb.
  destruct (String.compare (Ticker a) (Ticker b)) eqn:Eab; try discriminate;
    destruct (String.compare (Ticker b) (Ticker c)) eqn:Ebc; try discriminate.
  - apply String.compare_eq_iff in Eab, Ebc. rewrite Eab, Ebc.
    rewrite string_compare_refl. intros H1 H2.
    apply Z.leb_le in H1, H2. apply Z.leb_le. lia.
  - apply String.compare_eq_iff in Eab. rewrite Eab, Ebc. auto.
  - apply String.compare_eq_iff in Ebc. rewrite <- Ebc, Eab. auto.
  - rewrite (string_compare_lt_trans _ _ _ Eab Ebc). auto.
Qed.

Lemma ticker_date_le_total (a b : PricePoint) :
  ticker_date_leb a b = false -> ticker_date_le b a.
Proof.
  unfold ticker_date_le, ticker_date_leb. intros H.
  rewrite (String.compare_antisym (Ticker b) (Ticker a)).
  destruct (String.compare (Ticker a) (Ticker b)); simpl; try congruence.
  apply Z.leb_gt in H. apply Z.leb_le. lia.
Qed.

Lemma insert_by_sorted (x : PricePoint) (l : list PricePoint) :
  StronglySorted ticker_date_le l ->
  StronglySorted ticker_date_le (insert_by ticker_date_leb x l).
Proof.
  induction 1 as [|y l Hs IH Hy]; simpl.
  - repeat constructor.
  - destruct (ticker_date_leb x y) eqn:E.
    + constructor; [constructor; assumption|].
      constructor; [exact E|].
      eapply Forall_impl; [|exact Hy].
      intros z Hz. eapply ticker_date_le_trans; eauto.
    + constructor; [exact IH|].
      apply Forall_forall. intros z Hz.
      apply (Permutation_in _ (insert_by_perm _ x l)) in Hz.
      destruct Hz as [<-|Hz].
      * apply ticker_date_le_total; exact E.
      * revert z Hz. apply Forall_forall. exact Hy.
Qed.

Lemma sort_values_sorted (df : list PricePoint) :
  StronglySorted ticker_date_le (sort_values df).
Proof.
  induction df as [|p df IH]; simpl; [constructor|].
  apply insert_by_sorted. exact IH.
Qed.

Lemma filter_sorted {A} (R : A -> A -> Prop) (f : A -> bool) (l : list A) :
  StronglySorted R l -> StronglySorted R (filter f l).
Proof.
  induction 1 as [|a l Hs IH Ha]; simpl; [constructor|].
  destruct (f a); [|exact IH].
  constructor; [exact IH|].
  apply Forall_forall. intros x Hx. apply filter_In in Hx.
  destruct Hx as [Hx _]. revert x Hx. apply Forall_forall. exact Ha.
Qed.

Lemma sorted_last {A} (R : A -> A -> Prop) (l : list A) (a : A) :
  StronglySorted R (l ++ [a]) -> Forall (fun x => R x a) l.
Proof.
  induction l as [|x l IH]; simpl; intros H; [constructor|].
  apply StronglySorted_inv in H. destruct H as [Hs Hx].
  constructor; [|apply IH; exact Hs].
  rewrite Forall_forall in Hx. apply Hx, in_or_app. right; left; reflexivity.
Qed.

(** The rows of a ticker in the sorted table are in ascending date. *)
Lemma rows_of_sorted_by_date (t : string) (df : list PricePoint) :
  StronglySorted (fun a b => (Date a <= Date b)%Z)
                 (rows_of t (sort_values df)).
Proof.
  assert (H : StronglySorted ticker_date_le (rows_of t (sort_values df)))
    by apply filter_sorted, sort_values_sorted.
  assert (T : Forall (fun p => Ticker p = t) (rows_of t (sort_values df))).
  { apply Forall_forall. intros p Hp. apply rows_of_In in Hp. tauto. }
  induction H as [|a l Hs IH Ha]; [constructor|].
  inversion T as [|? ? Ta Tl]; subst.
  constructor; [apply IH; exact Tl|].
  rewrite Forall_forall in *. intros b Hb.
  specialize (Ha b Hb). specialize (Tl b Hb).
  unfold ticker_date_le, ticker_date_leb in Ha.
  rewrite Tl, string_compare_refl in Ha. apply Z.leb_le; exact Ha.
Qed.

(** The last close of a group is the close of a row of the ticker with
    the latest date. *)
Lemma ultimo_most_recent (t : string) (df : list PricePoint) (u : Q) :
  ultimo (map Close (rows_of t (sort_values df))) = Ok u ->
  exists p,
    In p df /\ Ticker p = t /\ u = Close p /\
    forall q, In q df -> Ticker q = t -> (Date q <= Date p)%Z.
Proof.
  intros Hu.
  assert (S := rows_of_sorted_by_date t df).
  destruct (rows_of t (sort_values df)) as [|p0 g] eqn:Eg; [discriminate|].
  assert (Hne : p0 :: g <> []) by discriminate.
  destruct (exists_last Hne) as (l & p & El).
  rewrite El in S, Hu.
  unfold ultimo in Hu. rewrite map_app, rev_app_distr in Hu. simpl in Hu.
  injection Hu as <-.
  assert (Hin : forall q, In q df /\ Ticker q = t <-> In q (l ++ [p])).
  { intros q. rewrite <- El, <- Eg, rows_of_In, sort_values_In. reflexivity. }
  exists p.
  destruct (proj2 (Hin p)) as [Hp Ht];
    [apply in_or_app; right; left; reflexivity|].
  repeat split; auto.
  intros q Hq Hqt.
  destruct (in_app_or _ _ _ (proj1 (Hin q) (conj Hq Hqt))) as [Hl|[<-|[]]].
  - apply sorted_last in S. rewrite Forall_forall in S. apply S, Hl.
  - lia.
Qed.

(** Every row of the output is the row computed at some position of the
    group of its ticker. *)
Lemma engine_row_inv (sqrtQ : Q -> Q) (df : list PricePoint)
      (out : list IndicatorRow) (r : IndicatorRow) :
  calcular_indicadores_tecnicos sqrtQ df = Ok out ->
  In r out ->
  let group := rows_of (ind_Ticker r) (sort_values df) in
  exists mx mn u nivel i p,
    fib_of (map Close group) mx mn u nivel /\
    nth_error group i = Some p /\
    r = indicador_fila sqrtQ group (fib_levels mx mn) nivel
                       (estado_fib_of nivel) i p.
Proof.
  intros Hout Hr group.
  assert (Hin : In r (out_rows_of ind_Ticker (ind_Ticker r) out)).
  { unfold out_rows_of. apply filter_In. split; [exact Hr|].
    apply String.eqb_refl. }
  rewrite (engine_rows_all _ _ _ _ Hout) in Hin.
  unfold filas_de in Hin. fold group in Hin.
  destruct group as [|p0 g] eqn:Eg; [contradiction|].
  destruct (fib_of_exists (map Close (p0 :: g)))
    as (mx & mn & u & nivel & Hf); [discriminate|].
  rewrite (indicadores_grupo_ok _ _ _ _ _ _ Hf) in Hin.
  apply In_nth_error in Hin. destruct Hin as (i & Hi).
  unfold imap in Hi. rewrite nth_error_imap_from in Hi.
  destruct (nth_error (p0 :: g) i) as [p|] eqn:Hp; [|discriminate].
  injection Hi as Hi.
  exists mx, mn, u, nivel, i, p. auto.
Qed.

Lemma engine_row_ticker (sqrtQ : Q -> Q) (df : list PricePoint)
      (out : list IndicatorRow) (r : IndicatorRow) :
  calcular_indicadores_tecnicos sqrtQ df = Ok out ->
  In r out -> In (ind_Ticker r) (map Ticker df).
Proof.
  intros Hout Hr.
  destruct (engine_row_inv _ _ _ _ Hout Hr)
    as (mx & mn & u & nivel & i & p & _ & Hp & _).
  apply nth_error_In, rows_of_In in Hp. destruct Hp as [Hp Ht].
  apply (proj1 (sort_values_In _ _)) in Hp. rewrite <- Ht. apply in_map, Hp.
Qed.

(* ------------------------------------------------------------------ *)
(** ** FibonacciLevels *)

Lemma Qmax_cases (x y : Q) : Qmax x y = x \/ Qmax x y = y.
Proof.
  unfold Qmax, GenericMinMax.gmax. destruct (x ?= y); auto.
Qed.

Lemma Qmin_cases (x y : Q) : Qmin x y = x \/ Qmin x y = y.
Proof.
  unfold Qmin, GenericMinMax.gmin. destruct (x ?= y); auto.
Qed.

Lemma fold_left_Qmax (l : list Q) (a : Q) :
  let m := fold_left Qmax l a in
  In m (a :: l) /\ forall x, In x (a :: l) -> x <= m.
Proof.
  revert a; induction l as [|b l IH]; intros a; simpl.
  - split; [auto|]. intros x [<-|[]]. apply Qle_refl.
  - destruct (IH (Qmax a b)) as [Hin Hle]. split.
    + destruct Hin as [E|Hin]; [|auto].
      rewrite <- E.
      destruct (Qmax_cases a b) as [E'|E']; [left|right; left];
        symmetry; exact E'.
    + intros x [<-|[<-|Hx]].
      * eapply Qle_trans; [apply Q.le_max_l|]. apply Hle. left; reflexivity.
      * eapply Qle_trans; [apply Q.le_max_r|]. apply Hle. left; reflexivity.
      * apply Hle. right; exact Hx.
Qed.

Lemma fold_left_Qmin (l : list Q) (a : Q) :
  let m := fold_left Qmin l a in
  In m (a :: l) /\ forall x, In x (a :: l) -> m <= x.
Proof.
  revert a; induction l as [|b l IH]; intros a; simpl.
  - split; [auto|]. intros x [<-|[]]. apply Qle_refl.
  - destruct (IH (Qmin a b)) as [Hin Hle]. split.
    + destruct Hin as [E|Hin]; [|auto].
      rewrite <- E.
      destruct (Qmin_cases a b) as [E'|E']; [left|right; left];
        symmetry; exact E'.
    + intros x [<-|[<-|Hx]].
      * eapply Qle_trans; [|apply Q.le_min_l]. apply Hle. left; reflexivity.
      * eapply Qle_trans; [|apply Q.le_min_r]. apply Hle. left; reflexivity.
      * apply Hle. right; exact Hx.
Qed.

Lemma series_max_spec (xs : list Q) (m : Q) :
  series_max xs = Some m -> In m xs /\ forall x, In x xs -> x <= m.
Proof.
  destruct xs as [|a l]; simpl; [discriminate|].
  intros H; injection H as <-. apply fold_left_Qmax.
Qed.

Lemma series_min_spec (xs : list Q) (m : Q) :
  series_min xs = Some m -> In m xs /\ forall x, In x xs -> m <= x.
Proof.
  destruct xs as [|a l]; simpl; [discriminate|].
  intros H; injection H as <-. apply fold_left_Qmin.
Qed.

Lemma group_max (t : string) (df : list PricePoint) (m : Q) :
  series_max (map Close (rows_of t (sort_values df))) = Some m ->
  max_close_of df t m.
Proof.
  intros H. apply series_max_spec in H. destruct H as [Hin Hle]. split.
  - apply in_map_iff in Hin. destruct Hin as (q & E & Hq).
    apply rows_of_In in Hq. destruct Hq as [Hq Ht].
    exists q. rewrite sort_values_In in Hq. auto.
  - intros q Hq Ht. apply Hle, in_map, rows_of_In.
    rewrite sort_values_In. auto.
Qed.

Lemma group_min (t : string) (df : list PricePoint) (m : Q) :
  series_min (map Close (rows_of t (sort_values df))) = Some m ->
  min_close_of df t m.
Proof.
  intros H. apply series_min_spec in H. destruct H as [Hin Hle]. split.
  - apply in_map_iff in Hin. destruct Hin as (q & E & Hq).
    apply rows_of_In in Hq. destruct Hq as [Hq Ht].
    exists q. rewrite sort_values_In in Hq. auto.
  - intros q Hq Ht. apply Hle, in_map, rows_of_In.
    rewrite sort_values_In. auto.
Qed.

Lemma Qltb_true (x y : Q) : Qltb x y = true -> x < y.
Proof.
  unfold Qltb. destruct (x ?= y) eqn:E; try discriminate.
  intros _. exact E.
Qed.




Lemma first_min_key (items : list (string * Q)) (k : string) :
  first_min items k -> In k (map fst items).
Proof.
  intros (before & d & after & -> & _).
  rewrite map_app. apply in_or_app. right; left; reflexivity.
Qed.

Lemma indicador_fila_fib (sqrtQ : Q -> Q) (group : list PricePoint)
      (mx mn : Q) (nivel estado : string) (i : nat) (p : PricePoint) :
  let r := indicador_fila sqrtQ group (fib_levels mx mn) nivel estado i p in
  Nivel_Fib_Cercano r = nivel /\ Estado_Fibonacci r = estado /\
  Fib_0_0 r = mx /\
  Fib_23_6 r = mx - (mx - mn) * 0.236 /\
  Fib_38_2 r = mx - (mx - mn) * 0.382 /\
  Fib_50_0 r = mx - (mx - mn) * 0.50 /\
  Fib_61_8 r = mx - (mx - mn) * 0.618 /\
  Fib_100 r = mn.
Proof. repeat split; reflexivity. Qed.





(** C9.  On every output row the six levels are ordered from the 0.0%
    level, which is the largest close of the ticker, down to the 100%
    level, which is its smallest close. *)
Theorem fibonacci_levels_ordered (sqrtQ : Q -> Q) (df : list PricePoint)
        (out : list IndicatorRow) (r : IndicatorRow) :
  calcular_indicadores_tecnicos sqrtQ df = Ok out ->
  In r out ->
  Fib_23_6 r <= Fib_0_0 r /\
  Fib_38_2 r <= Fib_23_6 r /\
  Fib_50_0 r <= Fib_38_2 r /\
  Fib_61_8 r <= Fib_50_0 r /\
  Fib_100 r <= Fib_61_8 r /\
  max_close_of df (ind_Ticker r) (Fib_0_0 r) /\
  min_close_of df (ind_Ticker r) (Fib_100 r).
Proof.
  intros Hout Hr.
  destruct (engine_row_inv _ _ _ _ Hout Hr)
    as (mx & mn & u & nivel & i & p & (Hmx & Hmn & _) & _ & E).
  set (t := ind_Ticker r) in *.
  destruct (indicador_fila_fib sqrtQ (rows_of t (sort_values df)) mx mn
                               nivel (estado_fib_of nivel) i p)
    as (_ & _ & F0 & F23 & F38 & F50 & F61 & F100).
  rewrite <- E in F0, F23, F38, F50, F61, F100.
  rewrite F0, F23, F38, F50, F61, F100.
  assert (Hle : mn <= mx).
  { destruct (series_max_spec _ _ Hmx) as [_ Hb].
    destruct (series_min_spec _ _ Hmn) as [Hin _]. apply Hb, Hin. }
  repeat split; try lra.
  - apply group_max; exact Hmx.
  - apply group_max; exact Hmx.
  - apply group_min; exact Hmn.
  - apply group_min; exact Hmn.
Qed.

Lemma fibonacci_levels_ordered_witness :
  exists out r,
    calcular_indicadores_tecnicos sqrt6 df_example = Ok out /\
    In r out /\
    Fib_100 r <= Fib_61_8 r /\ Fib_23_6 r <= Fib_0_0 r.
Proof.
  destruct (calcular_indicadores_tecnicos sqrt6 df_example) as [out|e] eqn:H1;
    [|vm_compute in H1; discriminate].
  destruct out as [|r out]; [vm_compute in H1; discriminate|].
  assert (Hr : In r (r :: out)) by (left; reflexivity).
  exists (r :: out), r. split; [reflexivity|]. split; [exact Hr|].
  destruct (fibonacci_levels_ordered sqrt6 df_example (r :: out) r H1 Hr)
    as (A & _ & _ & _ & B & _).
  split; [exact B|exact A].
Defined.

(* ------------------------------------------------------------------ *)
(** ** Exponential moving average *)

Lemma Qnat_nonneg (n : nat) : 0 <= Qnat n.
Proof.
  unfold Qnat. change 0 with (inject_Z 0). rewrite <- Zle_Qle. lia.
Qed.

Lemma alpha_of_span_eq (span : nat) :
  alpha_of_span span == 2 / (Qnat span + 1).
Proof.
  unfold alpha_of_span. fold (Qnat span).
  assert (H := Qnat_nonneg span).
  field; repeat split; intro E; lra.
Qed.

Lemma ewm_step_finite (alpha w c : Q) :
  exists w', ewm_step alpha (Some w, 1) (Some c) = (Some w', 1) /\
             w' == alpha * c + (1 - alpha) * w.
Proof.
  unfold ewm_step.
  destruct (Qeq_bool w c) eqn:E.
  - exists w. split; [reflexivity|].
    apply Qeq_bool_iff in E. rewrite E. ring.
  - eexists. split; [reflexivity|].
    field. intro D. ring_simplify in D. discriminate D.
Qed.

Lemma ewm_loop_law (a a' : Q) (xs : list Q) :
  a == a' ->
  forall w,
  exists ys,
    ewm_loop a (Some w, 1) (series xs) = series ys /\
    length ys = length xs /\
    forall i, (i < length xs)%nat ->
              nth i ys 0 == a' * nth i xs 0 + (1 - a') * nth i (w :: ys) 0.
Proof.
  intros Ha. induction xs as [|x xs IH]; intros w.
  - exists []. simpl. repeat split; auto. intros i Hi. lia.
  - destruct (ewm_step_finite a w x) as (w1 & Hs & Hw).
    destruct (IH w1) as (ys & Hl & Hlen & Hrec).
    exists (w1 :: ys). cbn [series map ewm_loop]. rewrite Hs. cbn [fst].
    fold (series xs). rewrite Hl. split; [reflexivity|].
    split; [simpl; congruence|].
    intros [|i] Hi.
    + simpl. rewrite Hw, Ha. reflexivity.
    + simpl in Hi. apply (Hrec i). lia.
Qed.

(** On a series without missing cells the kernel of pandas computes the
    recursion of the moving average. *)
Lemma ewm_mean_law (span : nat) (a' : Q) (xs : list Q) :
  alpha_of_span span == a' ->
  exists ys, ewm_mean span (series xs) = series ys /\ ema_law a' xs ys.
Proof.
  intros Ha. destruct xs as [|x0 xs].
  - exists []. repeat split; auto. simpl. intros i Hi. lia.
  - destruct (ewm_loop_law _ _ xs Ha x0) as (ys & Hl & Hlen & Hrec).
    exists (x0 :: ys). cbn [series map ewm_mean]. fold (series xs).
    rewrite Hl. split; [reflexivity|].
    split; [simpl; congruence|]. split; [reflexivity|].
    intros i Hi. simpl in Hi. apply (Hrec i). lia.
Qed.

Lemma zip_with_series (f : Q -> Q -> Q) (xs ys : list Q) :
  zip_with (lift2 f) (series xs) (series ys) = series (zip_with f xs ys).
Proof.
  revert ys; induction xs as [|x xs IH]; intros [|y ys]; simpl; auto.
  f_equal. apply IH.
Qed.

Lemma map_imap_nth {A B C} (h : B -> C) (F : nat -> A -> B) (col : list C)
      (d : C) (l : list A) :
  (forall i a, h (F i a) = nth i col d) ->
  length col = length l ->
  map h (imap F l) = col.
Proof.
  intros H Hlen. unfold imap.
  assert (K : forall l' k, length (skipn k col) = length l' ->
                           map h (imap_from k F l') = skipn k col).
  { induction l' as [|a l' IH]; intros k Hk; simpl.
    - destruct (skipn k col); [reflexivity|discriminate].
    - rewrite H.
      destruct (skipn k col) as [|c rest] eqn:E; [discriminate|].
      assert (E1 : nth k col d = c).
      { rewrite <- (firstn_skipn k col) at 1.
        assert (Hk' : (k <= length col)%nat).
        { destruct (Nat.le_gt_cases k (length col)); auto.
          rewrite skipn_all2 in E by lia. discriminate. }
        rewrite app_nth2 by (rewrite length_firstn; lia).
        rewrite length_firstn, Nat.min_l by lia.
        rewrite Nat.sub_diag, E. reflexivity. }
      assert (E2 : skipn (S k) col = rest).
      { replace (S k) with (1 + k)%nat by lia.
        rewrite <- skipn_skipn, E. reflexivity. }
      rewrite E1, (IH (S k)); rewrite E2; [reflexivity|].
      simpl in Hk. lia. }
  apply (K l 0%nat). simpl. exact Hlen.
Qed.

(** The cells of the row at position [i] of a group are the cells at
    position [i] of the columns computed from the group. *)
Lemma indicador_fila_cols (sqrtQ : Q -> Q) (group : list PricePoint)
      (levels : Q * Q * Q * Q * Q * Q) (nivel estado : string)
      (i : nat) (p : PricePoint) :
  let close := map Close group in
  let high := map High group in
  let low := map Low group in
  let middle := rolling_mean 20 (series close) in
  let two_std := map (lift1 (Qmult 2)) (rolling_std sqrtQ 20 (series close)) in
  let r := indicador_fila sqrtQ group levels nivel estado i p in
  SMA_20 r = nth i (rolling_mean 20 (series close)) None /\
  SMA_50 r = nth i (rolling_mean 50 (series close)) None /\
  EMA_20 r = nth i (ewm_mean 20 (series close)) None /\
  RSI_14 r = nth i (calcular_rsi close 14) NaN /\
  MACD r = nth i (fst (fst (calcular_macd close 12 26 9))) None /\
  MACD_Signal r = nth i (snd (fst (calcular_macd close 12 26 9))) None /\
  MACD_Hist r = nth i (snd (calcular_macd close 12 26 9)) None /\
  ATR_14 r = nth i (calcular_atr high low close 14) None /\
  BB_Middle r = nth i middle None /\
  BB_Upper r = nth i (zip_with (lift2 Qplus) middle two_std) None /\
  BB_Lower r = nth i (zip_with (lift2 Qminus) middle two_std) None /\
  Volatility_20 r = nth i (rolling_std sqrtQ 20 (series close)) None.
Proof.
  destruct levels as [[[[[f0 f23] f38] f50] f61] f100].
  repeat split; reflexivity.
Qed.

Lemma ema_law_length (a : Q) (xs ys : list Q) :
  ema_law a xs ys -> length ys = length xs.
Proof. intros H; apply H. Qed.

(** C6.  On a close series without missing cells, [ewm(span, adjust=False)]
    starts at the first value and follows
    [ema[i] = alpha * x[i] + (1 - alpha) * ema[i-1]] with
    [alpha = 2 / (span + 1)]; the column EMA_20 is this average with span
    20, the MACD line is the difference of the averages with spans 12 and
    26 of the close, and the signal line is the average with span 9 of
    the MACD line. *)
Theorem ema_recursion :
  (forall (span : nat) (xs : list Q),
      (1 <= span)%nat ->
      exists ys,
        ewm_mean span (series xs) = series ys /\
        ema_law (2 / (Qnat span + 1)) xs ys) /\
  (forall (sqrtQ : Q -> Q) (df : list PricePoint) (out : list IndicatorRow)
          (t : string),
      calcular_indicadores_tecnicos sqrtQ df = Ok out ->
      In t (map Ticker df) ->
      let closes := map Close (rows_of t (sort_values df)) in
      let rows := out_rows_of ind_Ticker t out in
      exists e20 eS eL sig,
        map EMA_20 rows = series e20 /\ ema_law (2 / 21) closes e20 /\
        ema_law (2 / 13) closes eS /\ ema_law (2 / 27) closes eL /\
        map MACD rows = series (zip_with Qminus eS eL) /\
        map MACD_Signal rows = series sig /\
        ema_law (2 / 10) (zip_with Qminus eS eL) sig).
Proof.
  split.
  - intros span xs _. apply ewm_mean_law, alpha_of_span_eq.
  - intros sqrtQ df out t Hout Ht closes rows.
    destruct (engine_rows _ _ _ t Hout Ht)
      as (mx & mn & u & nivel & _ & Hrows).
    fold rows in Hrows. fold closes.
    set (group := rows_of t (sort_values df)) in *.
    destruct (ewm_mean_law 20 (2 / 21) closes) as (e20 & H20 & L20);
      [vm_compute; reflexivity|].
    destruct (ewm_mean_law 12 (2 / 13) closes) as (eS & HS & LS);
      [vm_compute; reflexivity|].
    destruct (ewm_mean_law 26 (2 / 27) closes) as (eL & HL & LL);
      [vm_compute; reflexivity|].
    destruct (ewm_mean_law 9 (2 / 10) (zip_with Qminus eS eL))
      as (sig & Hsig & Lsig); [vm_compute; reflexivity|].
    assert (Hmacd : calcular_macd closes 12 26 9
                    = (series (zip_with Qminus eS eL), series sig,
                       zip_with (lift2 Qminus)
                                (series (zip_with Qminus eS eL))
                                (series sig))).
    { unfold calcular_macd. rewrite HS, HL, zip_with_series, Hsig.
      reflexivity. }
    assert (Hg : length closes = length group) by apply length_map.
    assert (Hz : length (zip_with Qminus eS eL) = length group).
    { rewrite zip_with_length;
        rewrite (ema_law_length _ _ _ LS); [exact Hg|].
      rewrite (ema_law_length _ _ _ LL). reflexivity. }
    exists e20, eS, eL, sig.
    split; [|split; [exact L20|split; [exact LS|split; [exact LL|]]]].
    + rewrite Hrows, <- H20. apply (map_imap_nth _ _ _ None).
      * intros i a. apply indicador_fila_cols.
      * rewrite H20, series_length, (ema_law_length _ _ _ L20). exact Hg.
    + split; [|split; [|exact Lsig]].
      * rewrite Hrows.
        apply (map_imap_nth _ _ _ None).
        -- intros i a.
           destruct (indicador_fila_cols sqrtQ group (fib_levels mx mn)
                       nivel (estado_fib_of nivel) i a)
             as (_ & _ & _ & _ & E & _).
           rewrite E. fold closes. rewrite Hmacd. reflexivity.
        -- rewrite series_length. exact Hz.
      * rewrite Hrows.
        apply (map_imap_nth _ _ _ None).
        -- intros i a.
           destruct (indicador_fila_cols sqrtQ group (fib_levels mx mn)
                       nivel (estado_fib_of nivel) i a)
             as (_ & _ & _ & _ & _ & E & _).
           rewrite E. fold closes. rewrite Hmacd. reflexivity.
        -- rewrite series_length, (ema_law_length _ _ _ Lsig). exact Hz.
Qed.

(* ------------------------------------------------------------------ *)
(** ** Rolling windows *)

Lemma nth_map_seq {A} (F : nat -> A) (n i : nat) (d : A) :
  (i < n)%nat -> nth i (map F (seq 0 n)) d = F i.
Proof.
  intros Hi.
  rewrite (nth_indep _ d (F 0%nat)) by (rewrite length_map, length_seq; exact Hi).
  rewrite map_nth, seq_nth by exact Hi. reflexivity.
Qed.

Lemma rolling_length (w : nat) (f : list Q -> cell) (xs : list cell) :
  length (rolling w f xs) = length xs.
Proof. unfold rolling. rewrite length_map, length_seq. reflexivity. Qed.

Lemma nth_rolling (w : nat) (f : list Q -> cell) (xs : list cell) (i : nat) :
  (i < length xs)%nat ->
  nth i (rolling w f xs) None
  = if (w <=? i + 1)%nat
    then match observed (window w xs i) with
         | Some qs => f qs
         | None => None
         end
    else None.
Proof. intros Hi. unfold rolling. apply nth_map_seq, Hi. Qed.

Lemma observed_series (qs : list Q) : observed (series qs) = Some qs.
Proof.
  induction qs as [|q qs IH]; simpl; auto.
  fold (series qs). rewrite IH. reflexivity.
Qed.

Lemma observed_inv (cs : list cell) (qs : list Q) :
  observed cs = Some qs -> cs = series qs.
Proof.
  revert qs; induction cs as [|[q|] cs IH]; intros qs H; simpl in H.
  - injection H as <-. reflexivity.
  - destruct (observed cs) as [qs'|]; [|discriminate].
    injection H as <-. simpl. f_equal. apply IH. reflexivity.
  - discriminate.
Qed.

Lemma observed_none (cs : list cell) :
  In None cs -> observed cs = None.
Proof.
  induction cs as [|[q|] cs IH]; simpl; intros H.
  - contradiction.
  - destruct H as [H|H]; [discriminate|]. rewrite IH by exact H. reflexivity.
  - reflexivity.
Qed.

Lemma window_length (w i : nat) (xs : list cell) :
  (w <= i + 1)%nat -> (i < length xs)%nat -> length (window w xs i) = w.
Proof.
  intros Hw Hi. unfold window. rewrite length_firstn, length_skipn. lia.
Qed.

Lemma nth_window (w i j : nat) (xs : list cell) :
  (j < w)%nat ->
  nth j (window w xs i) None = nth (i + 1 - w + j) xs None.
Proof.
  intros Hj. unfold window.
  rewrite nth_firstn. destruct (Nat.ltb_spec j w); [|lia].
  apply nth_skipn.
Qed.

(** A full window whose cells are all known has the mean of its cells. *)
Lemma nth_rolling_mean_defined (w i : nat) (xs : list cell) (g : nat -> Q) :
  (i < length xs)%nat -> (w <= i + 1)%nat ->
  (forall j, (i + 1 - w <= j <= i)%nat -> nth j xs None = Some (g j)) ->
  nth i (rolling_mean w xs) None
  = Some (mean (map g (seq (i + 1 - w) w))).
Proof.
  intros Hi Hw Hg. unfold rolling_mean. rewrite nth_rolling by exact Hi.
  destruct (Nat.leb_spec w (i + 1)); [|lia].
  assert (E : window w xs i = series (map g (seq (i + 1 - w) w))).
  { apply (nth_ext _ _ None None).
    - rewrite window_length, series_length, length_map, length_seq by lia.
      reflexivity.
    - intros j Hj. rewrite window_length in Hj by lia.
      rewrite nth_window by exact Hj.
      rewrite nth_series by (rewrite length_map, length_seq; exact Hj).
      rewrite (nth_indep _ 0 (g 0%nat))
        by (rewrite length_map, length_seq; exact Hj).
      rewrite map_nth, seq_nth by exact Hj.
      apply Hg. lia. }
  rewrite E, observed_series. reflexivity.
Qed.

Lemma nth_rolling_short (w i : nat) (f : list Q -> cell) (xs : list cell) :
  (i < length xs)%nat -> (i + 1 < w)%nat ->
  nth i (rolling w f xs) None = None.
Proof.
  intros Hi Hw. rewrite nth_rolling by exact Hi.
  destruct (Nat.leb_spec w (i + 1)); [lia|reflexivity].
Qed.

Lemma nth_rolling_missing (w i j : nat) (f : list Q -> cell)
      (xs : list cell) :
  (i < length xs)%nat -> (i + 1 - w <= j <= i)%nat ->
  nth j xs None = None ->
  nth i (rolling w f xs) None = None.
Proof.
  intros Hi Hj E. rewrite nth_rolling by exact Hi.
  destruct (Nat.leb_spec w (i + 1)); [|reflexivity].
  rewrite observed_none; [reflexivity|].
  rewrite <- E.
  replace j with (i + 1 - w + (j - (i + 1 - w)))%nat at 1 by lia.
  rewrite <- (nth_window w i) by lia.
  apply nth_In. rewrite window_length by lia. lia.
Qed.

Lemma Qsum_nonneg (l : list Q) :
  (forall x, In x l -> 0 <= x) -> 0 <= Qsum l.
Proof.
  induction l as [|a l IH]; intros H; simpl.
  - apply Qle_refl.
  - assert (Ha : 0 <= a) by (apply H; left; reflexivity).
    assert (Hl : 0 <= Qsum l)
      by (apply IH; intros; apply H; right; assumption).
    lra.
Qed.

Lemma Qlen_nonneg (l : list Q) : 0 <= Qlen l.
Proof. apply (Qnat_nonneg (length l)). Qed.

Lemma mean_nonneg (l : list Q) :
  (forall x, In x l -> 0 <= x) -> 0 <= mean l.
Proof.
  intros H. unfold mean, Qdiv.
  apply Qmult_le_0_compat; [apply Qsum_nonneg, H|].
  apply Qinv_le_0_compat, Qlen_nonneg.
Qed.

Lemma in_firstn {A} (n : nat) (l : list A) (x : A) :
  In x (firstn n l) -> In x l.
Proof.
  intros H. rewrite <- (firstn_skipn n l). apply in_or_app. left; exact H.
Qed.

Lemma in_skipn {A} (n : nat) (l : list A) (x : A) :
  In x (skipn n l) -> In x l.
Proof.
  intros H. rewrite <- (firstn_skipn n l). apply in_or_app. right; exact H.
Qed.

(** The mean over a window of cells that are never negative is not
    negative. *)
Lemma rolling_mean_nonneg (w i : nat) (xs : list cell) (a : Q) :
  (forall x, In (Some x) xs -> 0 <= x) ->
  (i < length xs)%nat ->
  nth i (rolling_mean w xs) None = Some a -> 0 <= a.
Proof.
  intros Hpos Hi. unfold rolling_mean. rewrite nth_rolling by exact Hi.
  destruct (Nat.leb_spec w (i + 1)) as [_|_]; [|discriminate].
  destruct (observed (window w xs i)) as [qs|] eqn:E; [|discriminate].
  intros Ha; injection Ha as <-.
  apply mean_nonneg. intros x Hx. apply Hpos.
  apply observed_inv in E.
  assert (Hin : In (Some x) (window w xs i))
    by (rewrite E; apply in_map; exact Hx).
  unfold window in Hin.
  apply (in_skipn (i + 1 - w)), (in_firstn w), Hin.
Qed.

(* ------------------------------------------------------------------ *)
(** ** RSI *)

Lemma diff_length (xs : list cell) : length (diff xs) = length xs.
Proof.
  unfold diff. apply zip_with_length. rewrite shift_length. reflexivity.
Qed.

Lemma nth_diff (xs : list Q) (i : nat) :
  (i < length xs)%nat ->
  nth i (diff (series xs)) None
  = if (i <? 1)%nat then None
    else Some (nth i xs 0 - nth (i - 1) xs 0).
Proof.
  intros Hi. unfold diff.
  rewrite (nth_zip_with _ _ _ _ None None)
    by (rewrite ?shift_length, ?series_length; auto).
  rewrite nth_shift by (rewrite series_length; exact Hi).
  rewrite nth_series by exact Hi.
  destruct (Nat.ltb_spec i 1); [reflexivity|].
  rewrite nth_series by lia. reflexivity.
Qed.

Lemma rsi_gain_length (close : list Q) :
  length (rsi_gain close) = length close.
Proof.
  unfold rsi_gain, clip_lower.
  rewrite length_map, diff_length, series_length. reflexivity.
Qed.

Lemma rsi_loss_length (close : list Q) :
  length (rsi_loss close) = length close.
Proof.
  unfold rsi_loss, clip_upper.
  rewrite !length_map, diff_length, series_length. reflexivity.
Qed.

Lemma nth_map_cell (f : cell -> cell) (xs : list cell) (i : nat) :
  f None = None -> nth i (map f xs) None = f (nth i xs None).
Proof.
  intros H. rewrite <- H at 1. apply map_nth.
Qed.

Lemma nth_rsi_gain (close : list Q) (i : nat) :
  (i < length close)%nat ->
  nth i (rsi_gain close) None
  = if (i <? 1)%nat then None else Some (gain_at close i).
Proof.
  intros Hi. unfold rsi_gain, clip_lower.
  rewrite nth_map_cell by reflexivity. rewrite nth_diff by exact Hi.
  destruct (i <? 1)%nat; reflexivity.
Qed.

Lemma nth_rsi_loss (close : list Q) (i : nat) :
  (i < length close)%nat ->
  nth i (rsi_loss close) None
  = if (i <? 1)%nat then None else Some (loss_at close i).
Proof.
  intros Hi. unfold rsi_loss, clip_upper.
  rewrite !nth_map_cell by reflexivity. rewrite nth_diff by exact Hi.
  destruct (i <? 1)%nat; reflexivity.
Qed.

Lemma rsi_gain_nonneg (close : list Q) (x : Q) :
  In (Some x) (rsi_gain close) -> 0 <= x.
Proof.
  unfold rsi_gain, clip_lower. intros H.
  apply in_map_iff in H. destruct H as ([d|] & E & _); [|discriminate].
  injection E as <-. apply Q.le_max_r.
Qed.

Lemma rsi_loss_nonneg (close : list Q) (x : Q) :
  In (Some x) (rsi_loss close) -> 0 <= x.
Proof.
  unfold rsi_loss, clip_upper. intros H.
  apply in_map_iff in H. destruct H as ([d|] & E & H); [|discriminate].
  apply in_map_iff in H. destruct H as ([d'|] & E' & _); [|discriminate].
  injection E' as <-. injection E as <-.
  assert (Qmin d' 0 <= 0) by apply Q.le_min_r. lra.
Qed.

(** The rolling mean of the gains (or of the losses): defined from index
    [w] on, since the first change is missing. *)
Lemma nth_rolling_from_1 (w i : nat) (xs : list cell) (g : nat -> Q) :
  (1 <= w)%nat -> (i < length xs)%nat ->
  (forall j, (j < length xs)%nat ->
             nth j xs None = if (j <? 1)%nat then None else Some (g j)) ->
  nth i (rolling_mean w xs) None
  = if (w <=? i)%nat then Some (mean (map g (seq (i + 1 - w) w))) else None.
Proof.
  intros Hw Hi Hg.
  destruct (Nat.leb_spec w i) as [Hwi|Hwi].
  - apply nth_rolling_mean_defined; try lia.
    intros j Hj. rewrite Hg by lia.
    destruct (Nat.ltb_spec j 1); [lia|reflexivity].
  - apply (nth_rolling_missing w i 0); [exact Hi|lia|].
    rewrite Hg by lia. reflexivity.
Qed.

Lemma nth_calcular_rsi (close : list Q) (w i : nat) :
  (i < length close)%nat ->
  nth i (calcular_rsi close w) NaN
  = rsi_of (cell_div (nth i (rsi_avg_gain close w) None)
                     (nth i (rsi_avg_loss close w) None)).
Proof.
  intros Hi. unfold calcular_rsi.
  fold (rsi_gain close) (rsi_loss close).
  fold (rsi_avg_gain close w) (rsi_avg_loss close w).
  assert (Lg : length (rsi_avg_gain close w) = length close)
    by (unfold rsi_avg_gain, rolling_mean;
        rewrite rolling_length; apply rsi_gain_length).
  assert (Ll : length (rsi_avg_loss close w) = length close)
    by (unfold rsi_avg_loss, rolling_mean;
        rewrite rolling_length; apply rsi_loss_length).
  change NaN with (rsi_of NaN) at 1.
  rewrite (map_nth rsi_of).
  rewrite (nth_zip_with _ _ _ _ None None) by lia.
  reflexivity.
Qed.

Lemma calcular_rsi_length (close : list Q) (w : nat) :
  length (calcular_rsi close w) = length close.
Proof.
  unfold calcular_rsi. rewrite length_map, zip_with_length.
  - unfold rolling_mean. rewrite rolling_length. apply rsi_gain_length.
  - unfold rolling_mean. rewrite !rolling_length.
    fold (rsi_gain close) (rsi_loss close).
    rewrite rsi_gain_length, rsi_loss_length. reflexivity.
Qed.

(** The value of the index from an average gain [a] and an average loss
    [b] that are not negative. *)
Lemma rsi_of_cases (a b : Q) :
  0 <= a -> 0 <= b ->
  let v := rsi_of (cell_div (Some a) (Some b)) in
  (0 < b ->
   exists x, v = Fin x /\ x == 100 - 100 / (1 + a / b) /\
             0 <= x /\ x <= 100) /\
  (b == 0 -> 0 < a -> feq v (Fin 100)) /\
  (b == 0 -> a == 0 -> v = NaN).
Proof.
  intros Ha Hb v. unfold v, rsi_of, cell_div, of_cell.
  repeat split.
  - intros Hpos.
    assert (Eb : (b ?= 0) = Gt) by (apply Qgt_alt; exact Hpos).
    assert (Hq : 0 <= a / b).
    { apply Qle_shift_div_l; [exact Hpos|]. lra. }
    assert (E1 : (1 + a / b ?= 0) = Gt) by (apply Qgt_alt; lra).
    unfold fdiv at 2. rewrite Eb. cbn [fadd].
    unfold fdiv. rewrite E1. cbn [fsub fneg fadd].
    eexists. split; [reflexivity|].
    assert (H0 : 0 <= 100 / (1 + a / b)).
    { apply Qle_shift_div_l; lra. }
    assert (H1 : 100 / (1 + a / b) <= 100).
    { apply Qle_shift_div_r; lra. }
    split; [ring|]. split; lra.
  - intros Hz Hpos.
    assert (Eb : (b ?= 0) = Eq) by (apply Qeq_alt; exact Hz).
    assert (Ea : (a ?= 0) = Gt) by (apply Qgt_alt; exact Hpos).
    unfold fdiv at 2. rewrite Eb, Ea. cbn. ring.
  - intros Hz Hza.
    assert (Eb : (b ?= 0) = Eq) by (apply Qeq_alt; exact Hz).
    assert (Ea : (a ?= 0) = Eq) by (apply Qeq_alt; exact Hza).
    unfold fdiv at 2. rewrite Eb, Ea. reflexivity.
Qed.

(** C7.  With window 14 the average gain and the average loss at index
    [i] are the means of the 14 latest gains and losses, defined from
    index 14 on; the index is [100 - 100 / (1 + avgGain / avgLoss)]; where
    it is defined it is a finite number between 0 and 100; it is 100
    when the average loss is zero and the average gain positive, and NaN
    when both are zero.  The column RSI_14 of a ticker is this series of
    its closes. *)
Theorem rsi_bounded :
  (forall (close : list Q) (i : nat),
      (i < length close)%nat ->
      let g := nth i (rsi_avg_gain close 14) None in
      let l := nth i (rsi_avg_loss close 14) None in
      let v := nth i (calcular_rsi close 14) NaN in
      g = (if (14 <=? i)%nat
           then Some (mean (map (gain_at close) (seq (i + 1 - 14) 14)))
           else None) /\
      l = (if (14 <=? i)%nat
           then Some (mean (map (loss_at close) (seq (i + 1 - 14) 14)))
           else None) /\
      v = rsi_of (cell_div g l) /\
      (v = NaN \/ exists x, v = Fin x /\ 0 <= x /\ x <= 100) /\
      (forall a b, g = Some a -> l = Some b -> 0 < b ->
                   feq v (Fin (100 - 100 / (1 + a / b)))) /\
      (forall a b, g = Some a -> l = Some b -> b == 0 -> 0 < a ->
                   feq v (Fin 100)) /\
      (forall a b, g = Some a -> l = Some b -> b == 0 -> a == 0 ->
                   v = NaN)) /\
  (forall (sqrtQ : Q -> Q) (df : list PricePoint) (out : list IndicatorRow)
          (t : string),
      calcular_indicadores_tecnicos sqrtQ df = Ok out ->
      In t (map Ticker df) ->
      map RSI_14 (out_rows_of ind_Ticker t out)
      = calcular_rsi (map Close (rows_of t (sort_values df))) 14).
Proof.
  split.
  - intros close i Hi g l v.
    assert (Eg : g = if (14 <=? i)%nat
                     then Some (mean (map (gain_at close) (seq (i + 1 - 14) 14)))
                     else None).
    { unfold g, rsi_avg_gain. apply nth_rolling_from_1; [lia| |].
      - rewrite rsi_gain_length. exact Hi.
      - intros j Hj. apply nth_rsi_gain. rewrite <- rsi_gain_length. exact Hj. }
    assert (El : l = if (14 <=? i)%nat
                     then Some (mean (map (loss_at close) (seq (i + 1 - 14) 14)))
                     else None).
    { unfold l, rsi_avg_loss. apply nth_rolling_from_1; [lia| |].
      - rewrite rsi_loss_length. exact Hi.
      - intros j Hj. apply nth_rsi_loss. rewrite <- rsi_loss_length. exact Hj. }
    assert (Ev : v = rsi_of (cell_div g l))
      by (apply nth_calcular_rsi; exact Hi).
    assert (Pg : forall a, g = Some a -> 0 <= a).
    { intros a Ha. unfold g, rsi_avg_gain in Ha.
      apply (rolling_mean_nonneg 14 i (rsi_gain close));
        [apply rsi_gain_nonneg|rewrite rsi_gain_length; exact Hi|exact Ha]. }
    assert (Pl : forall b, l = Some b -> 0 <= b).
    { intros b Hb. unfold l, rsi_avg_loss in Hb.
      apply (rolling_mean_nonneg 14 i (rsi_loss close));
        [apply rsi_loss_nonneg|rewrite rsi_loss_length; exact Hi|exact Hb]. }
    split; [exact Eg|]. split; [exact El|]. split; [exact Ev|].
    clear Eg El. rewrite Ev.
    split; [|split; [|split]].
    + destruct g as [a|]; [|left; reflexivity].
      destruct l as [b|]; [|left; reflexivity].
      destruct (rsi_of_cases a b (Pg a eq_refl) (Pl b eq_refl))
        as (C1 & C2 & C3).
      destruct (Qlt_le_dec 0 b) as [Hb|Hb].
      * right. destruct (C1 Hb) as (x & E & _ & H0 & H1).
        exists x. auto.
      * assert (Hb0 : b == 0) by (specialize (Pl b eq_refl); lra).
        destruct (Qlt_le_dec 0 a) as [Ha|Ha].
        -- right. specialize (C2 Hb0 Ha).
           destruct (rsi_of (cell_div (Some a) (Some b))); try contradiction.
           exists q. split; [reflexivity|]. simpl in C2. lra.
        -- left. apply C3; [exact Hb0|]. specialize (Pg a eq_refl). lra.
    + intros a b Ha Hb Hpos. rewrite Ha, Hb.
      destruct (rsi_of_cases a b (Pg a Ha) (Pl b Hb)) as (C1 & _).
      destruct (C1 Hpos) as (x & E & Ex & _). rewrite E. exact Ex.
    + intros a b Ha Hb Hz Hpos. rewrite Ha, Hb.
      apply (rsi_of_cases a b (Pg a Ha) (Pl b Hb)); assumption.
    + intros a b Ha Hb Hz Hza. rewrite Ha, Hb.
      apply (rsi_of_cases a b (Pg a Ha) (Pl b Hb)); assumption.
  - intros sqrtQ df out t Hout Ht.
    destruct (engine_rows _ _ _ t Hout Ht)
      as (mx & mn & u & nivel & _ & Hrows).
    rewrite Hrows. apply (map_imap_nth _ _ _ NaN).
    + intros i a. apply indicador_fila_cols.
    + rewrite calcular_rsi_length. apply length_map.
Qed.

(* ------------------------------------------------------------------ *)
(** ** True range and ATR *)

Lemma true_range_length (high low close : list Q) :
  length high = length close -> length low = length close ->
  length (true_range high low close) = length close.
Proof.
  intros Hh Hl. unfold true_range.
  repeat (rewrite ?zip_with_length, ?length_map, ?shift_length,
          ?series_length; try lia).
Qed.

Lemma nth_true_range (high low close : list Q) (i : nat) :
  length high = length close -> length low = length close ->
  (i < length close)%nat ->
  nth i (true_range high low close) None
  = Some (true_range_at high low close i).
Proof.
  intros Hh Hl Hi. unfold true_range.
  assert (L1 : length (zip_with (lift2 Qminus) (series high) (series low))
               = length close)
    by (rewrite zip_with_length; rewrite ?series_length; lia).
  assert (L2 : length (zip_with (lift2 Qminus) (series high)
                                (shift 1 (series close)))
               = length close)
    by (rewrite zip_with_length;
        rewrite ?shift_length, ?series_length; lia).
  assert (L3 : length (zip_with (lift2 Qminus) (series low)
                                (shift 1 (series close)))
               = length close)
    by (rewrite zip_with_length;
        rewrite ?shift_length, ?series_length; lia).
  rewrite (nth_zip_with _ _ _ _ None None);
    [|rewrite zip_with_length; rewrite ?length_map; lia
     |rewrite zip_with_length; rewrite ?length_map; lia].
  rewrite (nth_zip_with _ _ _ _ None None);
    [|rewrite ?length_map; lia|lia].
  rewrite !nth_map_cell by reflexivity.
  rewrite !(nth_zip_with _ _ _ _ None None)
    by (rewrite ?shift_length, ?series_length; lia).
  rewrite nth_shift by (rewrite series_length; exact Hi).
  rewrite !nth_series by lia.
  destruct i as [|j]; [reflexivity|].
  replace (S j - 1)%nat with j by lia.
  rewrite ?nth_series by lia. reflexivity.
Qed.

Lemma calcular_atr_length (high low close : list Q) (w : nat) :
  length high = length close -> length low = length close ->
  length (calcular_atr high low close w) = length close.
Proof.
  intros Hh Hl. unfold calcular_atr, rolling_mean.
  rewrite rolling_length. apply true_range_length; assumption.
Qed.

(** C8.  The true range of the first day is the range of that day and no
    cell of the series is missing; from the second day on it is the
    largest of the three distances; ATR is the mean of the true range
    over the 14 latest days, missing before index 13 and defined from
    index 13 on.  The column ATR_14 of a ticker is this series of its
    rows. *)
Theorem true_range_and_atr :
  (forall (high low close : list Q) (i : nat),
      length high = length close -> length low = length close ->
      (i < length close)%nat ->
      nth i (true_range high low close) None
      = Some (true_range_at high low close i) /\
      nth i (calcular_atr high low close 14) None
      = (if (13 <=? i)%nat
         then Some (mean (map (true_range_at high low close)
                              (seq (i - 13) 14)))
         else None)) /\
  (forall (sqrtQ : Q -> Q) (df : list PricePoint) (out : list IndicatorRow)
          (t : string),
      calcular_indicadores_tecnicos sqrtQ df = Ok out ->
      In t (map Ticker df) ->
      let group := rows_of t (sort_values df) in
      map ATR_14 (out_rows_of ind_Ticker t out)
      = calcular_atr (map High group) (map Low group) (map Close group) 14).
Proof.
  split.
  - intros high low close i Hh Hl Hi.
    split; [apply nth_true_range; assumption|].
    unfold calcular_atr.
    assert (Hlen : length (true_range high low close) = length close)
      by (apply true_range_length; assumption).
    destruct (Nat.leb_spec 13 i) as [H13|H13].
    + replace (i - 13)%nat with (i + 1 - 14)%nat by lia.
      apply nth_rolling_mean_defined; try lia.
      intros j Hj. apply nth_true_range; try assumption. lia.
    + apply nth_rolling_short; lia.
  - intros sqrtQ df out t Hout Ht group.
    destruct (engine_rows _ _ _ t Hout Ht)
      as (mx & mn & u & nivel & _ & Hrows).
    fold group in Hrows. rewrite Hrows.
    apply (map_imap_nth _ _ _ None).
    + intros i a. apply indicador_fila_cols.
    + rewrite calcular_atr_length; rewrite ?length_map; reflexivity.
Qed.

(* ------------------------------------------------------------------ *)
(** ** Bollinger bands *)

Lemma sqrt6_nonneg (x : Q) : 0 <= sqrt6 x.
Proof.
  unfold sqrt6, Qdiv. apply Qmult_le_0_compat.
  - change 0 with (inject_Z 0). rewrite <- Zle_Qle. apply Z.sqrt_nonneg.
  - discriminate.
Qed.

Lemma rolling_std_length (sqrtQ : Q -> Q) (w : nat) (xs : list cell) :
  length (rolling_std sqrtQ w xs) = length xs.
Proof. apply rolling_length. Qed.

Lemma rolling_std_nonneg (sqrtQ : Q -> Q) (w i : nat) (xs : list cell)
      (s : Q) :
  (forall x, 0 <= sqrtQ x) ->
  (i < length xs)%nat ->
  nth i (rolling_std sqrtQ w xs) None = Some s -> 0 <= s.
Proof.
  intros Hs Hi. unfold rolling_std. rewrite nth_rolling by exact Hi.
  destruct (w <=? i + 1)%nat; [|discriminate].
  destruct (observed (window w xs i)) as [qs|]; [|discriminate].
  destruct (length qs <=? 1)%nat; [discriminate|].
  intros E; injection E as <-. apply Hs.
Qed.

(** C10.  With a square root that is never negative, on every output row
    whose three band cells are defined the volatility cell is defined as
    well, the upper band lies twice the rolling deviation above the
    middle band and the lower band the same amount below it, and the
    bands are ordered. *)
Theorem bollinger_envelope (sqrtQ : Q -> Q) (df : list PricePoint)
        (out : list IndicatorRow) (r : IndicatorRow) (u m l : Q) :
  (forall x, 0 <= sqrtQ x) ->
  calcular_indicadores_tecnicos sqrtQ df = Ok out ->
  In r out ->
  BB_Upper r = Some u -> BB_Middle r = Some m -> BB_Lower r = Some l ->
  exists s,
    Volatility_20 r = Some s /\ 0 <= s /\
    u - m == 2 * s /\ m - l == 2 * s /\
    l <= m /\ m <= u.
Proof.
  intros Hs Hout Hr Hu Hm Hl.
  destruct (engine_row_inv _ _ _ _ Hout Hr)
    as (mx & mn & u0 & nivel & i & p & _ & Hp & E).
  set (group := rows_of (ind_Ticker r) (sort_values df)) in *.
  destruct (indicador_fila_cols sqrtQ group (fib_levels mx mn) nivel
                                (estado_fib_of nivel) i p)
    as (_ & _ & _ & _ & _ & _ & _ & _ & Em & Eu & El & Ev).
  rewrite <- E in Em, Eu, El, Ev. clear E.
  set (close := map Close group) in *.
  assert (Hi : (i < length (series close))%nat).
  { unfold close. rewrite series_length, length_map.
    apply nth_error_Some. rewrite Hp. discriminate. }
  assert (Lm : length (rolling_mean 20 (series close))
               = length (series close))
    by apply rolling_length.
  assert (Ls : length (map (lift1 (Qmult 2))
                           (rolling_std sqrtQ 20 (series close)))
               = length (series close))
    by (rewrite length_map; apply rolling_std_length).
  rewrite (nth_zip_with _ _ _ _ None None) in Eu by lia.
  rewrite (nth_zip_with _ _ _ _ None None) in El by lia.
  rewrite nth_map_cell in Eu by reflexivity.
  rewrite nth_map_cell in El by reflexivity.
  rewrite <- Em, <- Ev in Eu, El.
  rewrite Hm in Eu, El. rewrite Hu in Eu. rewrite Hl in El.
  destruct (Volatility_20 r) as [s|] eqn:Hv; [|discriminate].
  simpl in Eu, El. injection Eu as ->. injection El as ->.
  assert (H0 : 0 <= s)
    by (apply (rolling_std_nonneg sqrtQ 20 i (series close));
        [exact Hs|exact Hi|symmetry; exact Ev]).
  exists s. split; [reflexivity|]. split; [exact H0|].
  split; [ring|]. split; [ring|]. split; lra.
Qed.

Lemma bollinger_envelope_witness :
  exists out r u m l,
    calcular_indicadores_tecnicos sqrt6 df_twenty = Ok out /\
    In r out /\
    BB_Upper r = Some u /\ BB_Middle r = Some m /\ BB_Lower r = Some l /\
    l <= m /\ m <= u.
Proof.
  eassert (H1 : calcular_indicadores_tecnicos sqrt6 df_twenty = Ok _)
    by (vm_compute; reflexivity).
  match type of H1 with
  | _ = Ok ?o =>
      eassert (Hn : nth_error o 19 = Some _) by (vm_compute; reflexivity)
  end.
  assert (Hr := nth_error_In _ _ Hn).
  match type of Hn with
  | _ = Some ?r =>
      eassert (Hu : BB_Upper r = Some _) by (vm_compute; reflexivity);
      eassert (Hm : BB_Middle r = Some _) by (vm_compute; reflexivity);
      eassert (Hl : BB_Lower r = Some _) by (vm_compute; reflexivity)
  end.
  destruct (bollinger_envelope sqrt6 df_twenty _ _ _ _ _ sqrt6_nonneg
                               H1 Hr Hu Hm Hl)
    as (s & _ & _ & _ & _ & Hlm & Hmu).
  do 5 eexists.
  split; [exact H1|]. split; [exact Hr|]. split; [exact Hu|].
  split; [exact Hm|]. split; [exact Hl|]. split; [exact Hlm|exact Hmu].
Defined.

(* ------------------------------------------------------------------ *)
(** ** The statements at sample inputs *)

Lemma ema_recursion_witness :
  (1 <= 3)%nat /\
  In "A"%string (map Ticker df_example) /\
  (exists ys,
      ewm_mean 3 (series [2; 4; 8]) = series ys /\
      ema_law (2 / (Qnat 3 + 1)) [2; 4; 8] ys) /\
  exists out e20,
    calcular_indicadores_tecnicos sqrt6 df_example = Ok out /\
    map EMA_20 (out_rows_of ind_Ticker "A" out) = series e20 /\
    ema_law (2 / 21) (map Close (rows_of "A" (sort_values df_example))) e20.
Proof.
  assert (H0 : (1 <= 3)%nat) by lia.
  assert (H2 : In "A"%string (map Ticker df_example)) by (simpl; auto).
  split; [exact H0|]. split; [exact H2|]. split.
  - exact (proj1 ema_recursion 3%nat [2; 4; 8] H0).
  - destruct (calcular_indicadores_tecnicos sqrt6 df_example)
      as [out|e] eqn:H1; [|vm_compute in H1; discriminate].
    destruct (proj2 ema_recursion sqrt6 df_example out "A"%string H1 H2)
      as (e20 & eS & eL & sig & A & B & _).
    exists out, e20. split; [reflexivity|]. split; [exact A|exact B].
Defined.

Lemma rsi_bounded_witness :
  let close := map Close df_twenty in
  (19 < length close)%nat /\
  feq (nth 19 (calcular_rsi close 14) NaN) (Fin 100).
Proof.
  intros close.
  assert (Hi : (19 < length close)%nat) by (vm_compute; lia).
  split; [exact Hi|].
  destruct (proj1 rsi_bounded close 19%nat Hi)
    as (_ & _ & _ & _ & _ & H100 & _).
  eassert (Hg : nth 19 (rsi_avg_gain close 14) None = Some _)
    by (vm_compute; reflexivity).
  eassert (Hl : nth 19 (rsi_avg_loss close 14) None = Some _)
    by (vm_compute; reflexivity).
  apply (H100 _ _ Hg Hl); vm_compute; reflexivity.
Defined.

Lemma true_range_and_atr_witness :
  let high := map High df_twenty in
  let low := map Low df_twenty in
  let close := map Close df_twenty in
  length high = length close /\ length low = length close /\
  (13 < length close)%nat /\
  nth 0 (true_range high low close) None = Some (nth 0 high 0 - nth 0 low 0) /\
  exists atr, nth 13 (calcular_atr high low close 14) None = Some atr.
Proof.
  intros high low close.
  assert (Hh : length high = length close) by reflexivity.
  assert (Hl : length low = length close) by reflexivity.
  assert (H0 : (0 < length close)%nat) by (vm_compute; lia).
  assert (H13 : (13 < length close)%nat) by (vm_compute; lia).
  split; [exact Hh|]. split; [exact Hl|]. split; [exact H13|]. split.
  - exact (proj1 (proj1 true_range_and_atr high low close 0%nat Hh Hl H0)).
  - eexists.
    exact (proj2 (proj1 true_range_and_atr high low close 13%nat Hh Hl H13)).
Defined.

(* ------------------------------------------------------------------ *)
(** ** The cleaning of the price table *)

(** X1.  [transformar_precios_historicos] returns one row per input row
    with the same date, ticker and volume; every price is within 0.0005
    of the price read, and the order between the low, the open, the
    close and the high of a row is kept. *)
Theorem precios_historicos_rounding (df : list PricePoint) (i : nat)
        (p : PricePoint) :
  nth_error df i = Some p ->
  length (transformar_precios_historicos df) = length df /\
  exists q,
    nth_error (transformar_precios_historicos df) i = Some q /\
    Date q = Date p /\ Ticker q = Ticker p /\ Volume q = Volume p /\
    (Open q - Open p <= 0.0005 /\ Open p - Open q <= 0.0005) /\
    (High q - High p <= 0.0005 /\ High p - High q <= 0.0005) /\
    (Low q - Low p <= 0.0005 /\ Low p - Low q <= 0.0005) /\
    (Close q - Close p <= 0.0005 /\ Close p - Close q <= 0.0005) /\
    (Low p <= High p -> Low q <= High q) /\
    (Low p <= Open p -> Low q <= Open q) /\
    (Open p <= High p -> Open q <= High q) /\
    (Low p <= Close p -> Low q <= Close q) /\
    (Close p <= High p -> Close q <= High q).
Proof.
  intros Hp. unfold transformar_precios_historicos.
  split; [apply length_map|].
  eexists. split; [rewrite nth_error_map, Hp; reflexivity|].
  cbn [Date Ticker Volume Open High Low Close].
  repeat split; try apply round3_error; apply round_dec_mono.
Qed.

Lemma precios_historicos_rounding_witness :
  nth_error df_example 0 = Some (mkPricePoint 3 "A" 121 121 121 121 10) /\
  length (transformar_precios_historicos df_example) = 3%nat.
Proof.
  assert (H : nth_error df_example 0
              = Some (mkPricePoint 3 "A" 121 121 121 121 10))
    by reflexivity.
  split; [exact H|].
  exact (proj1 (precios_historicos_rounding df_example 0 _ H)).
Defined.

(** X2.  Cleaning a price table that is already clean changes no cell:
    rounding to three decimals is idempotent. *)
Theorem precios_historicos_idempotent (df : list PricePoint) :
  Forall2 PricePoint_eq
          (transformar_precios_historicos
             (transformar_precios_historicos df))
          (transformar_precios_historicos df).
Proof.
  unfold transformar_precios_historicos. rewrite map_map.
  induction df as [|p df IH]; simpl; constructor; [|exact IH].
  unfold PricePoint_eq; cbn [Date Ticker Volume Open High Low Close].
  repeat split; try apply round_dec_idem; reflexivity.
Qed.

(* ------------------------------------------------------------------ *)
(** ** Ranking by market capitalisation *)

Lemma insert_desc_sorted (x : nat * Q) (l : list (nat * Q)) :
  StronglySorted ranks_before l ->
  Forall (fun a => (fst x < fst a)%nat) l ->
  StronglySorted ranks_before
                 (insert_by (fun a b => Qle_bool (snd b) (snd a)) x l).
Proof.
  induction 1 as [|y t Hs IH Hy]; intros Hx; simpl.
  - repeat constructor.
  - inversion Hx as [|? ? Hxy Hxt]; subst.
    destruct (Qle_bool (snd y) (snd x)) eqn:E.
    + apply Qle_bool_iff in E.
      constructor; [constructor; assumption|].
      assert (B : ranks_before x y).
      { unfold ranks_before.
        destruct (Qlt_le_dec (snd y) (snd x)) as [L|L]; [left; exact L|].
        right. split; [lra|exact Hxy]. }
      constructor; [exact B|].
      rewrite Forall_forall in *. intros z Hz.
      specialize (Hy z Hz). specialize (Hxt z Hz).
      unfold ranks_before in *.
      destruct (Qlt_le_dec (snd z) (snd x)) as [L|L]; [left; exact L|].
      right. split; [|exact Hxt].
      destruct Hy as [Hy|[Hy _]]; lra.
    + assert (L : snd x < snd y).
      { apply Qnot_le_lt. intro H. apply Qle_bool_iff in H. congruence. }
      constructor; [apply IH; exact Hxt|].
      apply Forall_forall. intros z Hz.
      apply (Permutation_in _ (insert_by_perm _ x t)) in Hz.
      destruct Hz as [<-|Hz].
      * left. exact L.
      * rewrite Forall_forall in Hy. apply Hy, Hz.
Qed.

Lemma order_desc_perm (k : nat) (vals : list Q) :
  Permutation (order_desc k vals) (combine (seq k (length vals)) vals).
Proof. apply sort_by_perm. Qed.

Lemma order_desc_sorted (vals : list Q) :
  forall k,
    StronglySorted ranks_before (order_desc k vals) /\
    Forall (fun a => (k <= fst a)%nat) (order_desc k vals).
Proof.
  induction vals as [|v vals IH]; intros k.
  - split; constructor.
  - destruct (IH (S k)) as [Hs Hk].
    unfold order_desc in *. cbn [length seq combine sort_by fold_right].
    fold (sort_by (fun a b : nat * Q => Qle_bool (snd b) (snd a))
                  (combine (seq (S k) (length vals)) vals)).
    split.
    + apply insert_desc_sorted; [exact Hs|].
      eapply Forall_impl; [|exact Hk]. simpl. intros a Ha. lia.
    + apply Forall_forall. intros z Hz.
      apply (Permutation_in _ (insert_by_perm _ _ _)) in Hz.
      destruct Hz as [<-|Hz]; [simpl; lia|].
      rewrite Forall_forall in Hk. specialize (Hk z Hz). lia.
Qed.

Lemma map_fst_combine_seq (k : nat) (vals : list Q) :
  map fst (combine (seq k (length vals)) vals) = seq k (length vals).
Proof.
  revert k; induction vals as [|v vals IH]; intros k; simpl; auto.
  rewrite IH. reflexivity.
Qed.

Lemma order_desc_indices (vals : list Q) :
  Permutation (map fst (order_desc 0 vals)) (seq 0 (length vals)).
Proof.
  rewrite <- (map_fst_combine_seq 0 vals).
  apply Permutation_map, order_desc_perm.
Qed.

Lemma order_desc_NoDup (vals : list Q) :
  NoDup (map fst (order_desc 0 vals)).
Proof.
  apply (Permutation_NoDup (l := seq 0 (length vals))).
  - symmetry. apply order_desc_indices.
  - apply seq_NoDup.
Qed.

Lemma In_combine_seq (k i : nat) (vals : list Q) :
  (i < length vals)%nat ->
  In ((k + i)%nat, nth i vals 0) (combine (seq k (length vals)) vals).
Proof.
  revert k i; induction vals as [|v vals IH]; intros k i Hi; simpl in *.
  - lia.
  - destruct i as [|i].
    + left. rewrite Nat.add_0_r. reflexivity.
    + right. replace (k + S i)%nat with (S k + i)%nat by lia.
      apply IH. lia.
Qed.

Lemma order_desc_In (vals : list Q) (i : nat) :
  (i < length vals)%nat -> In (i, nth i vals 0) (order_desc 0 vals).
Proof.
  intros Hi. apply (Permutation_in _ (Permutation_sym (order_desc_perm 0 vals))).
  apply (In_combine_seq 0 i vals Hi).
Qed.

Lemma position_map_self (l : list nat) :
  NoDup l -> map (fun i => position i l) l = seq 0 (length l).
Proof.
  induction 1 as [|j l Hj ND IH]; simpl; auto.
  rewrite Nat.eqb_refl. f_equal.
  rewrite <- seq_shift, <- IH, map_map.
  apply map_ext_in. intros i Hi.
  destruct (Nat.eqb_spec i j); [subst; contradiction|reflexivity].
Qed.

(** In a list sorted by the ranking whose indices are distinct, an entry
    that ranks before another stands before it. *)
Lemma sorted_position (l : list (nat * Q)) (a b : nat * Q) :
  StronglySorted ranks_before l -> NoDup (map fst l) ->
  In a l -> In b l -> ranks_before a b ->
  (position (fst a) (map fst l) < position (fst b) (map fst l))%nat.
Proof.
  induction 1 as [|h t Hs IH Hh]; intros ND Ha Hb Hab; [contradiction|].
  simpl in ND. inversion ND as [|? ? Hnh NDt]; subst.
  assert (Hfst : forall c, In c t -> fst c <> fst h).
  { intros c Hc E. apply Hnh. rewrite <- E. apply in_map, Hc. }
  simpl.
  destruct Ha as [<-|Ha]; destruct Hb as [<-|Hb].
  - exfalso. unfold ranks_before in Hab. destruct Hab as [L|[_ L]]; [lra|lia].
  - rewrite Nat.eqb_refl.
    destruct (Nat.eqb_spec (fst b) (fst h)) as [E|_]; [|lia].
    exfalso. exact (Hfst b Hb E).
  - exfalso. rewrite Forall_forall in Hh. specialize (Hh a Ha).
    unfold ranks_before in Hab, Hh.
    destruct Hab as [L|[E L]]; destruct Hh as [L'|[E' L']]; try lra; lia.
  - destruct (Nat.eqb_spec (fst a) (fst h)) as [E|_];
      [exfalso; exact (Hfst a Ha E)|].
    destruct (Nat.eqb_spec (fst b) (fst h)) as [E|_];
      [exfalso; exact (Hfst b Hb E)|].
    apply -> Nat.succ_lt_mono. apply IH; assumption.
Qed.

Lemma rank_first_desc_length (vals : list Q) :
  length (rank_first_desc vals) = length vals.
Proof. unfold rank_first_desc. rewrite length_map, length_seq. reflexivity. Qed.

Lemma nth_rank_first_desc (vals : list Q) (i : nat) :
  (i < length vals)%nat ->
  nth i (rank_first_desc vals) O
  = S (position i (map fst (order_desc 0 vals))).
Proof.
  intros Hi. unfold rank_first_desc.
  exact (nth_map_seq
           (fun i => S (position i (map fst (order_desc 0 vals)))) _ i O Hi).
Qed.

(** The ranks of a column are the numbers 1 to [n], each once. *)
Lemma rank_first_desc_perm (vals : list Q) :
  Permutation (rank_first_desc vals) (seq 1 (length vals)).
Proof.
  unfold rank_first_desc.
  set (idx := map fst (order_desc 0 vals)).
  rewrite <- seq_shift, <- (map_map (fun i => position i idx) S).
  apply Permutation_map.
  assert (Hlen : length idx = length vals).
  { unfold idx. rewrite (Permutation_length (order_desc_indices vals)).
    apply length_seq. }
  rewrite <- Hlen at 2.
  rewrite <- (position_map_self idx (order_desc_NoDup vals)).
  apply Permutation_map. symmetry. apply order_desc_indices.
Qed.

Lemma rank_first_desc_order (vals : list Q) (i j : nat) :
  (i < length vals)%nat -> (j < length vals)%nat ->
  ranks_before (i, nth i vals 0) (j, nth j vals 0) ->
  (nth i (rank_first_desc vals) O < nth j (rank_first_desc vals) O)%nat.
Proof.
  intros Hi Hj Hb. rewrite !nth_rank_first_desc by assumption.
  apply -> Nat.succ_lt_mono.
  apply (sorted_position (order_desc 0 vals) (i, nth i vals 0)
                         (j, nth j vals 0)).
  - apply order_desc_sorted.
  - apply order_desc_NoDup.
  - apply order_desc_In, Hi.
  - apply order_desc_In, Hj.
  - exact Hb.
Qed.

Lemma observed_none_inv (cs : list cell) :
  observed cs = None -> In None cs.
Proof.
  induction cs as [|[q|] cs IH]; simpl; intros H.
  - discriminate.
  - right. apply IH. destruct (observed cs); [discriminate|reflexivity].
  - left; reflexivity.
Qed.

Lemma fundamentales_ok (df : list Fundamental) (caps : list Q) :
  observed (map fun_Market_Cap df) = Some caps ->
  length caps = length df /\
  forall i f, nth_error df i = Some f ->
              fun_Market_Cap f = Some (nth i caps 0).
Proof.
  intros H. apply observed_inv in H.
  assert (L : length caps = length df).
  { rewrite <- (series_length caps), <- H. apply length_map. }
  split; [exact L|].
  intros i f Hf.
  assert (Hi : (i < length df)%nat)
    by (apply nth_error_Some; rewrite Hf; discriminate).
  rewrite <- (nth_series caps i) by lia. rewrite <- H.
  apply (map_nth_error fun_Market_Cap) in Hf.
  apply nth_error_nth with (d := None) in Hf. symmetry. exact Hf.
Qed.

(** X3.  [transformar_indicadores_fundamentales] fails exactly when a
    market cap is missing; otherwise it keeps the rows in their order and
    the rankings it adds are the numbers 1 to [n], each given once. *)
Theorem fundamentales_ranking_total (df : list Fundamental) :
  (transformar_indicadores_fundamentales df = Raise ValueError
   <-> In None (map fun_Market_Cap df)) /\
  forall out,
    transformar_indicadores_fundamentales df = Ok out ->
    map fr_row out = df /\
    Permutation (map Ranking_MarketCap out) (seq 1 (length df)).
Proof.
  unfold transformar_indicadores_fundamentales.
  destruct (observed (map fun_Market_Cap df)) as [caps|] eqn:E.
  - split.
    + split; [discriminate|].
      intros Hin. rewrite (observed_none _ Hin) in E. discriminate.
    + intros out H. injection H as <-.
      destruct (fundamentales_ok _ _ E) as [L _].
      split.
      * unfold imap. rewrite (map_imap_from _ (fun f => f)) by reflexivity.
        apply map_id.
      * rewrite (map_imap_nth _ _ (rank_first_desc caps) O).
        -- rewrite <- L. apply rank_first_desc_perm.
        -- reflexivity.
        -- rewrite rank_first_desc_length. exact L.
  - split; [|discriminate].
    split; [|reflexivity].
    intros _. apply observed_none_inv, E.
Qed.

Lemma fundamentales_ranking_total_witness :
  exists out,
    transformar_indicadores_fundamentales fundamentales_example = Ok out /\
    map Ranking_MarketCap out = [2; 1; 3]%nat /\
    Permutation (map Ranking_MarketCap out) (seq 1 3).
Proof.
  eassert (H : transformar_indicadores_fundamentales fundamentales_example
               = Ok _) by (vm_compute; reflexivity).
  eexists. split; [exact H|]. split; [reflexivity|].
  exact (proj2 (proj2 (fundamentales_ranking_total fundamentales_example)
                      _ H)).
Defined.

(** X4.  In the table of fundamentals a larger market cap gets a smaller
    ranking number, and of two rows with the same market cap the one that
    comes first in the file gets the smaller number. *)
Theorem fundamentales_ranking_order (df : list Fundamental)
        (out : list FundamentalReady) (i j : nat)
        (ri rj : FundamentalReady) (ci cj : Q) :
  transformar_indicadores_fundamentales df = Ok out ->
  nth_error out i = Some ri -> nth_error out j = Some rj ->
  fun_Market_Cap (fr_row ri) = Some ci ->
  fun_Market_Cap (fr_row rj) = Some cj ->
  cj < ci \/ (ci == cj /\ (i < j)%nat) ->
  (Ranking_MarketCap ri < Ranking_MarketCap rj)%nat.
Proof.
  unfold transformar_indicadores_fundamentales.
  destruct (observed (map fun_Market_Cap df)) as [caps|] eqn:E;
    [|discriminate].
  intros H Hi Hj Ci Cj Hord. injection H as <-.
  destruct (fundamentales_ok _ _ E) as [L Hcap].
  unfold imap in Hi, Hj. rewrite nth_error_imap_from in Hi, Hj.
  destruct (nth_error df i) as [fi|] eqn:Fi; [|discriminate].
  destruct (nth_error df j) as [fj|] eqn:Fj; [|discriminate].
  injection Hi as <-. injection Hj as <-.
  cbn [fr_row Ranking_MarketCap Nat.add] in *.
  rewrite (Hcap i fi Fi) in Ci. rewrite (Hcap j fj Fj) in Cj.
  injection Ci as <-. injection Cj as <-.
  assert (Hi : (i < length caps)%nat)
    by (rewrite L; apply nth_error_Some; rewrite Fi; discriminate).
  assert (Hj : (j < length caps)%nat)
    by (rewrite L; apply nth_error_Some; rewrite Fj; discriminate).
  apply rank_first_desc_order; assumption.
Qed.

Lemma fundamentales_ranking_order_witness :
  exists out ri rj,
    transformar_indicadores_fundamentales fundamentales_example = Ok out /\
    nth_error out 0 = Some ri /\ nth_error out 2 = Some rj /\
    (Ranking_MarketCap ri < Ranking_MarketCap rj)%nat.
Proof.
  eassert (H : transformar_indicadores_fundamentales fundamentales_example
               = Ok _) by (vm_compute; reflexivity).
  match type of H with
  | _ = Ok ?o =>
      eassert (H0 : nth_error o 0 = Some _) by reflexivity;
      eassert (H2 : nth_error o 2 = Some _) by reflexivity
  end.
  do 3 eexists. split; [exact H|]. split; [exact H0|]. split; [exact H2|].
  apply (fundamentales_ranking_order fundamentales_example _ 0 2 _ _ 100 100
                                     H H0 H2 eq_refl eq_refl).
  right. split; [reflexivity|lia].
Defined.

(* ------------------------------------------------------------------ *)
(** ** On-balance volume *)

Lemma cumsum_from_length (a : Q) (xs : list Q) :
  length (cumsum_from a xs) = length xs.
Proof. revert a; induction xs; simpl; auto. Qed.

Lemma nth_cumsum_from_S (xs : list Q) :
  forall a i,
    (S i < length xs)%nat ->
    nth (S i) (cumsum_from a xs) 0
    = nth i (cumsum_from a xs) 0 + nth (S i) xs 0.
Proof.
  induction xs as [|x xs IH]; intros a i Hi; simpl in Hi; [lia|].
  destruct xs as [|y ys]; [simpl in Hi; lia|].
  destruct i as [|i].
  - reflexivity.
  - change (nth (S i) (cumsum_from (a + x) (y :: ys)) 0
            = nth i (cumsum_from (a + x) (y :: ys)) 0 + nth (S i) (y :: ys) 0).
    apply IH. simpl in *. lia.
Qed.

Lemma fillna_length (v : Q) (xs : list cell) :
  length (fillna v xs) = length xs.
Proof. apply length_map. Qed.

Lemma nth_fillna (v : Q) (xs : list cell) (i : nat) :
  (i < length xs)%nat ->
  nth i (fillna v xs) 0
  = match nth i xs None with Some x => x | None => v end.
Proof.
  intros Hi. unfold fillna.
  rewrite (nth_indep _ 0 v) by (rewrite length_map; exact Hi).
  exact (map_nth (fun c : cell => match c with Some x => x | None => v end)
                 xs None i).
Qed.

(** The signed volume of day [i] inside [calcular_obv]. *)
Lemma nth_signed_volume (close volume : list Q) (i : nat) :
  length volume = length close -> (i < length close)%nat ->
  nth i (fillna 0
           (zip_with (lift2 Qmult)
                     (map (lift1 Qsign) (diff (series close)))
                     (series volume))) 0
  = if (i <? 1)%nat then 0
    else Qsign (nth i close 0 - nth (i - 1) close 0) * nth i volume 0.
Proof.
  intros Hl Hi.
  assert (L1 : length (map (lift1 Qsign) (diff (series close)))
               = length close)
    by (rewrite length_map, diff_length; apply series_length).
  rewrite nth_fillna
    by (rewrite zip_with_length; rewrite ?series_length; lia).
  rewrite (nth_zip_with _ _ _ _ None None)
    by (rewrite ?series_length; lia).
  rewrite nth_map_cell by reflexivity.
  rewrite nth_diff by exact Hi. rewrite nth_series by lia.
  destruct (i <? 1)%nat; reflexivity.
Qed.

Lemma calcular_obv_length (close volume : list Q) :
  length volume = length close ->
  length (calcular_obv close volume) = length close.
Proof.
  intros Hl. unfold calcular_obv, cumsum.
  rewrite cumsum_from_length, fillna_length, zip_with_length;
    rewrite ?length_map, ?diff_length, ?series_length; lia.
Qed.

(** X5.  The on-balance volume starts at zero on the first day and on
    every later day adds the volume of the day when the close rose,
    subtracts it when the close fell, and adds nothing when the close
    did not move. *)
Theorem obv_running_sum (close volume : list Q) :
  length volume = length close ->
  let obv := calcular_obv close volume in
  length obv = length close /\
  ((0 < length close)%nat -> nth 0 obv 0 == 0) /\
  forall i,
    (S i < length close)%nat ->
    let step := nth (S i) obv 0 - nth i obv 0 in
    (nth i close 0 < nth (S i) close 0 -> step == nth (S i) volume 0) /\
    (nth (S i) close 0 < nth i close 0 -> step == - nth (S i) volume 0) /\
    (nth (S i) close 0 == nth i close 0 -> step == 0).
Proof.
  intros Hl obv.
  split; [apply calcular_obv_length; exact Hl|].
  set (sv := fillna 0 (zip_with (lift2 Qmult)
                                (map (lift1 Qsign) (diff (series close)))
                                (series volume))).
  assert (Lsv : length sv = length close).
  { unfold sv. rewrite fillna_length, zip_with_length;
      rewrite ?length_map, ?diff_length, ?series_length; lia. }
  split.
  - intros H0. unfold obv, calcular_obv, cumsum. fold sv.
    assert (E := nth_signed_volume close volume 0 Hl H0). fold sv in E.
    destruct sv as [|x sv']; [simpl in Lsv; lia|].
    simpl in E |- *. rewrite E. ring.
  - intros i Hi step.
    assert (Es : step == Qsign (nth (S i) close 0 - nth i close 0)
                         * nth (S i) volume 0).
    { unfold step, obv, calcular_obv, cumsum. fold sv.
      rewrite nth_cumsum_from_S by lia.
      assert (E := nth_signed_volume close volume (S i) Hl Hi).
      fold sv in E. rewrite E.
      replace (S i - 1)%nat with i by lia. cbn [Nat.ltb Nat.leb]. ring. }
    unfold Qsign in Es.
    repeat split; intros H; rewrite Es.
    + assert (C : (nth (S i) close 0 - nth i close 0 ?= 0) = Gt)
        by (apply Qgt_alt; lra).
      rewrite C. ring.
    + assert (C : (nth (S i) close 0 - nth i close 0 ?= 0) = Lt)
        by (apply (proj1 (Qlt_alt _ _)); lra).
      rewrite C. ring.
    + assert (C : (nth (S i) close 0 - nth i close 0 ?= 0) = Eq)
        by (apply Qeq_alt; lra).
      rewrite C. ring.
Qed.

Lemma obv_running_sum_witness :
  let close := map Close df_twenty in
  let volume := map Volume df_twenty in
  length volume = length close /\
  nth 19 (calcular_obv close volume) 0
  - nth 18 (calcular_obv close volume) 0 == 10.
Proof.
  intros close volume.
  assert (Hl : length volume = length close) by reflexivity.
  split; [exact Hl|].
  destruct (obv_running_sum close volume Hl) as (_ & _ & H).
  assert (Hi : (19 < length close)%nat) by (vm_compute; lia).
  destruct (H 18%nat Hi) as (Hup & _).
  rewrite Hup; vm_compute; reflexivity.
Defined.

(* ------------------------------------------------------------------ *)
(** ** The columns of a ticker, row by row *)

(** The row at position [i] among the output rows of a ticker is the row
    computed at position [i] of its group. *)
Lemma engine_row_at (sqrtQ : Q -> Q) (df : list PricePoint)
      (out : list IndicatorRow) (t : string) (i : nat) (r : IndicatorRow) :
  calcular_indicadores_tecnicos sqrtQ df = Ok out ->
  nth_error (out_rows_of ind_Ticker t out) i = Some r ->
  let group := rows_of t (sort_values df) in
  exists mx mn u nivel p,
    fib_of (map Close group) mx mn u nivel /\
    nth_error group i = Some p /\
    r = indicador_fila sqrtQ group (fib_levels mx mn) nivel
                       (estado_fib_of nivel) i p.
Proof.
  intros Hout Hr group.
  rewrite (engine_rows_all _ _ _ _ Hout) in Hr.
  unfold filas_de in Hr. fold group in Hr.
  destruct group as [|p0 g] eqn:Eg.
  - simpl in Hr. destruct i; discriminate.
  - destruct (fib_of_exists (map Close (p0 :: g)))
      as (mx & mn & u & nivel & Hf); [discriminate|].
    rewrite (indicadores_grupo_ok _ _ _ _ _ _ Hf) in Hr.
    unfold imap in Hr. rewrite nth_error_imap_from in Hr.
    destruct (nth_error (p0 :: g) i) as [p|] eqn:Hp; [|discriminate].
    injection Hr as Hr.
    exists mx, mn, u, nivel, p. auto.
Qed.

Lemma ventana_length (w i : nat) (xs : list Q) :
  length (ventana w i xs) = w.
Proof. unfold ventana. rewrite length_map, length_seq. reflexivity. Qed.

Lemma nth_ventana (w i j : nat) (xs : list Q) :
  (j < w)%nat -> nth j (ventana w i xs) 0 = nth (i + 1 - w + j) xs 0.
Proof.
  intros Hj. unfold ventana.
  rewrite (nth_indep _ 0 (nth 0 xs 0))
    by (rewrite length_map, length_seq; exact Hj).
  rewrite (map_nth (fun j => nth j xs 0)), seq_nth by exact Hj.
  reflexivity.
Qed.

Lemma nth_rolling_defined (w i : nat) (f : list Q -> cell)
      (xs : list Q) :
  (i < length xs)%nat ->
  nth i (rolling w f (series xs)) None
  = if (w <=? i + 1)%nat then f (ventana w i xs) else None.
Proof.
  intros Hi. rewrite nth_rolling by (rewrite series_length; exact Hi).
  destruct (Nat.leb_spec w (i + 1)); [|reflexivity].
  assert (E : window w (series xs) i = series (ventana w i xs)).
  { apply (nth_ext _ _ None None).
    - rewrite window_length by (rewrite ?series_length; lia).
      rewrite series_length, ventana_length. reflexivity.
    - intros j Hj.
      rewrite window_length in Hj by (rewrite ?series_length; lia).
      rewrite nth_window by exact Hj.
      rewrite (nth_series (ventana w i xs))
        by (rewrite ventana_length; exact Hj).
      rewrite nth_ventana by exact Hj.
      apply nth_series. lia. }
  rewrite E, observed_series. reflexivity.
Qed.

Lemma row_position (sqrtQ : Q -> Q) (df : list PricePoint) (t : string)
      (i : nat) (p : PricePoint) :
  nth_error (rows_of t (sort_values df)) i = Some p ->
  (i < length (map Close (rows_of t (sort_values df))))%nat.
Proof.
  intros Hp. rewrite length_map. apply nth_error_Some.
  rewrite Hp. discriminate.
Qed.

(** X6.  On the row at position [i] of a ticker (counted from 0 in date
    order) SMA_20 is missing for [i < 19] and is the mean of the 20
    latest closes from position 19 on; SMA_50 is missing for [i < 49] and
    the mean of the 50 latest closes from position 49 on; the middle band
    is the same cell as SMA_20. *)
Theorem sma_warm_up (sqrtQ : Q -> Q) (df : list PricePoint)
        (out : list IndicatorRow) (t : string) (i : nat)
        (r : IndicatorRow) :
  calcular_indicadores_tecnicos sqrtQ df = Ok out ->
  nth_error (out_rows_of ind_Ticker t out) i = Some r ->
  let closes := map Close (rows_of t (sort_values df)) in
  SMA_20 r = (if (19 <=? i)%nat then Some (mean (ventana 20 i closes))
              else None) /\
  SMA_50 r = (if (49 <=? i)%nat then Some (mean (ventana 50 i closes))
              else None) /\
  BB_Middle r = SMA_20 r.
Proof.
  intros Hout Hr closes.
  destruct (engine_row_at _ _ _ _ _ _ Hout Hr)
    as (mx & mn & u & nivel & p & _ & Hp & ->).
  assert (Hi := row_position sqrtQ df t i p Hp). fold closes in Hi.
  destruct (indicador_fila_cols sqrtQ (rows_of t (sort_values df))
                                (fib_levels mx mn) nivel
                                (estado_fib_of nivel) i p)
    as (E20 & E50 & _ & _ & _ & _ & _ & _ & Em & _).
  fold closes in E20, E50, Em.
  rewrite E20, E50, Em. unfold rolling_mean.
  rewrite !nth_rolling_defined by exact Hi.
  replace (20 <=? i + 1)%nat with (19 <=? i)%nat
    by (destruct (Nat.leb_spec 19 i), (Nat.leb_spec 20 (i + 1));
        reflexivity || lia).
  replace (50 <=? i + 1)%nat with (49 <=? i)%nat
    by (destruct (Nat.leb_spec 49 i), (Nat.leb_spec 50 (i + 1));
        reflexivity || lia).
  auto.
Qed.

(** X7.  The volatility and the outer Bollinger bands of the row at
    position [i] of a ticker are missing for [i < 19]; from position 19
    on the volatility is the square root of the sample variance of the 20
    latest closes, and the bands are their mean plus and minus twice that
    root. *)
Theorem bollinger_warm_up (sqrtQ : Q -> Q) (df : list PricePoint)
        (out : list IndicatorRow) (t : string) (i : nat)
        (r : IndicatorRow) :
  calcular_indicadores_tecnicos sqrtQ df = Ok out ->
  nth_error (out_rows_of ind_Ticker t out) i = Some r ->
  let w := ventana 20 i (map Close (rows_of t (sort_values df))) in
  if (19 <=? i)%nat
  then Volatility_20 r = Some (sqrtQ (variance w)) /\
       BB_Upper r = Some (mean w + 2 * sqrtQ (variance w)) /\
       BB_Lower r = Some (mean w - 2 * sqrtQ (variance w))
  else Volatility_20 r = None /\ BB_Upper r = None /\ BB_Lower r = None.
Proof.
  intros Hout Hr w.
  destruct (engine_row_at _ _ _ _ _ _ Hout Hr)
    as (mx & mn & u & nivel & p & _ & Hp & ->).
  assert (Hi := row_position sqrtQ df t i p Hp).
  set (closes := map Close (rows_of t (sort_values df))) in *.
  destruct (indicador_fila_cols sqrtQ (rows_of t (sort_values df))
                                (fib_levels mx mn) nivel
                                (estado_fib_of nivel) i p)
    as (_ & _ & _ & _ & _ & _ & _ & _ & _ & Eu & El & Ev).
  fold closes in Eu, El, Ev.
  assert (Lm : length (rolling_mean 20 (series closes)) = length closes)
    by (unfold rolling_mean; rewrite rolling_length; apply series_length).
  assert (Ls : length (map (lift1 (Qmult 2))
                           (rolling_std sqrtQ 20 (series closes)))
               = length closes)
    by (rewrite length_map, rolling_std_length; apply series_length).
  rewrite (nth_zip_with _ _ _ _ None None) in Eu by lia.
  rewrite (nth_zip_with _ _ _ _ None None) in El by lia.
  rewrite nth_map_cell in Eu by reflexivity.
  rewrite nth_map_cell in El by reflexivity.
  unfold rolling_mean, rolling_std in Eu, El, Ev.
  rewrite 2!nth_rolling_defined in Eu by exact Hi.
  rewrite 2!nth_rolling_defined in El by exact Hi.
  rewrite nth_rolling_defined in Ev by exact Hi.
  cbv beta in Eu, El, Ev.
  rewrite ventana_length in Eu, El, Ev.
  fold closes in w. fold w in Eu, El, Ev.
  replace (20 <=? i + 1)%nat with (19 <=? i)%nat in Eu, El, Ev
    by (destruct (Nat.leb_spec 19 i), (Nat.leb_spec 20 (i + 1));
        reflexivity || lia).
  rewrite Eu, El, Ev.
  destruct (19 <=? i)%nat; cbn; auto.
Qed.

Lemma sma_warm_up_witness :
  exists out r,
    calcular_indicadores_tecnicos sqrt6 df_twenty = Ok out /\
    nth_error (out_rows_of ind_Ticker "A" out) 19 = Some r /\
    SMA_20 r
    = Some (mean (ventana 20 19
                          (map Close (rows_of "A" (sort_values df_twenty)))))
    /\ SMA_50 r = None.
Proof.
  eassert (H1 : calcular_indicadores_tecnicos sqrt6 df_twenty = Ok _)
    by (vm_compute; reflexivity).
  match type of H1 with
  | _ = Ok ?o =>
      eassert (Hr : nth_error (out_rows_of ind_Ticker "A" o) 19 = Some _)
        by (vm_compute; reflexivity)
  end.
  do 2 eexists. split; [exact H1|]. split; [exact Hr|].
  destruct (sma_warm_up sqrt6 df_twenty _ "A" 19 _ H1 Hr) as (A & B & _).
  split; [exact A|exact B].
Defined.

Lemma bollinger_warm_up_witness :
  exists out r,
    calcular_indicadores_tecnicos sqrt6 df_twenty = Ok out /\
    nth_error (out_rows_of ind_Ticker "A" out) 19 = Some r /\
    Volatility_20 r
    = Some (sqrt6 (variance
                     (ventana 20 19
                        (map Close (rows_of "A" (sort_values df_twenty)))))).
Proof.
  eassert (H1 : calcular_indicadores_tecnicos sqrt6 df_twenty = Ok _)
    by (vm_compute; reflexivity).
  match type of H1 with
  | _ = Ok ?o =>
      eassert (Hr : nth_error (out_rows_of ind_Ticker "A" o) 19 = Some _)
        by (vm_compute; reflexivity)
  end.
  do 2 eexists. split; [exact H1|]. split; [exact Hr|].
  exact (proj1 (bollinger_warm_up sqrt6 df_twenty _ "A" 19 _ H1 Hr)).
Defined.

(* ------------------------------------------------------------------ *)
(** ** MACD and the range of the moving average *)

Lemma nth_error_nth_0 (xs ys : list Q) :
  nth_error ys 0 = nth_error xs 0 -> nth 0 ys 0 = nth 0 xs 0.
Proof. destruct xs, ys; simpl; congruence. Qed.

Lemma nth_series_zip_minus (a b : list Q) (i : nat) :
  length a = length b -> (i < length a)%nat ->
  nth i (series (zip_with Qminus a b)) None = Some (nth i a 0 - nth i b 0).
Proof.
  intros Hl Hi.
  rewrite nth_series by (rewrite zip_with_length; assumption).
  rewrite (nth_zip_with _ _ _ _ 0 0) by assumption. reflexivity.
Qed.

(** The three series of [calcular_macd] on closes without missing cells. *)
Lemma calcular_macd_finite (closes : list Q) :
  exists eS eL sig,
    ema_law (2 / 13) closes eS /\ ema_law (2 / 27) closes eL /\
    ema_law (2 / 10) (zip_with Qminus eS eL) sig /\
    calcular_macd closes 12 26 9
    = (series (zip_with Qminus eS eL), series sig,
       series (zip_with Qminus (zip_with Qminus eS eL) sig)).
Proof.
  destruct (ewm_mean_law 12 (2 / 13) closes) as (eS & HS & LS);
    [vm_compute; reflexivity|].
  destruct (ewm_mean_law 26 (2 / 27) closes) as (eL & HL & LL);
    [vm_compute; reflexivity|].
  destruct (ewm_mean_law 9 (2 / 10) (zip_with Qminus eS eL))
    as (sig & Hsig & Lsig); [vm_compute; reflexivity|].
  exists eS, eL, sig. repeat split; try assumption; try apply LS;
    try apply LL; try apply Lsig.
  unfold calcular_macd.
  rewrite HS, HL, zip_with_series, Hsig, zip_with_series. reflexivity.
Qed.

(** X8.  On every output row the MACD line, its signal line and the
    histogram are defined, and the histogram is the MACD line minus the
    signal line; on the first row of a ticker all three are zero. *)
Theorem macd_histogram (sqrtQ : Q -> Q) (df : list PricePoint)
        (out : list IndicatorRow) (t : string) (i : nat)
        (r : IndicatorRow) :
  calcular_indicadores_tecnicos sqrtQ df = Ok out ->
  nth_error (out_rows_of ind_Ticker t out) i = Some r ->
  exists m s h,
    MACD r = Some m /\ MACD_Signal r = Some s /\ MACD_Hist r = Some h /\
    h = m - s /\
    (i = 0%nat -> m == 0 /\ s == 0 /\ h == 0).
Proof.
  intros Hout Hr.
  destruct (engine_row_at _ _ _ _ _ _ Hout Hr)
    as (mx & mn & u & nivel & p & _ & Hp & ->).
  assert (Hi := row_position sqrtQ df t i p Hp).
  set (closes := map Close (rows_of t (sort_values df))) in *.
  destruct (indicador_fila_cols sqrtQ (rows_of t (sort_values df))
                                (fib_levels mx mn) nivel
                                (estado_fib_of nivel) i p)
    as (_ & _ & _ & _ & Em & Es & Eh & _).
  fold closes in Em, Es, Eh.
  destruct (calcular_macd_finite closes)
    as (eS & eL & sig & LS & LL & Lsig & Hm).
  rewrite Hm in Em, Es, Eh. cbn [fst snd] in Em, Es, Eh.
  assert (LeS : length eS = length closes) by apply LS.
  assert (LeL : length eL = length closes) by apply LL.
  assert (Lz : length (zip_with Qminus eS eL) = length closes)
    by (rewrite zip_with_length; lia).
  assert (Lg : length sig = length closes)
    by (rewrite (ema_law_length _ _ _ Lsig); exact Lz).
  rewrite nth_series_zip_minus in Em by lia.
  rewrite nth_series in Es by lia.
  rewrite nth_series_zip_minus in Eh by lia.
  rewrite (nth_zip_with _ _ _ _ 0 0) in Eh by lia.
  do 3 eexists.
  split; [exact Em|]. split; [exact Es|]. split; [exact Eh|].
  split; [reflexivity|].
  intros ->.
  assert (E0 : nth 0 eS 0 - nth 0 eL 0 == 0).
  { rewrite (nth_error_nth_0 closes eS) by apply LS.
    rewrite (nth_error_nth_0 closes eL) by apply LL. ring. }
  assert (E1 : nth 0 sig 0 = nth 0 (zip_with Qminus eS eL) 0)
    by (apply nth_error_nth_0; apply Lsig).
  rewrite (nth_zip_with _ _ _ _ 0 0) in E1 by lia.
  rewrite E1. split; [exact E0|]. split; [exact E0|].
  rewrite E0. ring.
Qed.

Lemma macd_histogram_witness :
  exists out r m s h,
    calcular_indicadores_tecnicos sqrt6 df_example = Ok out /\
    nth_error (out_rows_of ind_Ticker "A" out) 2 = Some r /\
    MACD r = Some m /\ MACD_Signal r = Some s /\ MACD_Hist r = Some h /\
    h = m - s.
Proof.
  destruct (calcular_indicadores_tecnicos sqrt6 df_example) as [out|e] eqn:H1;
    [|vm_compute in H1; discriminate].
  destruct (nth_error (out_rows_of ind_Ticker "A" out) 2) as [r|] eqn:Hr.
  - destruct (macd_histogram sqrt6 df_example out "A" 2 r H1 Hr)
      as (m & s & h & A & B & C & D & _).
    exists out, r, m, s, h. repeat split; assumption.
  - exfalso. vm_compute in H1. injection H1 as <-. discriminate Hr.
Defined.

Lemma ema_law_bounds (a lo hi : Q) (xs ys : list Q) :
  0 <= a -> a <= 1 -> ema_law a xs ys ->
  (forall x, In x xs -> lo <= x /\ x <= hi) ->
  forall i, (i < length xs)%nat -> lo <= nth i ys 0 /\ nth i ys 0 <= hi.
Proof.
  intros Ha0 Ha1 (Hlen & H0 & Hrec) Hb.
  induction i as [|i IH]; intros Hi.
  - rewrite (nth_error_nth_0 xs ys H0). apply Hb, nth_In, Hi.
  - destruct (IH ltac:(lia)) as [Il Iu].
    destruct (Hb (nth (S i) xs 0) (nth_In _ _ Hi)) as [Xl Xu].
    rewrite (Hrec i Hi).
    set (x := nth (S i) xs 0) in *. set (y := nth i ys 0) in *.
    assert (A1 : 0 <= a * (x - lo)) by (apply Qmult_le_0_compat; lra).
    assert (A2 : 0 <= (1 - a) * (y - lo)) by (apply Qmult_le_0_compat; lra).
    assert (A3 : 0 <= a * (hi - x)) by (apply Qmult_le_0_compat; lra).
    assert (A4 : 0 <= (1 - a) * (hi - y)) by (apply Qmult_le_0_compat; lra).
    split.
    + setoid_replace (a * x + (1 - a) * y)
        with (lo + (a * (x - lo) + (1 - a) * (y - lo))) by ring. lra.
    + setoid_replace (a * x + (1 - a) * y)
        with (hi - (a * (hi - x) + (1 - a) * (hi - y))) by ring. lra.
Qed.

(** X9.  On every output row EMA_20 is defined and lies between the
    smallest and the largest close of the ticker, that is between the
    100% and the 0.0% levels of the row. *)
Theorem ema_within_range (sqrtQ : Q -> Q) (df : list PricePoint)
        (out : list IndicatorRow) (r : IndicatorRow) :
  calcular_indicadores_tecnicos sqrtQ df = Ok out ->
  In r out ->
  exists e, EMA_20 r = Some e /\ Fib_100 r <= e /\ e <= Fib_0_0 r.
Proof.
  intros Hout Hr.
  destruct (engine_row_inv _ _ _ _ Hout Hr)
    as (mx & mn & u & nivel & i & p & (Hmx & Hmn & _) & Hp & E).
  set (t := ind_Ticker r) in *.
  assert (Hi := row_position sqrtQ df t i p Hp).
  set (closes := map Close (rows_of t (sort_values df))) in *.
  destruct (indicador_fila_cols sqrtQ (rows_of t (sort_values df))
                                (fib_levels mx mn) nivel
                                (estado_fib_of nivel) i p)
    as (_ & _ & Ee & _).
  destruct (indicador_fila_fib sqrtQ (rows_of t (sort_values df)) mx mn
                               nivel (estado_fib_of nivel) i p)
    as (_ & _ & F0 & _ & _ & _ & _ & F100).
  rewrite <- E in Ee, F0, F100. fold closes in Ee.
  destruct (ewm_mean_law 20 (2 / 21) closes) as (e20 & H20 & L20);
    [vm_compute; reflexivity|].
  rewrite H20, nth_series in Ee
    by (rewrite (ema_law_length _ _ _ L20); exact Hi).
  exists (nth i e20 0). split; [exact Ee|].
  rewrite F0, F100.
  apply (ema_law_bounds (2 / 21) mn mx closes e20);
    [discriminate|discriminate|exact L20| |exact Hi].
  intros x Hx.
  destruct (series_max_spec _ _ Hmx) as [_ Bmx].
  destruct (series_min_spec _ _ Hmn) as [_ Bmn].
  split; [apply Bmn|apply Bmx]; exact Hx.
Qed.

Lemma ema_within_range_witness :
  exists out r e,
    calcular_indicadores_tecnicos sqrt6 df_example = Ok out /\
    In r out /\ EMA_20 r = Some e /\ Fib_100 r <= e /\ e <= Fib_0_0 r.
Proof.
  destruct (calcular_indicadores_tecnicos sqrt6 df_example) as [out|e] eqn:H1;
    [|vm_compute in H1; discriminate].
  destruct out as [|r out]; [vm_compute in H1; discriminate|].
  assert (Hr : In r (r :: out)) by (left; reflexivity).
  destruct (ema_within_range sqrt6 df_example (r :: out) r H1 Hr)
    as (e & A & B & C).
  exists (r :: out), r, e. repeat split; assumption.
Defined.

(* ------------------------------------------------------------------ *)
(** ** RSI on one-sided windows *)

Lemma Qlen_pos (l : list Q) : l <> [] -> 0 < Qlen l.
Proof.
  intros H. unfold Qlen. change 0 with (inject_Z 0). rewrite <- Zlt_Qlt.
  destruct l; [congruence|simpl; lia].
Qed.

Lemma Qsum_zero (l : list Q) :
  (forall x, In x l -> x == 0) -> Qsum l == 0.
Proof.
  induction l as [|a l IH]; intros H; simpl; [reflexivity|].
  rewrite (H a (or_introl eq_refl)), IH; [ring|].
  intros; apply H; right; assumption.
Qed.

Lemma Qsum_pos (l : list Q) :
  (forall x, In x l -> 0 <= x) -> (exists x, In x l /\ 0 < x) ->
  0 < Qsum l.
Proof.
  induction l as [|a l IH]; intros H (x & Hx & Hpos); [contradiction|].
  simpl.
  assert (Ha : 0 <= a) by (apply H; left; reflexivity).
  assert (Hl : 0 <= Qsum l)
    by (apply Qsum_nonneg; intros; apply H; right; assumption).
  destruct Hx as [->|Hx]; [lra|].
  assert (0 < Qsum l); [|lra].
  apply IH; [intros; apply H; right; assumption|].
  exists x; auto.
Qed.

Lemma mean_zero (l : list Q) :
  (forall x, In x l -> x == 0) -> mean l == 0.
Proof.
  intros H. unfold mean, Qdiv. rewrite (Qsum_zero l H). ring.
Qed.

Lemma mean_pos (l : list Q) :
  (forall x, In x l -> 0 <= x) -> (exists x, In x l /\ 0 < x) ->
  0 < mean l.
Proof.
  intros H Hex. unfold mean.
  assert (Hne : l <> []) by (destruct Hex as (x & Hx & _); intro; subst; auto).
  apply Qlt_shift_div_l; [apply Qlen_pos, Hne|].
  assert (S := Qsum_pos l H Hex). lra.
Qed.

Lemma gain_at_cases (close : list Q) (j : nat) :
  0 <= gain_at close j /\
  (nth (j - 1) close 0 < nth j close 0 -> 0 < gain_at close j) /\
  (nth j close 0 <= nth (j - 1) close 0 -> gain_at close j == 0).
Proof.
  unfold gain_at. repeat split.
  - apply Q.le_max_r.
  - intros H. eapply Qlt_le_trans; [|apply Q.le_max_l]. lra.
  - intros H. apply Q.max_r. lra.
Qed.

Lemma loss_at_cases (close : list Q) (j : nat) :
  0 <= loss_at close j /\
  (nth j close 0 < nth (j - 1) close 0 -> 0 < loss_at close j) /\
  (nth (j - 1) close 0 <= nth j close 0 -> loss_at close j == 0).
Proof.
  unfold loss_at. repeat split.
  - assert (H := Q.le_min_r (nth j close 0 - nth (j - 1) close 0) 0). lra.
  - intros H.
    assert (H' := Q.le_min_l (nth j close 0 - nth (j - 1) close 0) 0). lra.
  - intros H. rewrite Q.min_r by lra. ring.
Qed.

(** X10.  RSI_14 is NaN on the first 14 days of a series.  From day 14
    on, when no close of the 14 latest days is below the one of the day
    before and at least one is above, the index is 100; when none is
    above and at least one is below, it is 0; and when no close moved it
    is NaN. *)
Theorem rsi_one_sided_window (close : list Q) (i : nat) :
  (i < length close)%nat ->
  let v := nth i (calcular_rsi close 14) NaN in
  let days := seq (i + 1 - 14) 14 in
  ((i < 14)%nat -> v = NaN) /\
  ((14 <= i)%nat ->
   ((forall j, In j days -> nth (j - 1) close 0 <= nth j close 0) ->
    (exists j, In j days /\ nth (j - 1) close 0 < nth j close 0) ->
    feq v (Fin 100)) /\
   ((forall j, In j days -> nth j close 0 <= nth (j - 1) close 0) ->
    (exists j, In j days /\ nth j close 0 < nth (j - 1) close 0) ->
    feq v (Fin 0)) /\
   ((forall j, In j days -> nth j close 0 == nth (j - 1) close 0) ->
    v = NaN)).
Proof.
  intros Hi v days.
  assert (Eg : nth i (rsi_avg_gain close 14) None
               = if (14 <=? i)%nat
                 then Some (mean (map (gain_at close) days)) else None).
  { unfold rsi_avg_gain. apply nth_rolling_from_1; [lia| |].
    - rewrite rsi_gain_length. exact Hi.
    - intros j Hj. apply nth_rsi_gain. rewrite <- rsi_gain_length. exact Hj. }
  assert (El : nth i (rsi_avg_loss close 14) None
               = if (14 <=? i)%nat
                 then Some (mean (map (loss_at close) days)) else None).
  { unfold rsi_avg_loss. apply nth_rolling_from_1; [lia| |].
    - rewrite rsi_loss_length. exact Hi.
    - intros j Hj. apply nth_rsi_loss. rewrite <- rsi_loss_length. exact Hj. }
  assert (Ev : v = rsi_of (cell_div (nth i (rsi_avg_gain close 14) None)
                                    (nth i (rsi_avg_loss close 14) None)))
    by (apply nth_calcular_rsi; exact Hi).
  rewrite Eg, El in Ev. clear Eg El.
  split.
  - intros Hlt. destruct (Nat.leb_spec 14 i); [lia|]. exact Ev.
  - intros Hge. destruct (Nat.leb_spec 14 i); [|lia].
    set (a := mean (map (gain_at close) days)) in *.
    set (b := mean (map (loss_at close) days)) in *.
    assert (Ha : 0 <= a).
    { apply mean_nonneg. intros x Hx. apply in_map_iff in Hx.
      destruct Hx as (j & <- & _). apply gain_at_cases. }
    assert (Hb : 0 <= b).
    { apply mean_nonneg. intros x Hx. apply in_map_iff in Hx.
      destruct Hx as (j & <- & _). apply loss_at_cases. }
    destruct (rsi_of_cases a b Ha Hb) as (C1 & C2 & C3).
    rewrite Ev. repeat split.
    + intros Hup (j & Hj & Hlt). apply C2.
      * apply mean_zero. intros x Hx. apply in_map_iff in Hx.
        destruct Hx as (k & <- & Hk). apply loss_at_cases, Hup, Hk.
      * apply mean_pos.
        -- intros x Hx. apply in_map_iff in Hx.
           destruct Hx as (k & <- & _). apply gain_at_cases.
        -- exists (gain_at close j). split; [apply in_map, Hj|].
           apply gain_at_cases, Hlt.
    + intros Hdown (j & Hj & Hlt).
      assert (Ea : a == 0).
      { apply mean_zero. intros x Hx. apply in_map_iff in Hx.
        destruct Hx as (k & <- & Hk). apply gain_at_cases, Hdown, Hk. }
      assert (Pb : 0 < b).
      { apply mean_pos.
        - intros x Hx. apply in_map_iff in Hx.
          destruct Hx as (k & <- & _). apply loss_at_cases.
        - exists (loss_at close j). split; [apply in_map, Hj|].
          apply loss_at_cases, Hlt. }
      destruct (C1 Pb) as (x & Ex & Vx & _). rewrite Ex. simpl.
      rewrite Vx, Ea. unfold Qdiv. rewrite Qmult_0_l.
      reflexivity.
    + intros Hflat. apply C3.
      * apply mean_zero. intros x Hx. apply in_map_iff in Hx.
        destruct Hx as (k & <- & Hk). apply loss_at_cases.
        rewrite (Hflat k Hk). apply Qle_refl.
      * apply mean_zero. intros x Hx. apply in_map_iff in Hx.
        destruct Hx as (k & <- & Hk). apply gain_at_cases.
        rewrite (Hflat k Hk). apply Qle_refl.
Qed.

Lemma rsi_one_sided_window_witness :
  let close := map Close df_twenty in
  (19 < length close)%nat /\ (14 <= 19)%nat /\
  (forall j, In j (seq (19 + 1 - 14) 14) ->
             nth (j - 1) close 0 <= nth j close 0) /\
  (exists j, In j (seq (19 + 1 - 14) 14) /\
             nth (j - 1) close 0 < nth j close 0) /\
  nth 5 (calcular_rsi close 14) NaN = NaN /\
  feq (nth 19 (calcular_rsi close 14) NaN) (Fin 100).
Proof.
  intros close.
  assert (Hi : (19 < length close)%nat) by (vm_compute; lia).
  assert (H5 : (5 < length close)%nat) by (vm_compute; lia).
  assert (Hge : (14 <= 19)%nat) by lia.
  assert (Hup : forall j, In j (seq (19 + 1 - 14) 14) ->
                          nth (j - 1) close 0 <= nth j close 0).
  { intros j Hj. simpl in Hj.
    repeat (destruct Hj as [<-|Hj]; [vm_compute; discriminate|]).
    contradiction. }
  assert (Hex : exists j, In j (seq (19 + 1 - 14) 14) /\
                          nth (j - 1) close 0 < nth j close 0).
  { exists 19%nat. split; [simpl; tauto|vm_compute; reflexivity]. }
  split; [exact Hi|]. split; [exact Hge|]. split; [exact Hup|].
  split; [exact Hex|]. split.
  - apply (proj1 (rsi_one_sided_window close 5 H5)). lia.
  - exact (proj1 (proj2 (rsi_one_sided_window close 19 Hi) Hge) Hup Hex).
Defined.

(* ------------------------------------------------------------------ *)
(** ** Sign of the true range and of ATR *)

Lemma true_range_at_bounds (high low close : list Q) (i : nat) :
  nth i high 0 - nth i low 0 <= true_range_at high low close i /\
  ((1 <= i)%nat -> 0 <= true_range_at high low close i).
Proof.
  destruct i as [|j]; cbn [true_range_at].
  - split; [apply Qle_refl|lia].
  - split.
    + eapply Qle_trans; [|apply Q.le_max_l]. apply Q.le_max_l.
    + intros _. eapply Qle_trans; [|apply Q.le_max_r]. apply Qabs_nonneg.
Qed.

(** X11.  The true range of a day is defined and never below the high
    minus the low of the day; from the second day on it is never
    negative, whatever the prices; and ATR_14 from index 14 on is defined
    and never negative. *)
Theorem true_range_sign (high low close : list Q) (i : nat) :
  length high = length close -> length low = length close ->
  (i < length close)%nat ->
  (exists tr,
      nth i (true_range high low close) None = Some tr /\
      nth i high 0 - nth i low 0 <= tr /\
      ((1 <= i)%nat -> 0 <= tr)) /\
  ((14 <= i)%nat ->
   exists atr,
     nth i (calcular_atr high low close 14) None = Some atr /\ 0 <= atr).
Proof.
  intros Hh Hl Hi. split.
  - exists (true_range_at high low close i).
    split; [apply nth_true_range; assumption|].
    apply true_range_at_bounds.
  - intros H14. eexists. split.
    + unfold calcular_atr.
      apply (nth_rolling_mean_defined 14 i _ (true_range_at high low close)).
      * rewrite true_range_length; assumption.
      * lia.
      * intros j Hj. apply nth_true_range; try assumption. lia.
    + apply mean_nonneg. intros x Hx. apply in_map_iff in Hx.
      destruct Hx as (j & <- & Hj). apply in_seq in Hj.
      apply true_range_at_bounds. lia.
Qed.

Lemma true_range_sign_witness :
  let high := map High df_twenty in
  let low := map Low df_twenty in
  let close := map Close df_twenty in
  length high = length close /\ length low = length close /\
  (19 < length close)%nat /\ (14 <= 19)%nat /\
  exists atr,
    nth 19 (calcular_atr high low close 14) None = Some atr /\ 0 <= atr.
Proof.
  intros high low close.
  assert (Hh : length high = length close) by reflexivity.
  assert (Hl : length low = length close) by reflexivity.
  assert (Hi : (19 < length close)%nat) by (vm_compute; lia).
  assert (H14 : (14 <= 19)%nat) by lia.
  split; [exact Hh|]. split; [exact Hl|]. split; [exact Hi|].
  split; [exact H14|].
  exact (proj2 (true_range_sign high low close 19 Hh Hl Hi) H14).
Defined.

(* ------------------------------------------------------------------ *)
(** ** The nearest level at the extremes *)

Lemma Qltb_true_intro (x y : Q) : x < y -> Qltb x y = true.
Proof.
  intros H. unfold Qltb.
  replace (x ?= y) with Lt by (symmetry; apply (proj1 (Qlt_alt x y)), H).
  reflexivity.
Qed.

Lemma Qltb_false_intro (x y : Q) : y <= x -> Qltb x y = false.
Proof.
  intros H. destruct (Qltb x y) eqn:E; [|reflexivity].
  apply Qltb_true in E. lra.
Qed.

Lemma min_key_from_keep (items : list (string * Q)) (best : string * Q) :
  (forall e, In e items -> snd best <= snd e) ->
  min_key_from best items = fst best.
Proof.
  revert best; induction items as [|kv items IH]; intros best H; simpl;
    [reflexivity|].
  rewrite Qltb_false_intro by (apply H; left; reflexivity).
  apply IH. intros; apply H; right; assumption.
Qed.

Lemma Ok_inj {A : Type} (a b : A) : Ok a = Ok b -> a = b.
Proof. congruence. Qed.

Lemma Qabs_of_neg (x y : Q) : 0 <= y -> x == - y -> Qabs x == y.
Proof.
  intros Hy E. rewrite E, Qabs_opp. apply Qabs_pos, Hy.
Qed.

Lemma nearest_at_max (u mx mn : Q) (nivel : string) :
  u == mx ->
  min_key (fib_diffs u (fib_levels mx mn)) = Ok nivel ->
  nivel = "0.0%"%string.
Proof.
  intros E H. unfold fib_levels, fib_diffs, min_key in H.
  apply Ok_inj in H. rewrite <- H. clear H nivel.
  apply min_key_from_keep. intros e He. cbn [snd].
  assert (Z : Qabs (u - mx) == 0).
  { setoid_replace (u - mx) with 0 by (rewrite E; ring). reflexivity. }
  rewrite Z.
  cbn [In] in He.
  repeat (destruct He as [<-|He]; [cbn [snd]; apply Qabs_nonneg|]).
  contradiction.
Qed.

Lemma nearest_at_min (u mx mn : Q) (nivel : string) :
  u == mn -> mn < mx ->
  min_key (fib_diffs u (fib_levels mx mn)) = Ok nivel ->
  nivel = "100%"%string.
Proof.
  intros E Hlt H. unfold fib_levels, fib_diffs, min_key in H.
  apply Ok_inj in H. rewrite <- H. clear H nivel.
  set (D := mx - mn).
  assert (HD : 0 < D) by (unfold D; lra).
  assert (E0 : Qabs (u - mx) == D)
    by (apply Qabs_of_neg; [lra|rewrite E; unfold D; ring]).
  assert (E1 : Qabs (u - (mx - D * 0.236)) == 0.764 * D)
    by (apply Qabs_of_neg; [lra|rewrite E; unfold D; ring]).
  assert (E2 : Qabs (u - (mx - D * 0.382)) == 0.618 * D)
    by (apply Qabs_of_neg; [lra|rewrite E; unfold D; ring]).
  assert (E3 : Qabs (u - (mx - D * 0.50)) == 0.5 * D)
    by (apply Qabs_of_neg; [lra|rewrite E; unfold D; ring]).
  assert (E4 : Qabs (u - (mx - D * 0.618)) == 0.382 * D)
    by (apply Qabs_of_neg; [lra|rewrite E; unfold D; ring]).
  assert (E5 : Qabs (u - mn) == 0).
  { setoid_replace (u - mn) with 0 by (rewrite E; ring). reflexivity. }
  assert (L1 : Qabs (u - (mx - D * 0.236)) < Qabs (u - mx))
    by (rewrite E1, E0; lra).
  assert (L2 : Qabs (u - (mx - D * 0.382)) < Qabs (u - (mx - D * 0.236)))
    by (rewrite E2, E1; lra).
  assert (L3 : Qabs (u - (mx - D * 0.50)) < Qabs (u - (mx - D * 0.382)))
    by (rewrite E3, E2; lra).
  assert (L4 : Qabs (u - (mx - D * 0.618)) < Qabs (u - (mx - D * 0.50)))
    by (rewrite E4, E3; lra).
  assert (L5 : Qabs (u - mn) < Qabs (u - (mx - D * 0.618)))
    by (rewrite E5, E4; lra).
  cbn [min_key_from snd fst].
  rewrite (Qltb_true_intro _ _ L1), (Qltb_true_intro _ _ L2),
    (Qltb_true_intro _ _ L3), (Qltb_true_intro _ _ L4),
    (Qltb_true_intro _ _ L5).
  reflexivity.
Qed.

(** X12.  When the most recent close of a ticker is its largest close,
    every row of the ticker has nearest level 0.0% and state RESISTENCIA;
    this includes a ticker whose closes are all equal, such as a ticker
    with a single row.  When the most recent close is the smallest close
    and the closes are not all equal, the nearest level is 100% and the
    state NEUTRO. *)
Theorem fibonacci_at_extremes (sqrtQ : Q -> Q) (df : list PricePoint)
        (out : list IndicatorRow) (r : IndicatorRow) :
  calcular_indicadores_tecnicos sqrtQ df = Ok out ->
  In r out ->
  exists p,
    most_recent df (ind_Ticker r) p /\
    (Close p == Fib_0_0 r ->
     Nivel_Fib_Cercano r = "0.0%"%string /\
     Estado_Fibonacci r = "RESISTENCIA"%string) /\
    (Fib_100 r == Fib_0_0 r ->
     Nivel_Fib_Cercano r = "0.0%"%string /\
     Estado_Fibonacci r = "RESISTENCIA"%string) /\
    (Close p == Fib_100 r -> Fib_100 r < Fib_0_0 r ->
     Nivel_Fib_Cercano r = "100%"%string /\
     Estado_Fibonacci r = "NEUTRO"%string).
Proof.
  intros Hout Hr.
  destruct (engine_row_inv _ _ _ _ Hout Hr)
    as (mx & mn & u & nivel & i & p0 & (Hmx & Hmn & Hu & Hk) & _ & E).
  set (t := ind_Ticker r) in *.
  destruct (ultimo_most_recent _ _ _ Hu) as (p & Hp & Hpt & Eu & Hlast).
  destruct (indicador_fila_fib sqrtQ (rows_of t (sort_values df)) mx mn
                               nivel (estado_fib_of nivel) i p0)
    as (N & S & F0 & _ & _ & _ & _ & F100).
  rewrite <- E in N, S, F0, F100. rewrite N, S, F0, F100. clear E.
  assert (Hin : In (Close p) (map Close (rows_of t (sort_values df)))).
  { apply in_map, rows_of_In. rewrite sort_values_In. auto. }
  destruct (series_max_spec _ _ Hmx) as [_ Bmx].
  destruct (series_min_spec _ _ Hmn) as [_ Bmn].
  assert (Hle := Bmx _ Hin). assert (Hge := Bmn _ Hin).
  subst u.
  exists p. split; [repeat split; assumption|].
  assert (A : Close p == mx -> nivel = "0.0%"%string /\
                              estado_fib_of nivel = "RESISTENCIA"%string).
  { intros Em. rewrite (nearest_at_max _ _ _ _ Em Hk). auto. }
  split; [exact A|]. split.
  - intros Eq. apply A. lra.
  - intros Em Hlt. rewrite (nearest_at_min _ _ _ _ Em Hlt Hk). auto.
Qed.

Lemma fibonacci_at_extremes_witness :
  exists out r,
    calcular_indicadores_tecnicos sqrt6 df_example = Ok out /\
    In r out /\
    Nivel_Fib_Cercano r = "0.0%"%string /\
    Estado_Fibonacci r = "RESISTENCIA"%string.
Proof.
  destruct (calcular_indicadores_tecnicos sqrt6 df_example) as [out|e] eqn:H1;
    [|vm_compute in H1; discriminate].
  destruct out as [|r out]; [vm_compute in H1; discriminate|].
  assert (Hr : In r (r :: out)) by (left; reflexivity).
  destruct (fibonacci_at_extremes sqrt6 df_example (r :: out) r H1 Hr)
    as (p & (Hp & Ht & Hlast) & A & _).
  exists (r :: out), r. split; [reflexivity|]. split; [exact Hr|].
  apply A.
  vm_compute in H1. injection H1 as <- _.
  cbn [ind_Ticker Fib_0_0] in *.
  simpl in Hp.
  destruct Hp as [<-|[<-|[<-|[]]]].
  - reflexivity.
  - exfalso. specialize (Hlast (mkPricePoint 3 "A" 121 121 121 121 10)).
    cbn in Hlast. assert (3 <= 1)%Z; [apply Hlast; auto|lia].
  - exfalso. specialize (Hlast (mkPricePoint 3 "A" 121 121 121 121 10)).
    cbn in Hlast. assert (3 <= 2)%Z; [apply Hlast; auto|lia].
Defined.

(* ------------------------------------------------------------------ *)
(** ** The percentages and the decision *)

Lemma n_present_le (d : senales) (keys : list string) :
  (n_present d keys <= length keys)%nat.
Proof. unfold n_present. apply filter_length_le. Qed.

Lemma count_senal_le (v : Senal) (d : senales) :
  (count_senal v d <= length d)%nat.
Proof. unfold count_senal. apply filter_length_le. Qed.

Lemma pct_on_grid (c n : nat) :
  (c <= n)%nat -> (1 <= n <= 4)%nat ->
  Exists (Qeq (round_dec 2 (Qnat c / Qnat n * 100))) pct_values.
Proof.
  intros Hc Hn.
  destruct n as [|[|[|[|[|n]]]]]; try lia;
    destruct c as [|[|[|[|[|c]]]]]; try lia;
    unfold pct_values;
    repeat first [ apply Exists_cons_hd; vm_compute; reflexivity
                 | apply Exists_cons_tl ].
Qed.

Lemma pct_at_least_25 (c n : nat) :
  (1 <= c <= n)%nat -> (n <= 4)%nat ->
  25 <= round_dec 2 (Qnat c / Qnat n * 100).
Proof.
  intros Hc Hn.
  destruct n as [|[|[|[|[|n]]]]]; try lia;
    destruct c as [|[|[|[|[|c]]]]]; try lia;
    apply Qle_bool_iff; vm_compute; reflexivity.
Qed.

Lemma pct_buy_cases (d : senales) :
  (length d <= 4)%nat ->
  pct_cell_ok (pct_buy d) /\
  (pct_buy d = None -> d = []) /\
  ((1 <= count_senal COMPRAR d)%nat ->
   exists q, pct_buy d = Some q /\ 25 <= q).
Proof.
  intros Hl. unfold pct_buy.
  pose proof (count_senal_le COMPRAR d) as Hc.
  destruct (length d) as [|n] eqn:En.
  - cbn. split; [exact I|]. split.
    + intros _. destruct d; [reflexivity|discriminate].
    + lia.
  - cbn [Nat.ltb Nat.leb]. split; [|split].
    + cbn [pct_cell_ok]. apply pct_on_grid; lia.
    + discriminate.
    + intros H1. eexists. split; [reflexivity|].
      apply pct_at_least_25; lia.
Qed.

Lemma senales_tec_length (row : JoinedRow) :
  (length (señales_tec row) <= 4)%nat.
Proof.
  destruct (senales_tec_facts row) as (_ & L & _). rewrite L.
  apply (n_present_le _ tec_keys).
Qed.

Lemma senales_fund_length (row : JoinedRow) :
  (length (señales_fund row) <= 4)%nat.
Proof.
  destruct (senales_fund_facts row) as (_ & L & _). rewrite L.
  apply (n_present_le _ fund_keys).
Qed.

(** X13.  Each of the two percentages of a summary row is NaN or one of
    0, 25, 33.33, 50, 66.67, 75 and 100.  A row decided COMPRAR has a
    percentage of at least 25, and a row whose two percentages are NaN
    (no signal could be computed) is decided MANTENER. *)
Theorem percentages_and_decision (row : JoinedRow) :
  let r := resumen_fila row in
  pct_cell_ok (pct_tecnico_buy r) /\
  pct_cell_ok (pct_fundamental_buy r) /\
  (Decision_Final r = COMPRAR ->
   exists q, 25 <= q /\
             (pct_tecnico_buy r = Some q \/ pct_fundamental_buy r = Some q)) /\
  (pct_tecnico_buy r = None -> pct_fundamental_buy r = None ->
   Decision_Final r = MANTENER).
Proof.
  intros r.
  destruct (pct_buy_cases _ (senales_tec_length row)) as (Gt & Nt & Bt).
  destruct (pct_buy_cases _ (senales_fund_length row)) as (Gf & Nf & Bf).
  unfold r, resumen_fila;
    cbn [pct_tecnico_buy pct_fundamental_buy Decision_Final].
  split; [exact Gt|]. split; [exact Gf|]. split.
  - intros HD.
    destruct (count_senal VENDER (señales_tec row)
              + count_senal VENDER (señales_fund row)
              <? count_senal COMPRAR (señales_tec row)
                 + count_senal COMPRAR (señales_fund row))%nat eqn:E.
    + apply Nat.ltb_lt in E.
      destruct (count_senal COMPRAR (señales_tec row)) as [|c] eqn:Ec.
      * destruct Bf as (q & Hq & Hle); [lia|]. exists q; auto.
      * destruct Bt as (q & Hq & Hle); [lia|]. exists q; auto.
    + destruct (_ <? _)%nat in HD; discriminate.
  - intros H1 H2. rewrite (Nt H1), (Nf H2). reflexivity.
Qed.

Lemma percentages_and_decision_witness :
  let row :=
    {| row_Ticker := "A"; row_Close := Fin 10;
       row_SMA_20 := Fin 105; row_EMA_20 := Fin 100;
       row_MACD := NaN; row_MACD_Signal := NaN;
       row_RSI_14 := Fin 50;
       row_BB_Upper := NaN; row_BB_Lower := NaN;
       row_Estado_Fibonacci := Some "NEUTRO"%string;
       row_PER := Fin 25; row_ROE := NaN;
       row_EPS_Growth_YoY := NaN;
       row_Deuda_Patrimonio := NaN |} in
  Decision_Final (resumen_fila row) = COMPRAR /\
  exists q, 25 <= q /\
            (pct_tecnico_buy (resumen_fila row) = Some q \/
             pct_fundamental_buy (resumen_fila row) = Some q).
Proof.
  intros row.
  assert (H : Decision_Final (resumen_fila row) = COMPRAR) by reflexivity.
  split; [exact H|].
  exact (proj1 (proj2 (proj2 (percentages_and_decision row))) H).
Defined.

(* ------------------------------------------------------------------ *)
(** ** The order of the input rows *)

Lemma ticker_date_le_antisym (a b : PricePoint) :
  ticker_date_le a b -> ticker_date_le b a -> clave a = clave b.
Proof.
  unfold ticker_date_le, ticker_date_leb, clave.
  pose proof (String.compare_antisym (Ticker a) (Ticker b)) as An.
  destruct (String.compare (Ticker a) (Ticker b)) eqn:E;
    destruct (String.compare (Ticker b) (Ticker a)); try discriminate.
  apply String.compare_eq_iff in E.
  intros H1 H2. apply Z.leb_le in H1, H2.
  f_equal; [exact E|lia].
Qed.

Lemma NoDup_map_eq {A B} (f : A -> B) (l : list A) (a b : A) :
  NoDup (map f l) -> In a l -> In b l -> f a = f b -> a = b.
Proof.
  induction l as [|x l IH]; intros ND Ha Hb E; [contradiction|].
  cbn [map] in ND. inversion ND as [|? ? Hx ND']; subst.
  destruct Ha as [<-|Ha], Hb as [<-|Hb].
  - reflexivity.
  - exfalso. apply Hx. rewrite E. apply in_map, Hb.
  - exfalso. apply Hx. rewrite <- E. apply in_map, Ha.
  - apply IH; assumption.
Qed.

Lemma sorted_perm_unique {A} (R : A -> A -> Prop) (l1 l2 : list A) :
  (forall a b, In a l1 -> In b l1 -> R a b -> R b a -> a = b) ->
  (forall a, In a l1 -> R a a) ->
  StronglySorted R l1 -> StronglySorted R l2 -> Permutation l1 l2 ->
  l1 = l2.
Proof.
  revert l2. induction l1 as [|x l1 IH]; intros l2 Anti Refl S1 S2 P.
  - apply Permutation_nil in P. congruence.
  - destruct l2 as [|y l2];
      [apply Permutation_sym, Permutation_nil in P; discriminate|].
    apply StronglySorted_inv in S1, S2.
    destruct S1 as [S1 F1], S2 as [S2 F2].
    rewrite Forall_forall in F1, F2.
    assert (Hy : In y (x :: l1))
      by (apply (Permutation_in _ (Permutation_sym P)); left; reflexivity).
    assert (Hx : In x (y :: l2))
      by (apply (Permutation_in _ P); left; reflexivity).
    assert (E : x = y).
    { destruct Hy as [E|Hy]; [exact E|].
      destruct Hx as [E|Hx]; [auto|].
      apply Anti; [left; reflexivity|right; exact Hy|apply F1, Hy|apply F2, Hx]. }
    subst y. f_equal.
    apply IH; auto.
    + intros a b Ha Hb. apply Anti; right; assumption.
    + intros a Ha. apply Refl; right; assumption.
    + exact (Permutation_cons_inv P).
Qed.

Lemma sort_values_perm_eq (df df' : list PricePoint) :
  Permutation df df' -> NoDup (map clave df) ->
  sort_values df' = sort_values df.
Proof.
  intros P ND. symmetry.
  assert (Ps : Permutation (sort_values df) df) by apply sort_by_perm.
  apply (sorted_perm_unique ticker_date_le).
  - intros a b Ha Hb Hab Hba.
    apply (NoDup_map_eq clave df); trivial.
    + apply (Permutation_in _ Ps), Ha.
    + apply (Permutation_in _ Ps), Hb.
    + apply ticker_date_le_antisym; assumption.
  - intros a _. unfold ticker_date_le, ticker_date_leb.
    rewrite string_compare_refl. apply Z.leb_refl.
  - apply sort_values_sorted.
  - apply sort_values_sorted.
  - rewrite Ps, P. symmetry. apply sort_by_perm.
Qed.

(** X14.  When no two rows of the price table share ticker and date, the
    order of its rows is irrelevant: the indicator table and the variation
    table computed from a rearranged table are the same, row for row. *)
Theorem row_order_irrelevant (sqrtQ : Q -> Q) (df df' : list PricePoint) :
  Permutation df df' ->
  NoDup (map clave df) ->
  calcular_indicadores_tecnicos sqrtQ df'
  = calcular_indicadores_tecnicos sqrtQ df /\
  calcular_variaciones_precios df' = calcular_variaciones_precios df.
Proof.
  intros P ND.
  unfold calcular_indicadores_tecnicos, calcular_variaciones_precios.
  rewrite (sort_values_perm_eq df df' P ND). split; reflexivity.
Qed.

Lemma row_order_irrelevant_witness :
  calcular_indicadores_tecnicos sqrt6 (rev df_example)
  = calcular_indicadores_tecnicos sqrt6 df_example /\
  calcular_variaciones_precios (rev df_example)
  = calcular_variaciones_precios df_example.
Proof.
  apply row_order_irrelevant.
  - apply Permutation_rev.
  - unfold df_example, clave; cbn [map Ticker Date].
    repeat constructor; cbn [In]; intuition congruence.
Defined.

(* ------------------------------------------------------------------ *)
(** ** One ticker at a time *)

Lemma insert_by_front (x : PricePoint) (m : list PricePoint) :
  (forall z, In z m -> ticker_date_le x z) ->
  insert_by ticker_date_leb x m = x :: m.
Proof.
  destruct m as [|y m]; intros H; [reflexivity|].
  cbn [insert_by]. rewrite (H y (or_introl eq_refl)). reflexivity.
Qed.

Lemma rows_of_insert_by (t : string) (x : PricePoint)
      (l : list PricePoint) :
  StronglySorted ticker_date_le l ->
  rows_of t (insert_by ticker_date_leb x l)
  = if String.eqb (Ticker x) t
    then insert_by ticker_date_leb x (rows_of t l)
    else rows_of t l.
Proof.
  induction 1 as [|y l S IH F]; cbn [insert_by].
  - unfold rows_of; cbn [filter insert_by].
    destruct (String.eqb (Ticker x) t); reflexivity.
  - destruct (ticker_date_leb x y) eqn:E.
    + change (rows_of t (x :: y :: l))
        with (if String.eqb (Ticker x) t
              then x :: rows_of t (y :: l) else rows_of t (y :: l)).
      destruct (String.eqb (Ticker x) t); [|reflexivity].
      symmetry. apply insert_by_front. intros z Hz.
      apply rows_of_In in Hz. destruct Hz as [[<-|Hz] _]; [exact E|].
      rewrite Forall_forall in F.
      exact (ticker_date_le_trans _ _ _ E (F z Hz)).
    + change (rows_of t (y :: insert_by ticker_date_leb x l))
        with (if String.eqb (Ticker y) t
              then y :: rows_of t (insert_by ticker_date_leb x l)
              else rows_of t (insert_by ticker_date_leb x l)).
      change (rows_of t (y :: l))
        with (if String.eqb (Ticker y) t
              then y :: rows_of t l else rows_of t l).
      rewrite IH.
      destruct (String.eqb (Ticker y) t), (String.eqb (Ticker x) t);
        try reflexivity.
      cbn [insert_by]. rewrite E. reflexivity.
Qed.

(** Sorting the table and taking the rows of a ticker is sorting the rows
    of the ticker. *)
Lemma rows_of_sort_values_eq (t : string) (df : list PricePoint) :
  rows_of t (sort_values df) = sort_values (rows_of t df).
Proof.
  induction df as [|x df IH]; [reflexivity|].
  change (sort_values (x :: df))
    with (insert_by ticker_date_leb x (sort_values df)).
  rewrite rows_of_insert_by by apply sort_values_sorted.
  change (rows_of t (x :: df))
    with (if String.eqb (Ticker x) t then x :: rows_of t df
          else rows_of t df).
  rewrite IH. destruct (String.eqb (Ticker x) t); reflexivity.
Qed.

(** The rows of a ticker in the variation table are the variation rows of
    its group. *)
Lemma variaciones_rows (t : string) (df : list PricePoint) :
  out_rows_of var_Ticker t (calcular_variaciones_precios df)
  = variaciones_grupo (rows_of t (sort_values df)).
Proof.
  unfold calcular_variaciones_precios.
  set (sdf := sort_values df).
  set (F := fun (i : nat) (p : PricePoint) => _).
  assert (TK : forall i p, var_Ticker (F i p) = Ticker p) by reflexivity.
  apply nth_error_ext. intros j.
  unfold variaciones_grupo, imap at 2. rewrite nth_error_imap_from.
  destruct (nth_error (rows_of t sdf) j) as [p|] eqn:Hp.
  - destruct (rows_of_imap_from var_Ticker F TK t sdf 0 j p Hp)
      as (idx & H1 & H2 & H3).
    unfold imap. rewrite H3. cbn [option_map Nat.add]. f_equal.
    unfold F. f_equal. apply map_ext. intros nd. f_equal.
    rewrite (nth_var_column _ _ _ p H1).
    rewrite (rows_of_ticker _ _ _ _ Hp), H2. reflexivity.
  - cbn [option_map]. apply nth_error_None.
    unfold imap. rewrite (out_rows_of_imap_from_length var_Ticker F TK).
    apply nth_error_None, Hp.
Qed.

(** X15.  The output rows of a ticker depend on the input rows of that
    ticker only: two price tables that hold the same rows of a ticker, in
    the same order, give the same indicator rows and the same variation
    rows for it, whatever the rows of the other tickers are. *)
Theorem ticker_isolation (sqrtQ : Q -> Q) (df df' : list PricePoint)
        (t : string) (out out' : list IndicatorRow) :
  rows_of t df = rows_of t df' ->
  calcular_indicadores_tecnicos sqrtQ df = Ok out ->
  calcular_indicadores_tecnicos sqrtQ df' = Ok out' ->
  out_rows_of ind_Ticker t out = out_rows_of ind_Ticker t out' /\
  out_rows_of var_Ticker t (calcular_variaciones_precios df)
  = out_rows_of var_Ticker t (calcular_variaciones_precios df').
Proof.
  intros E H H'. split.
  - rewrite (engine_rows_all _ _ _ t H), (engine_rows_all _ _ _ t H').
    unfold filas_de. rewrite !rows_of_sort_values_eq, E. reflexivity.
  - rewrite !variaciones_rows, !rows_of_sort_values_eq, E. reflexivity.
Qed.

Lemma ticker_isolation_witness :
  let df' := mkPricePoint 1 "B" 7 7 7 7 10 :: df_example in
  exists out out',
    calcular_indicadores_tecnicos sqrt6 df_example = Ok out /\
    calcular_indicadores_tecnicos sqrt6 df' = Ok out' /\
    out_rows_of ind_Ticker "A" out = out_rows_of ind_Ticker "A" out'.
Proof.
  intros df'.
  destruct (calcular_indicadores_tecnicos sqrt6 df_example) as [out|e] eqn:H1;
    [|vm_compute in H1; discriminate].
  destruct (calcular_indicadores_tecnicos sqrt6 df') as [out'|e] eqn:H2;
    [|vm_compute in H2; discriminate].
  exists out, out'. split; [reflexivity|]. split; [reflexivity|].
  exact (proj1 (ticker_isolation sqrt6 df_example df' "A" out out'
                                 eq_refl H1 H2)).
Defined.

(* ------------------------------------------------------------------ *)
(** ** The latest row of a ticker and the merge *)

Lemma existsb_key_In {A} (key : A -> string) (t : string) (l : list A) :
  existsb (fun r => String.eqb (key r) t) l = true
  <-> exists r, In r l /\ key r = t.
Proof.
  rewrite existsb_exists. split; intros (r & H & E); exists r;
    (split; [exact H|]); apply String.eqb_eq; exact E.
Qed.

Lemma groupby_tail_1_split {A} (key : A -> string) (l : list A) (r : A) :
  In r (groupby_tail_1 key l) ->
  exists a b, l = a ++ r :: b /\ forall x, In x b -> key x <> key r.
Proof.
  induction l as [|y l IH]; cbn [groupby_tail_1]; [contradiction|].
  destruct (existsb (fun r' => String.eqb (key r') (key y)) l) eqn:E.
  - intros H. destruct (IH H) as (a & b & -> & Hb).
    exists (y :: a), b. split; [reflexivity|exact Hb].
  - intros [<-|H].
    + exists [], l. split; [reflexivity|].
      intros x Hx Ex.
      assert (T : existsb (fun r' => String.eqb (key r') (key y)) l = true)
        by (apply existsb_key_In; exists x; auto).
      congruence.
    + destruct (IH H) as (a & b & -> & Hb).
      exists (y :: a), b. split; [reflexivity|exact Hb].
Qed.

Lemma groupby_tail_1_count {A} (key : A -> string) (t : string)
      (l : list A) :
  length (filter (fun r => String.eqb (key r) t) (groupby_tail_1 key l))
  = if existsb (fun r => String.eqb (key r) t) l then 1%nat else 0%nat.
Proof.
  induction l as [|y l IH]; [reflexivity|].
  cbn [groupby_tail_1 existsb].
  destruct (existsb (fun r' => String.eqb (key r') (key y)) l) eqn:E.
  - rewrite IH. destruct (String.eqb_spec (key y) t) as [<-|N].
    + rewrite E. reflexivity.
    + reflexivity.
  - cbn [filter]. destruct (String.eqb_spec (key y) t) as [<-|N].
    + cbn [length orb]. rewrite IH, E. reflexivity.
    + cbn [orb]. exact IH.
Qed.

Lemma sorted_app_le {A} (R : A -> A -> Prop) (a b : list A) (r : A) :
  StronglySorted R (a ++ r :: b) -> forall x, In x a -> R x r.
Proof.
  induction a as [|y a IH]; intros S x Hx; [contradiction|].
  cbn [app] in S. apply StronglySorted_inv in S. destruct S as [S F].
  destruct Hx as [<-|Hx].
  - rewrite Forall_forall in F. apply F, in_or_app. right; left; reflexivity.
  - apply IH; assumption.
Qed.

Lemma filter_flat_map {A B} (f : B -> bool) (g : A -> list B) (h : A -> bool)
      (l : list A) :
  (forall a b, In b (g a) -> f b = h a) ->
  filter f (flat_map g l) = flat_map g (filter h l).
Proof.
  intros H. induction l as [|a l IH]; [reflexivity|].
  cbn [flat_map filter]. rewrite filter_app, IH.
  assert (E : filter f (g a) = if h a then g a else []).
  { destruct (h a) eqn:Ha.
    - apply forallb_filter_id. apply forallb_forall. intros b Hb.
      rewrite (H a b Hb). exact Ha.
    - apply filter_none. intros b Hb. rewrite (H a b Hb). exact Ha. }
  rewrite E. destruct (h a); reflexivity.
Qed.

Lemma length_flat_map_const {A B} (g : A -> list B) (l : list A) (n : nat) :
  (forall a, In a l -> length (g a) = n) ->
  length (flat_map g l) = (length l * n)%nat.
Proof.
  induction l as [|a l IH]; intros H; [reflexivity|].
  cbn [flat_map length]. rewrite length_app, IH, (H a (or_introl eq_refl)).
  - reflexivity.
  - intros; apply H; right; assumption.
Qed.

(** A row of the summary comes from a fundamentals row and the technical
    row of its ticker with the latest date. *)
Lemma resumen_row_inv (sort : list TecRow -> list TecRow)
      (tec : list TecRow) (fund : list FundamentalReady) (d : DecisionRow) :
  sorts_by_date sort ->
  In d (resumen_inversion sort tec fund) ->
  exists r f,
    In r tec /\ In f fund /\
    fun_Ticker (fr_row f) = tec_Ticker r /\
    (forall r', In r' tec -> tec_Ticker r' = tec_Ticker r ->
                (tec_Date r' <= tec_Date r)%Z) /\
    d = resumen_fila (unir r f).
Proof.
  intros Hs Hd. unfold resumen_inversion, calcular_resumen_inversion in Hd.
  destruct (Hs tec) as [P S].
  apply in_map_iff in Hd. destruct Hd as (j & <- & Hj).
  unfold merge_inner in Hj. apply in_flat_map in Hj.
  destruct Hj as (r & Hr & Hj). apply in_map_iff in Hj.
  destruct Hj as (f & <- & Hf). apply filter_In in Hf.
  destruct Hf as [Hf Ef]. apply String.eqb_eq in Ef.
  exists r, f.
  destruct (groupby_tail_1_split _ _ _ Hr) as (a & b & E & Hb).
  assert (Hin : In r (sort tec))
    by (rewrite E; apply in_or_app; right; left; reflexivity).
  split; [apply (Permutation_in _ P), Hin|].
  split; [exact Hf|]. split; [exact Ef|]. split; [|reflexivity].
  intros r' Hr' Et.
  apply (Permutation_in _ (Permutation_sym P)) in Hr'.
  rewrite E in Hr', S. apply in_app_or in Hr'.
  destruct Hr' as [Ha|[<-|Hb']].
  - exact (sorted_app_le _ _ _ _ S r' Ha).
  - apply Z.le_refl.
  - exfalso. exact (Hb r' Hb' Et).
Qed.

(** X17.  Every row of the summary is computed from a fundamentals row
    and the technical row of its ticker with the latest date, whatever
    the order in which the sort leaves rows of the same date.  A ticker
    of the technical file gets one summary row for each of its rows in
    the fundamentals file, and a ticker missing from the technical file
    gets none. *)
Theorem resumen_latest_rows (sort : list TecRow -> list TecRow)
        (tec : list TecRow) (fund : list FundamentalReady) :
  sorts_by_date sort ->
  let out := resumen_inversion sort tec fund in
  (forall d, In d out ->
     exists r f,
       In r tec /\ In f fund /\
       fun_Ticker (fr_row f) = tec_Ticker r /\
       (forall r', In r' tec -> tec_Ticker r' = tec_Ticker r ->
                   (tec_Date r' <= tec_Date r)%Z) /\
       d = resumen_fila (unir r f)) /\
  (forall t,
     length (out_rows_of dec_Ticker t out)
     = if existsb (fun r => String.eqb (tec_Ticker r) t) tec
       then length (filter (fun f => String.eqb (fun_Ticker (fr_row f)) t)
                           fund)
       else 0%nat).
Proof.
  intros Hs out. split.
  - intros d Hd. exact (resumen_row_inv sort tec fund d Hs Hd).
  - intros t. unfold out, resumen_inversion, calcular_resumen_inversion.
    destruct (Hs tec) as [P S]. unfold out_rows_of.
    rewrite (filter_map_swap (fun d => String.eqb (dec_Ticker d) t)
                             resumen_fila).
    rewrite length_map. unfold merge_inner.
    rewrite (filter_flat_map _ _ (fun r => String.eqb (tec_Ticker r) t)).
    + rewrite (length_flat_map_const _ _
                 (length (filter (fun f => String.eqb (fun_Ticker (fr_row f)) t)
                                 fund))).
      * rewrite groupby_tail_1_count.
        assert (Ex : existsb (fun r => String.eqb (tec_Ticker r) t) (sort tec)
                     = existsb (fun r => String.eqb (tec_Ticker r) t) tec).
        { apply eq_true_iff_eq. rewrite !existsb_key_In.
          split; intros (r & Hr & E); exists r; (split; [|exact E]).
          - apply (Permutation_in _ P), Hr.
          - apply (Permutation_in _ (Permutation_sym P)), Hr. }
        rewrite Ex. destruct (existsb _ tec); cbn; lia.
      * intros r Hr. apply filter_In in Hr. destruct Hr as [_ Er].
        apply String.eqb_eq in Er. rewrite length_map, Er. reflexivity.
    + intros r j Hj. apply in_map_iff in Hj. destruct Hj as (f & <- & _).
      reflexivity.
Qed.

Lemma sort_date_insertion_sorts : sorts_by_date sort_date_insertion.
Proof.
  intros l. split; [apply sort_by_perm|].
  unfold sort_date_insertion.
  induction l as [|x l IH]; [constructor|].
  cbn [sort_by fold_right]. fold (sort_by (fun a b => (tec_Date a <=? tec_Date b)%Z) l).
  set (s := sort_by _ l) in *. clearbody s.
  induction IH as [|y s S IHs F]; cbn [insert_by].
  - constructor; constructor.
  - destruct (tec_Date x <=? tec_Date y)%Z eqn:E.
    + apply Z.leb_le in E. constructor; [constructor; assumption|].
      constructor; [exact E|].
      rewrite Forall_forall in *. intros z Hz.
      unfold tec_date_le in *. specialize (F z Hz). lia.
    + apply Z.leb_gt in E. constructor; [exact IHs|].
      rewrite Forall_forall in *. intros z Hz.
      apply (Permutation_in _ (insert_by_perm _ x s)) in Hz.
      destruct Hz as [<-|Hz]; [unfold tec_date_le; lia|apply F, Hz].
Qed.

Lemma resumen_latest_rows_witness :
  let out := resumen_inversion sort_date_insertion tecnicos_example
                               fundamentales_ready_example in
  length (out_rows_of dec_Ticker "A" out) = 1%nat /\
  length (out_rows_of dec_Ticker "B" out) = 0%nat /\
  length (out_rows_of dec_Ticker "C" out) = 0%nat.
Proof.
  intros out.
  pose proof (proj2 (resumen_latest_rows sort_date_insertion tecnicos_example
                       fundamentales_ready_example
                       sort_date_insertion_sorts)) as H.
  split; [exact (H "A"%string)|].
  split; [exact (H "B"%string)|exact (H "C"%string)].
Defined.

(* ------------------------------------------------------------------ *)
(** ** From the indicator table to the summary *)

Lemma leb_20_19 (i : nat) : (20 <=? i + 1)%nat = (19 <=? i)%nat.
Proof.
  destruct (Nat.leb_spec 19 i), (Nat.leb_spec 20 (i + 1)); reflexivity || lia.
Qed.

(** Which cells of the row at position [i] of a group are defined. *)
Lemma fila_definida (sqrtQ : Q -> Q) (group : list PricePoint)
      (levels : Q * Q * Q * Q * Q * Q) (nivel estado : string)
      (i : nat) (p : PricePoint) :
  nth_error group i = Some p ->
  let r := indicador_fila sqrtQ group levels nivel estado i p in
  (exists e, EMA_20 r = Some e) /\
  (exists m, MACD r = Some m) /\
  (exists s, MACD_Signal r = Some s) /\
  ((i < 19)%nat ->
   SMA_20 r = None /\ BB_Upper r = None /\ BB_Lower r = None) /\
  ((19 <= i)%nat ->
   exists a u l,
     SMA_20 r = Some a /\ BB_Upper r = Some u /\ BB_Lower r = Some l) /\
  ((i < 14)%nat -> RSI_14 r = NaN).
Proof.
  intros Hp r.
  assert (Hi : (i < length (map Close group))%nat).
  { rewrite length_map. apply nth_error_Some. rewrite Hp. discriminate. }
  set (closes := map Close group) in *.
  destruct (indicador_fila_cols sqrtQ group levels nivel estado i p)
    as (E20 & _ & Ee & Er & Em & Es & _ & _ & _ & Eu & El & _).
  fold closes r in E20, Ee, Er, Em, Es, Eu, El.
  split; [|split; [|split; [|split; [|split]]]].
  - destruct (ewm_mean_law 20 (2 / 21) closes) as (e20 & H20 & L20);
      [vm_compute; reflexivity|].
    rewrite H20, nth_series in Ee
      by (rewrite (ema_law_length _ _ _ L20); exact Hi).
    eexists; exact Ee.
  - destruct (calcular_macd_finite closes)
      as (eS & eL & sig & LS & LL & Lsig & Hm).
    rewrite Hm in Em. cbn [fst snd] in Em.
    rewrite nth_series_zip_minus in Em
      by (rewrite ?(ema_law_length _ _ _ LS), ?(ema_law_length _ _ _ LL);
          trivial).
    eexists; exact Em.
  - destruct (calcular_macd_finite closes)
      as (eS & eL & sig & LS & LL & Lsig & Hm).
    rewrite Hm in Es. cbn [fst snd] in Es.
    rewrite nth_series in Es.
    + eexists; exact Es.
    + rewrite (ema_law_length _ _ _ Lsig), zip_with_length;
        rewrite ?(ema_law_length _ _ _ LS), ?(ema_law_length _ _ _ LL);
        trivial.
  - intros Hlt.
    assert (Lm : length (rolling_mean 20 (series closes)) = length closes)
      by (unfold rolling_mean; rewrite rolling_length; apply series_length).
    assert (Ls : length (map (lift1 (Qmult 2))
                             (rolling_std sqrtQ 20 (series closes)))
                 = length closes)
      by (rewrite length_map, rolling_std_length; apply series_length).
    rewrite (nth_zip_with _ _ _ _ None None) in Eu by lia.
    rewrite (nth_zip_with _ _ _ _ None None) in El by lia.
    unfold rolling_mean in E20, Eu, El.
    rewrite nth_rolling_defined, leb_20_19 in E20, Eu, El by exact Hi.
    destruct (Nat.leb_spec 19 i); [lia|].
    rewrite E20, Eu, El. auto.
  - intros Hge.
    assert (Lm : length (rolling_mean 20 (series closes)) = length closes)
      by (unfold rolling_mean; rewrite rolling_length; apply series_length).
    assert (Ls : length (map (lift1 (Qmult 2))
                             (rolling_std sqrtQ 20 (series closes)))
                 = length closes)
      by (rewrite length_map, rolling_std_length; apply series_length).
    rewrite (nth_zip_with _ _ _ _ None None) in Eu by lia.
    rewrite (nth_zip_with _ _ _ _ None None) in El by lia.
    rewrite nth_map_cell in Eu by reflexivity.
    rewrite nth_map_cell in El by reflexivity.
    unfold rolling_mean, rolling_std in E20, Eu, El.
    rewrite nth_rolling_defined, leb_20_19 in E20 by exact Hi.
    rewrite 2!nth_rolling_defined, leb_20_19 in Eu by exact Hi.
    rewrite 2!nth_rolling_defined, leb_20_19 in El by exact Hi.
    cbv beta in Eu, El. rewrite ventana_length in Eu, El.
    destruct (Nat.leb_spec 19 i); [|lia].
    cbn in Eu, El. do 3 eexists.
    split; [exact E20|]. split; [exact Eu|exact El].
  - intros Hlt. rewrite Er, nth_calcular_rsi by exact Hi.
    unfold rsi_avg_gain, rsi_avg_loss.
    rewrite (nth_rolling_from_1 14 i _ (gain_at closes)); [|lia| |].
    + rewrite (nth_rolling_from_1 14 i _ (loss_at closes)); [|lia| |].
      * destruct (Nat.leb_spec 14 i); [lia|reflexivity].
      * rewrite rsi_loss_length. exact Hi.
      * intros j Hj. apply nth_rsi_loss. rewrite <- rsi_loss_length.
        exact Hj.
    + rewrite rsi_gain_length. exact Hi.
    + intros j Hj. apply nth_rsi_gain. rewrite <- rsi_gain_length. exact Hj.
Qed.

Lemma estado_fib_of_values (nivel : string) :
  In (estado_fib_of nivel) ["SOPORTE"; "RESISTENCIA"; "NEUTRO"]%string.
Proof.
  unfold estado_fib_of.
  destruct (str_in nivel _); [left; reflexivity|].
  destruct (str_in nivel _); [right; left; reflexivity|].
  right; right; left; reflexivity.
Qed.

(** With distinct keys, the row of a group with the latest date is its
    last row. *)
Lemma latest_is_last (df : list PricePoint) (t : string) (i : nat)
      (p : PricePoint) :
  NoDup (map clave df) ->
  nth_error (rows_of t (sort_values df)) i = Some p ->
  (forall q, In q (rows_of t (sort_values df)) -> (Date q <= Date p)%Z) ->
  S i = length (rows_of t (sort_values df)).
Proof.
  intros ND Hp Hmax.
  set (group := rows_of t (sort_values df)) in *.
  assert (NDg : NoDup group).
  { apply NoDup_filter.
    apply (Permutation_NoDup (Permutation_sym (sort_by_perm _ df))).
    exact (NoDup_map_inv _ _ ND). }
  assert (Sg : StronglySorted (fun a b => (Date a <= Date b)%Z) group)
    by apply rows_of_sorted_by_date.
  assert (Hi : (i < length group)%nat)
    by (apply nth_error_Some; rewrite Hp; discriminate).
  destruct (exists_last (l := group)) as (g' & q & Eg);
    [intro E; rewrite E in Hi; cbn in Hi; lia|].
  rewrite Eg in *. rewrite length_app in *. cbn [length] in *.
  destruct (Nat.lt_ge_cases i (length g')) as [Hlt|Hge]; [|lia].
  exfalso.
  rewrite nth_error_app1 in Hp by exact Hlt.
  apply nth_error_In in Hp.
  assert (H1 : (Date p <= Date q)%Z).
  { pose proof (sorted_last _ _ _ Sg) as F. rewrite Forall_forall in F.
    exact (F p Hp). }
  assert (H2 : (Date q <= Date p)%Z)
    by (apply Hmax, in_or_app; right; left; reflexivity).
  assert (Ip : In p (g' ++ [q])) by (apply in_or_app; left; exact Hp).
  assert (Iq : In q (g' ++ [q])) by (apply in_or_app; right; left; reflexivity).
  rewrite <- Eg in Ip, Iq. apply rows_of_In in Ip, Iq.
  destruct Ip as [Ip Tp], Iq as [Iq Tq].
  assert (Epq : p = q).
  { apply (NoDup_map_eq clave df); trivial.
    - apply sort_values_In, Ip.
    - apply sort_values_In, Iq.
    - unfold clave. f_equal; [congruence|lia]. }
  subst q. apply NoDup_remove_2 in NDg. apply NDg.
  rewrite app_nil_r. exact Hp.
Qed.

(** X18.  When the technical file is the table written by the indicator
    engine, every row of the summary has a MACD signal that is COMPRAR
    or VENDER, a Fibonacci state and a technical percentage that is not
    NaN.  For a ticker with fewer than 20 price rows the SMA-EMA signal
    and the Bollinger state are NaN, and with fewer than 15 the RSI
    signal is NaN; with at least 20 rows of distinct dates the SMA-EMA
    signal and the Bollinger state are present. *)
Theorem resumen_de_indicadores (sqrtQ : Q -> Q)
        (sort : list TecRow -> list TecRow) (df : list PricePoint)
        (out : list IndicatorRow) (fund : list FundamentalReady)
        (d : DecisionRow) :
  sorts_by_date sort ->
  calcular_indicadores_tecnicos sqrtQ df = Ok out ->
  In d (resumen_inversion sort (map leer_tecnico out) fund) ->
  let n := length (rows_of (dec_Ticker d) df) in
  (dec_MACD d = Some COMPRAR \/ dec_MACD d = Some VENDER) /\
  In (dec_Estado_Fibonacci d)
     [Some "SOPORTE"; Some "RESISTENCIA"; Some "NEUTRO"]%string /\
  pct_tecnico_buy d <> None /\
  ((n < 20)%nat ->
   dec_SMA_vs_EMA d = None /\ Estado_BollingerBands d = None) /\
  ((n < 15)%nat -> dec_RSI d = None) /\
  (NoDup (map clave df) -> (20 <= n)%nat ->
   dec_SMA_vs_EMA d <> None /\ Estado_BollingerBands d <> None).
Proof.
  intros Hs Hout Hd n.
  destruct (resumen_row_inv _ _ _ _ Hs Hd)
    as (r' & f & Hr' & Hf & Ef & Hmax & Ed).
  apply in_map_iff in Hr'. destruct Hr' as (r & <- & Hr).
  destruct (engine_row_inv _ _ _ _ Hout Hr)
    as (mx & mn & u & nivel & i & p & _ & Hp & E).
  set (t := ind_Ticker r) in *.
  set (group := rows_of t (sort_values df)) in *.
  assert (Hi : (i < length group)%nat)
    by (apply nth_error_Some; rewrite Hp; discriminate).
  assert (En : n = length group).
  { unfold n. rewrite Ed. cbn. fold t. symmetry.
    apply Permutation_length, rows_of_sort_values. }
  destruct (fila_definida sqrtQ group (fib_levels mx mn) nivel
                          (estado_fib_of nivel) i p Hp)
    as ((e & He) & (m & Hm) & (s & Hsg) & Hshort & Hlong & Hrsi).
  destruct (indicador_fila_fib sqrtQ group mx mn nivel (estado_fib_of nivel)
                               i p) as (_ & Hest & _).
  rewrite <- E in He, Hm, Hsg, Hshort, Hlong, Hrsi, Hest.
  set (row := unir (leer_tecnico r) f) in *.
  destruct (senales_tec_facts row) as (G & _ & _).
  unfold tec_keys, tec_entries in G. cbn [map snd] in G.
  injection G as G1 G2 G3 _.
  unfold row in G1, G2, G3.
  cbn [unir leer_tecnico row_SMA_20 row_EMA_20 row_MACD row_MACD_Signal
       row_RSI_14 tec_SMA_20 tec_EMA_20 tec_MACD tec_MACD_Signal tec_RSI_14]
    in G1, G2, G3.
  fold row in G1, G2, G3.
  rewrite He in G1. rewrite Hm, Hsg in G2.
  cbn [of_cell notna andb] in G2.
  assert (D1 : dec_SMA_vs_EMA d = dict_get (señales_tec row) "SMA_vs_EMA")
    by (rewrite Ed; reflexivity).
  assert (D2 : dec_MACD d = dict_get (señales_tec row) "MACD")
    by (rewrite Ed; reflexivity).
  assert (D3 : dec_RSI d = dict_get (señales_tec row) "RSI")
    by (rewrite Ed; reflexivity).
  assert (D4 : dec_Estado_Fibonacci d = Some (Estado_Fibonacci r))
    by (rewrite Ed; reflexivity).
  assert (D5 : pct_tecnico_buy d = pct_buy (señales_tec row))
    by (rewrite Ed; reflexivity).
  assert (D6 : Estado_BollingerBands d
               = estado_bollinger
                   {| row_Ticker := t; row_Close := Fin (ind_Close r);
                      row_SMA_20 := NaN; row_EMA_20 := NaN; row_MACD := NaN;
                      row_MACD_Signal := NaN; row_RSI_14 := NaN;
                      row_BB_Upper := of_cell (BB_Upper r);
                      row_BB_Lower := of_cell (BB_Lower r);
                      row_Estado_Fibonacci := None;
                      row_PER := NaN; row_ROE := NaN;
                      row_EPS_Growth_YoY := NaN;
                      row_Deuda_Patrimonio := NaN |})
    by (rewrite Ed; reflexivity).
  unfold estado_bollinger in D6.
  cbn [row_BB_Upper row_BB_Lower row_Close notna andb] in D6.
  rewrite D1, D2, D3, D4, D5, D6, G1, G2, G3.
  split; [|split; [|split; [|split; [|split]]]].
  - unfold three_way. destruct (fgtb (Fin m) (Fin s)); auto.
  - rewrite Hest.
    destruct (estado_fib_of_values nivel) as [<-|[<-|[<-|[]]]];
      cbn [In]; auto.
  - intros Hn.
    destruct (pct_buy_cases _ (senales_tec_length row)) as (_ & N & _).
    rewrite (N Hn) in G2. discriminate.
  - intros Hlt. destruct Hshort as (A & B & _); [lia|].
    rewrite A, B. split; reflexivity.
  - intros Hlt. rewrite Hrsi by lia. reflexivity.
  - intros ND Hge.
    assert (Hlast : S i = length group).
    { apply (latest_is_last df t i p ND Hp). intros q Hq.
      assert (Kq : In (Date q, Ticker q, Close q)
                      (map (fun r => (ind_Date r, ind_Ticker r, ind_Close r))
                           (filas_de sqrtQ df t)))
        by (rewrite filas_de_keys;
            exact (in_map (fun p => (Date p, Ticker p, Close p)) _ _ Hq)).
      apply in_map_iff in Kq. destruct Kq as (rq & Kq & Hrq).
      injection Kq as K1 K2 K3.
      rewrite <- (engine_rows_all _ _ _ t Hout) in Hrq.
      apply filter_In in Hrq. destruct Hrq as [Hrq _].
      apply rows_of_In in Hq. destruct Hq as [_ Tq].
      assert (Hle := Hmax (leer_tecnico rq) (in_map _ _ _ Hrq)).
      cbn [leer_tecnico tec_Ticker tec_Date] in Hle.
      rewrite K1, K2, Tq in Hle. specialize (Hle eq_refl).
      assert (Kp := indicador_fila_key sqrtQ group (fib_levels mx mn) nivel
                                       (estado_fib_of nivel) i p).
      cbv zeta in Kp. rewrite <- E in Kp.
      assert (P1 : ind_Date r = Date p) by congruence.
      rewrite P1 in Hle. exact Hle. }
    destruct Hlong as (a & ub & lb & A & B & C); [lia|].
    rewrite A, B, C. cbn [of_cell notna andb].
    split; [discriminate|].
    repeat match goal with
           | |- context [if ?c then _ else _] => destruct c
           end; discriminate.
Qed.

Lemma resumen_de_indicadores_witness :
  exists out d,
    calcular_indicadores_tecnicos sqrt6 df_twenty = Ok out /\
    In d (resumen_inversion sort_date_insertion (map leer_tecnico out)
                            fundamentales_ready_example) /\
    pct_tecnico_buy d <> None /\
    dec_SMA_vs_EMA d <> None.
Proof.
  eassert (H1 : calcular_indicadores_tecnicos sqrt6 df_twenty = Ok _)
    by (vm_compute; reflexivity).
  match type of H1 with
  | _ = Ok ?o =>
      eassert (Hd : In _ (resumen_inversion sort_date_insertion
                                            (map leer_tecnico o)
                                            fundamentales_ready_example))
        by (vm_compute; left; reflexivity)
  end.
  destruct (resumen_de_indicadores sqrt6 sort_date_insertion df_twenty _
              fundamentales_ready_example _
              sort_date_insertion_sorts H1 Hd)
    as (_ & _ & A & _ & _ & B).
  do 2 eexists. split; [exact H1|]. split; [exact Hd|].
  split; [exact A|].
  apply B.
  - vm_compute. repeat constructor; cbn [In]; intuition congruence.
  - vm_compute. lia.
Defined.

(* ------------------------------------------------------------------ *)
(** ** The daily update of the price file *)

Lemma clave_eqb_eq (a b : string * Z) : clave_eqb a b = true <-> a = b.
Proof.
  destruct a as [s d], b as [s' d']. unfold clave_eqb; cbn [fst snd].
  rewrite andb_true_iff, String.eqb_eq, Z.eqb_eq.
  split; [intros [-> ->]; reflexivity|intros E; injection E; auto].
Qed.

Lemma existsb_clave {A} (key : A -> string * Z) (k : string * Z)
      (l : list A) :
  existsb (fun r => clave_eqb (key r) k) l = true <-> In k (map key l).
Proof.
  rewrite existsb_exists, in_map_iff. split; intros (r & H1 & H2).
  - exists r. split; [apply clave_eqb_eq, H2|exact H1].
  - exists r. split; [exact H2|apply clave_eqb_eq, H1].
Qed.

Lemma drop_duplicates_last_In {A} (key : A -> string * Z) (l : list A)
      (r : A) :
  In r (drop_duplicates_last key l)
  <-> exists a b, l = a ++ r :: b /\ ~ In (key r) (map key b).
Proof.
  induction l as [|y l IH]; cbn [drop_duplicates_last].
  - split; [contradiction|]. intros (a & b & E & _).
    destruct a; discriminate.
  - destruct (existsb (fun r' => clave_eqb (key r') (key y)) l) eqn:E.
    + rewrite IH. split; intros (a & b & El & Hb).
      * exists (y :: a), b. rewrite El. auto.
      * destruct a as [|y' a]; cbn [app] in El; injection El as -> ->.
        -- exfalso. apply Hb. apply existsb_clave. exact E.
        -- exists a, b. auto.
    + cbn [In]. rewrite IH. split.
      * intros [<-|(a & b & El & Hb)].
        -- exists [], l. split; [reflexivity|].
           intros H. apply existsb_clave in H. congruence.
        -- exists (y :: a), b. rewrite El. auto.
      * intros (a & b & El & Hb).
        destruct a as [|y' a]; cbn [app] in El; injection El as -> ->.
        -- left; reflexivity.
        -- right. exists a, b. auto.
Qed.

Lemma drop_duplicates_last_keys {A} (key : A -> string * Z) (l : list A)
      (k : string * Z) :
  In k (map key (drop_duplicates_last key l)) <-> In k (map key l).
Proof.
  induction l as [|y l IH]; cbn [drop_duplicates_last]; [reflexivity|].
  destruct (existsb (fun r' => clave_eqb (key r') (key y)) l) eqn:E.
  - rewrite IH. cbn [map In]. split; [auto|].
    intros [<-|H]; [apply existsb_clave, E|exact H].
  - cbn [map In]. rewrite IH. reflexivity.
Qed.

Lemma drop_duplicates_last_NoDup {A} (key : A -> string * Z) (l : list A) :
  NoDup (map key (drop_duplicates_last key l)).
Proof.
  induction l as [|y l IH]; cbn [drop_duplicates_last]; [constructor|].
  destruct (existsb (fun r' => clave_eqb (key r') (key y)) l) eqn:E;
    [exact IH|].
  cbn [map]. constructor; [|exact IH].
  rewrite drop_duplicates_last_keys. intros H.
  apply existsb_clave in H. congruence.
Qed.

Lemma NoDup_map_split {A B} (f : A -> B) (a b : list A) (r : A) :
  NoDup (map f (a ++ r :: b)) -> ~ In (f r) (map f b).
Proof.
  rewrite map_app. cbn [map]. intros ND H.
  apply NoDup_remove_2 in ND. apply ND, in_or_app. right; exact H.
Qed.

(** X19.  The price table written by the daily update has no two rows of
    the same date and ticker, and so has the cleaned table made from it;
    no date and ticker of either input is lost; a row of the old table is
    kept only where no downloaded row has its date and ticker; and when
    the downloaded rows have distinct keys, all of them are in the new
    table. *)
Theorem actualizar_sin_duplicados (historico nuevos : list PricePoint) :
  let out := actualizar_datos_historicos historico nuevos in
  NoDup (map clave out) /\
  NoDup (map clave (transformar_precios_historicos out)) /\
  (forall k, In k (map clave out)
             <-> In k (map clave historico) \/ In k (map clave nuevos)) /\
  (forall r, In r out ->
             In r nuevos \/
             (In r historico /\ ~ In (clave r) (map clave nuevos))) /\
  (NoDup (map clave nuevos) -> forall r, In r nuevos -> In r out).
Proof.
  intros out. unfold out, actualizar_datos_historicos.
  assert (ND := drop_duplicates_last_NoDup clave (historico ++ nuevos)).
  split; [exact ND|]. split; [|split; [|split]].
  - unfold transformar_precios_historicos. rewrite map_map.
    exact ND.
  - intros k. rewrite drop_duplicates_last_keys, map_app, in_app_iff.
    reflexivity.
  - intros r Hr. apply drop_duplicates_last_In in Hr.
    destruct Hr as (a & b & E & Hb).
    apply app_eq_app in E. destruct E as (l & [[E1 E2]|[E1 E2]]).
    + destruct l as [|y l]; cbn [app] in E2.
      * left. rewrite <- E2. left; reflexivity.
      * injection E2 as <- ->. right. split.
        -- rewrite E1. apply in_or_app. right; left; reflexivity.
        -- intros Hk. apply Hb. rewrite map_app. apply in_or_app.
           right; exact Hk.
    + left. rewrite E2. apply in_or_app. right; left; reflexivity.
  - intros NDn r Hr. apply drop_duplicates_last_In.
    apply in_split in Hr. destruct Hr as (a & b & ->).
    exists (historico ++ a), b. split; [rewrite <- app_assoc; reflexivity|].
    exact (NoDup_map_split clave a b r NDn).
Qed.

Lemma actualizar_sin_duplicados_witness :
  let nuevos := [ mkPricePoint 3 "A" 120 122 119 122 11;
                  mkPricePoint 4 "A" 122 125 121 124 12 ]%string in
  NoDup (map clave nuevos) /\
  In (mkPricePoint 3 "A" 120 122 119 122 11)
     (actualizar_datos_historicos df_example nuevos).
Proof.
  intros nuevos.
  assert (ND : NoDup (map clave nuevos)).
  { unfold nuevos, clave; cbn [map Ticker Date].
    repeat constructor; cbn [In]; intuition congruence. }
  split; [exact ND|].
  apply (proj2 (proj2 (proj2 (proj2
           (actualizar_sin_duplicados df_example nuevos)))) ND).
  left; reflexivity.
Defined.

(* ------------------------------------------------------------------ *)
(** ** The incremental loads *)

Section CargaFacts.

Context {A : Type}.
Variable fecha : A -> Z.
Variable ticker : A -> string.

Ltac unfold_carga :=
  unfold misma_clave, clave_de, max_date, insert_do_nothing,
    insert_do_update.

Abbreviation clave_de := (clave_de fecha ticker).
Abbreviation misma_clave := (misma_clave fecha ticker).
Abbreviation max_date := (max_date fecha).
Abbreviation insert_do_nothing := (insert_do_nothing fecha ticker).
Abbreviation insert_do_update := (insert_do_update fecha ticker).
Abbreviation es_insert := (es_insert fecha ticker).

Lemma misma_clave_eq (a b : A) :
  misma_clave a b = true <-> clave_de a = clave_de b.
Proof.
  unfold_carga.
  rewrite andb_true_iff, Z.eqb_eq, String.eqb_eq.
  split; [intros [-> ->]; reflexivity|intros E; injection E; auto].
Qed.

Lemma existsb_misma_clave (row : A) (l : list A) :
  existsb (misma_clave row) l = true <-> In (clave_de row) (map clave_de l).
Proof.
  rewrite existsb_exists, in_map_iff. split; intros (r & H1 & H2).
  - exists r. split; [symmetry; apply misma_clave_eq, H2|exact H1].
  - exists r. split; [exact H2|apply misma_clave_eq; symmetry; exact H1].
Qed.

Lemma fold_max_spec (l : list Z) (x : Z) :
  let m := fold_left Z.max l x in
  (x <= m)%Z /\ (forall y, In y l -> (y <= m)%Z) /\ (m = x \/ In m l).
Proof.
  revert x. induction l as [|y l IH]; intros x; cbn [fold_left].
  - split; [lia|]. split; [contradiction|auto].
  - destruct (IH (Z.max x y)) as (H1 & H2 & H3).
    split; [lia|]. split.
    + intros z [<-|Hz]; [lia|auto].
    + destruct H3 as [H3|H3]; [|right; right; exact H3].
      destruct (Z.max_spec x y) as [[_ E]|[_ E]]; rewrite E in H3 |- *.
      * right; left; symmetry; exact H3.
      * left; exact H3.
Qed.

Lemma max_date_spec (db : list A) (m : Z) :
  max_date db = Some m ->
  (forall q, In q db -> (fecha q <= m)%Z) /\
  (exists q, In q db /\ fecha q = m).
Proof.
  destruct db as [|r db]; [discriminate|].
  unfold_carga. intros E. injection E as <-.
  destruct (fold_max_spec (map fecha db) (fecha r)) as (H1 & H2 & H3).
  split.
  - intros q [<-|Hq]; [exact H1|]. apply H2, in_map, Hq.
  - destruct H3 as [H3|H3].
    + exists r. split; [left; reflexivity|symmetry; exact H3].
    + apply in_map_iff in H3. destruct H3 as (q & Eq & Hq).
      exists q. split; [right; exact Hq|exact Eq].
Qed.

Lemma insert_keys (insert : list A -> A -> list A) (db : list A)
      (row : A) (k : Z * string) :
  es_insert insert ->
  In k (map clave_de (insert db row))
  <-> In k (map clave_de db) \/ k = clave_de row.
Proof.
  intros [-> | ->];
    unfold insert_do_nothing, insert_do_update;
    destruct (existsb (misma_clave row) db) eqn:E.
  - split; [auto|]. intros [H| ->]; [exact H|].
    apply existsb_misma_clave, E.
  - rewrite map_app, in_app_iff. cbn [map In]. intuition.
  - assert (K : map clave_de
                    (map (fun r => if misma_clave row r then row else r) db)
                = map clave_de db).
    { rewrite map_map. apply map_ext. intros r.
      destruct (misma_clave row r) eqn:M; [|reflexivity].
      apply misma_clave_eq, M. }
    rewrite K. split; [auto|]. intros [H| ->]; [exact H|].
    apply existsb_misma_clave, E.
  - rewrite map_app, in_app_iff. cbn [map In]. intuition.
Qed.

Lemma insert_app (insert : list A -> A -> list A) (db acc : list A)
      (row : A) :
  es_insert insert ->
  ~ In (clave_de row) (map clave_de db) ->
  insert (db ++ acc) row = db ++ insert acc row.
Proof.
  intros Hi Hn.
  assert (E : existsb (misma_clave row) db = false).
  { destruct (existsb (misma_clave row) db) eqn:E; [|reflexivity].
    exfalso. apply Hn, existsb_misma_clave, E. }
  destruct Hi as [-> | ->];
    unfold insert_do_nothing, insert_do_update;
    rewrite existsb_app, E; cbn [orb];
    destruct (existsb (misma_clave row) acc);
    rewrite <- ?app_assoc; try reflexivity.
  rewrite map_app. f_equal.
  rewrite <- (map_id db) at 2. apply map_ext_in. intros r Hr.
  destruct (misma_clave row r) eqn:M; [|reflexivity].
  exfalso. apply Hn. apply misma_clave_eq in M. rewrite M.
  apply in_map, Hr.
Qed.

Lemma fold_insert_app (insert : list A -> A -> list A)
      (rows db acc : list A) :
  es_insert insert ->
  (forall r, In r rows -> ~ In (clave_de r) (map clave_de db)) ->
  fold_left insert rows (db ++ acc) = db ++ fold_left insert rows acc.
Proof.
  intros Hi. revert acc. induction rows as [|r rows IH]; intros acc H;
    [reflexivity|].
  cbn [fold_left]. rewrite (insert_app insert db acc r Hi)
    by (apply H; left; reflexivity).
  apply IH. intros; apply H; right; assumption.
Qed.

Lemma fold_insert_keys (insert : list A -> A -> list A)
      (rows acc : list A) (k : Z * string) :
  es_insert insert ->
  In k (map clave_de (fold_left insert rows acc))
  <-> In k (map clave_de acc) \/ In k (map clave_de rows).
Proof.
  intros Hi. revert acc. induction rows as [|r rows IH]; intros acc;
    cbn [fold_left map In]; [intuition|].
  rewrite IH, (insert_keys insert acc r k Hi). intuition.
Qed.

(** The rows that the load sends. *)
Lemma carga_incremental_sent (insert : list A -> A -> list A)
      (df db : list A) :
  es_insert insert ->
  exists sent,
    carga_incremental fecha insert df db = db ++ fold_left insert sent [] /\
    (forall r, In r sent
               <-> In r df /\ forall q, In q db -> (fecha q < fecha r)%Z).
Proof.
  intros Hi. unfold carga_incremental.
  destruct (max_date db) as [m|] eqn:Em.
  - destruct (max_date_spec db m Em) as (Hle & q0 & Hq0 & Eq0).
    set (sent := filter (fun r => (m <? fecha r)%Z) df).
    assert (Hs : forall r, In r sent
                   <-> In r df /\ forall q, In q db -> (fecha q < fecha r)%Z).
    { intros r. unfold sent. rewrite filter_In, Z.ltb_lt. split.
      - intros [H1 H2]. split; [exact H1|]. intros q Hq.
        specialize (Hle q Hq). lia.
      - intros [H1 H2]. split; [exact H1|]. specialize (H2 q0 Hq0). lia. }
    exists sent. split; [|exact Hs].
    assert (F : fold_left insert sent db = db ++ fold_left insert sent []).
    { rewrite <- (app_nil_r db) at 1. apply fold_insert_app; [exact Hi|].
      intros r Hr Hk. apply Hs in Hr. destruct Hr as [_ Hr].
      apply in_map_iff in Hk. destruct Hk as (q & Eq & Hq).
      specialize (Hr q Hq). injection Eq as Eq _. lia. }
    destruct sent; [cbn; rewrite app_nil_r; reflexivity|exact F].
  - destruct db as [|q db]; [|discriminate].
    exists df. split.
    + destruct df; reflexivity.
    + intros r. split; [intros H; split; [exact H|contradiction]|tauto].
Qed.

(** X20.  The incremental loads only append: the rows stored in the table
    stay as they are, also under the statement with DO UPDATE, and every
    row added is a row of the file dated after every stored row.  A row
    of the file dated after every stored row has its key in the table
    afterwards; a row dated on or before the latest stored date is never
    loaded, even when the table lacks its key; and loading the same file
    a second time changes nothing. *)
Theorem carga_incremental_append (insert : list A -> A -> list A)
        (df db : list A) :
  es_insert insert ->
  let db' := carga_incremental fecha insert df db in
  (exists nuevos,
      db' = db ++ nuevos /\
      forall r, In r nuevos ->
                In (clave_de r) (map clave_de df) /\
                forall q, In q db -> (fecha q < fecha r)%Z) /\
  (forall r, In r df ->
             (forall q, In q db -> (fecha q < fecha r)%Z) ->
             In (clave_de r) (map clave_de db')) /\
  (forall r q, In r df -> In q db -> (fecha r <= fecha q)%Z ->
               ~ In (clave_de r) (map clave_de db) ->
               ~ In (clave_de r) (map clave_de db')) /\
  carga_incremental fecha insert df db' = db'.
Proof.
  intros Hi db'.
  destruct (carga_incremental_sent insert df db Hi) as (sent & E & Hs).
  fold db' in E.
  assert (Kn : forall k, In k (map clave_de (fold_left insert sent []))
                         <-> In k (map clave_de sent)).
  { intros k. rewrite (fold_insert_keys insert sent [] k Hi).
    cbn [map In]. tauto. }
  assert (Hn : forall r, In r (fold_left insert sent []) ->
                         In (clave_de r) (map clave_de df) /\
                         forall q, In q db -> (fecha q < fecha r)%Z).
  { intros r Hr.
    assert (Hk : In (clave_de r) (map clave_de sent))
      by (apply Kn, in_map, Hr).
    apply in_map_iff in Hk. destruct Hk as (s & Es & Hsn).
    apply Hs in Hsn. destruct Hsn as [Hdf Hlt]. split.
    - rewrite <- Es. apply in_map, Hdf.
    - intros q Hq. specialize (Hlt q Hq). injection Es as Es _. lia. }
  split; [|split; [|split]].
  - exists (fold_left insert sent []). split; [exact E|exact Hn].
  - intros r Hr Hlt. rewrite E, map_app. apply in_or_app. right.
    apply Kn, in_map, Hs. auto.
  - intros r q Hr Hq Hle Hk. rewrite E, map_app. intros H.
    apply in_app_or in H. destruct H as [H|H]; [exact (Hk H)|].
    apply in_map_iff in H. destruct H as (x & Ex & Hx).
    destruct (Hn x Hx) as [_ Hlt]. specialize (Hlt q Hq).
    injection Ex as Ex _. lia.
  - destruct (carga_incremental_sent insert df db' Hi)
      as (sent' & E' & Hs').
    rewrite E'. destruct sent' as [|r sent'];
      [cbn; apply app_nil_r|].
    exfalso.
    destruct (proj1 (Hs' r) (or_introl eq_refl)) as [Hr Hlt].
    destruct (max_date db) as [m|] eqn:Em.
    + destruct (max_date_spec db m Em) as (Hle & q0 & Hq0 & Eq0).
      assert (H0 : In q0 db')
        by (rewrite E; apply in_or_app; left; exact Hq0).
      destruct (Z.lt_ge_cases m (fecha r)) as [Hgt|Hge].
      * assert (Hsr : In r sent).
        { apply Hs. split; [exact Hr|]. intros q Hq.
          specialize (Hle q Hq). lia. }
        assert (Hk : In (clave_de r) (map clave_de db')).
        { rewrite E, map_app. apply in_or_app. right.
          apply Kn, in_map, Hsr. }
        apply in_map_iff in Hk. destruct Hk as (x & Ex & Hx).
        specialize (Hlt x Hx). injection Ex as Ex _. lia.
      * specialize (Hlt q0 H0). lia.
    + destruct db as [|q db]; [|discriminate].
      assert (Hsr : In r sent)
        by (apply Hs; split; [exact Hr|contradiction]).
      assert (Hk : In (clave_de r) (map clave_de db')).
      { rewrite E, map_app. apply in_or_app. right.
        apply Kn, in_map, Hsr. }
      apply in_map_iff in Hk. destruct Hk as (x & Ex & Hx).
      specialize (Hlt x Hx). injection Ex as Ex _. lia.
Qed.

End CargaFacts.

Lemma carga_incremental_append_witness :
  let db := [mkPricePoint 1 "A" 100 100 100 100 10]%string in
  let db' := upsert_precios_historicos Date Ticker df_example db in
  length db' = 3%nat /\
  upsert_precios_historicos Date Ticker df_example db' = db'.
Proof.
  intros db db'. split; [reflexivity|].
  exact (proj2 (proj2 (proj2
           (carga_incremental_append Date Ticker
              (insert_do_nothing Date Ticker) df_example db
              (or_introl eq_refl))))).
Defined.

(* ------------------------------------------------------------------ *)
(** ** No look-ahead *)

Lemma continua_refl {B} (l : list B) : continua l l.
Proof. exists []. symmetry. apply app_nil_r. Qed.

Lemma continua_length {B} (l l' : list B) :
  continua l l' -> (length l <= length l')%nat.
Proof. intros (z & ->). rewrite length_app. lia. Qed.

Lemma continua_nth {B} (l l' : list B) (i : nat) (d : B) :
  continua l l' -> (i < length l)%nat -> nth i l' d = nth i l d.
Proof. intros (z & ->) Hi. apply app_nth1, Hi. Qed.

Lemma continua_map {B C} (f : B -> C) (l l' : list B) :
  continua l l' -> continua (map f l) (map f l').
Proof. intros (z & ->). exists (map f z). apply map_app. Qed.

Lemma zip_with_app {B C D} (f : B -> C -> D) (a za : list B)
      (b zb : list C) :
  length a = length b ->
  zip_with f (a ++ za) (b ++ zb) = zip_with f a b ++ zip_with f za zb.
Proof.
  revert b. induction a as [|x a IH]; intros [|y b] H; try discriminate;
    [reflexivity|].
  cbn [app zip_with]. rewrite IH by (cbn in H; lia). reflexivity.
Qed.

Lemma continua_zip_with {B C D} (f : B -> C -> D) (a a' : list B)
      (b b' : list C) :
  length a = length b -> continua a a' -> continua b b' ->
  continua (zip_with f a b) (zip_with f a' b').
Proof.
  intros H (za & ->) (zb & ->). exists (zip_with f za zb).
  apply zip_with_app, H.
Qed.

Lemma firstn_add_split {B} (a b : nat) (l : list B) :
  firstn (a + b) l = firstn a l ++ firstn b (skipn a l).
Proof.
  revert l. induction a as [|a IH]; intros l; [reflexivity|].
  destruct l as [|x l]; cbn [Nat.add firstn skipn app].
  - rewrite firstn_nil. reflexivity.
  - rewrite IH. reflexivity.
Qed.

Lemma continua_shift (n : nat) (l l' : list cell) :
  continua l l' -> continua (shift n l) (shift n l').
Proof.
  intros (z & ->). unfold shift. rewrite length_app, firstn_add_split.
  eexists. f_equal.
  rewrite app_assoc, firstn_app, length_app, repeat_length.
  replace (length l - (n + length l))%nat with 0%nat by lia.
  cbn [firstn]. apply app_nil_r.
Qed.

Lemma continua_diff (l l' : list cell) :
  continua l l' -> continua (diff l) (diff l').
Proof.
  intros H. unfold diff. apply continua_zip_with.
  - symmetry. apply shift_length.
  - exact H.
  - apply continua_shift, H.
Qed.

Lemma window_app (w i : nat) (l z : list cell) :
  (i < length l)%nat -> (w <= i + 1)%nat ->
  window w (l ++ z) i = window w l i.
Proof.
  intros Hi Hw. unfold window.
  rewrite skipn_app, firstn_app, length_skipn.
  replace (i + 1 - w - length l)%nat with 0%nat by lia.
  replace (w - (length l - (i + 1 - w)))%nat with 0%nat by lia.
  cbn [skipn firstn]. apply app_nil_r.
Qed.

Lemma continua_rolling (w : nat) (f : list Q -> cell) (l l' : list cell) :
  continua l l' -> continua (rolling w f l) (rolling w f l').
Proof.
  intros (z & ->). unfold rolling.
  rewrite length_app, seq_app, map_app. eexists. f_equal.
  apply map_ext_in. intros i Hi. apply in_seq in Hi.
  destruct (Nat.leb_spec w (i + 1)); [|reflexivity].
  rewrite window_app by lia. reflexivity.
Qed.

Lemma continua_ewm_loop (alpha : Q) (a b : list cell) :
  forall st, continua (ewm_loop alpha st a) (ewm_loop alpha st (a ++ b)).
Proof.
  induction a as [|x a IH]; intros st; cbn [app ewm_loop].
  - eexists. reflexivity.
  - destruct (IH (ewm_step alpha st x)) as (z & E).
    exists z. rewrite E. reflexivity.
Qed.

Lemma continua_ewm_mean (span : nat) (l l' : list cell) :
  continua l l' -> continua (ewm_mean span l) (ewm_mean span l').
Proof.
  intros (z & ->). destruct l as [|x l]; cbn [app ewm_mean].
  - eexists. reflexivity.
  - destruct (continua_ewm_loop (alpha_of_span span) l z (x, 1)) as (y & E).
    exists y. rewrite E. reflexivity.
Qed.

Lemma continua_cumsum_from (a b : list Q) :
  forall acc, continua (cumsum_from acc a) (cumsum_from acc (a ++ b)).
Proof.
  induction a as [|x a IH]; intros acc; cbn [app cumsum_from].
  - eexists. reflexivity.
  - destruct (IH (acc + x)) as (z & E). exists z. rewrite E. reflexivity.
Qed.

Lemma continua_calcular_rsi (w : nat) (l l' : list Q) :
  continua l l' -> continua (calcular_rsi l w) (calcular_rsi l' w).
Proof.
  intros H. unfold calcular_rsi.
  assert (D : continua (diff (series l)) (diff (series l')))
    by (apply continua_diff, continua_map, H).
  apply continua_map, continua_zip_with.
  - unfold rolling_mean, clip_lower, clip_upper.
    rewrite !rolling_length, !length_map. reflexivity.
  - apply continua_rolling, continua_map, D.
  - apply continua_rolling, continua_map, continua_map, D.
Qed.

Lemma ewm_mean_length (span : nat) (l : list cell) :
  length (ewm_mean span l) = length l.
Proof.
  destruct l as [|x l]; [reflexivity|]. cbn [ewm_mean length]. f_equal.
  generalize (x, 1). induction l as [|y l IH]; intros st; [reflexivity|].
  cbn [ewm_loop length]. rewrite IH. reflexivity.
Qed.

Lemma continua_calcular_macd (l l' : list Q) :
  continua l l' ->
  let '(m, s, h) := calcular_macd l 12 26 9 in
  let '(m', s', h') := calcular_macd l' 12 26 9 in
  continua m m' /\ continua s s' /\ continua h h'.
Proof.
  intros H. unfold calcular_macd.
  assert (S : continua (series l) (series l')) by (apply continua_map, H).
  assert (M : continua
                (zip_with (lift2 Qminus) (ewm_mean 12 (series l))
                          (ewm_mean 26 (series l)))
                (zip_with (lift2 Qminus) (ewm_mean 12 (series l'))
                          (ewm_mean 26 (series l')))).
  { apply continua_zip_with; [|apply continua_ewm_mean, S..].
    rewrite !ewm_mean_length. reflexivity. }
  split; [exact M|]. split; [apply continua_ewm_mean, M|].
  apply continua_zip_with; [|exact M|apply continua_ewm_mean, M].
  rewrite ewm_mean_length. reflexivity.
Qed.

Lemma continua_true_range (h h' lo lo' c c' : list Q) :
  length h = length c -> length lo = length c ->
  continua h h' -> continua lo lo' -> continua c c' ->
  continua (true_range h lo c) (true_range h' lo' c').
Proof.
  intros Lh Ll Hh Hl Hc. unfold true_range.
  assert (Sh : continua (series h) (series h')) by (apply continua_map, Hh).
  assert (Sl : continua (series lo) (series lo'))
    by (apply continua_map, Hl).
  assert (Sc : continua (shift 1 (series c)) (shift 1 (series c')))
    by (apply continua_shift, continua_map, Hc).
  assert (L1 : length (series h) = length (series lo))
    by (rewrite !series_length; lia).
  assert (L2 : length (series h) = length (shift 1 (series c)))
    by (rewrite shift_length, !series_length; lia).
  assert (L3 : length (series lo) = length (shift 1 (series c)))
    by (rewrite shift_length, !series_length; lia).
  apply continua_zip_with.
  - rewrite zip_with_length, length_map, !zip_with_length;
      rewrite ?length_map, ?zip_with_length; trivial.
  - apply continua_zip_with.
    + rewrite length_map, !zip_with_length; trivial.
    + apply continua_zip_with; assumption.
    + apply continua_map, continua_zip_with; assumption.
  - apply continua_map, continua_zip_with; assumption.
Qed.

Lemma continua_calcular_obv (c c' v v' : list Q) :
  length c = length v -> continua c c' -> continua v v' ->
  continua (calcular_obv c v) (calcular_obv c' v').
Proof.
  intros L Hc Hv. unfold calcular_obv, cumsum.
  assert (Z : continua
                (fillna 0 (zip_with (lift2 Qmult)
                                    (map (lift1 Qsign) (diff (series c)))
                                    (series v)))
                (fillna 0 (zip_with (lift2 Qmult)
                                    (map (lift1 Qsign) (diff (series c')))
                                    (series v')))).
  { unfold fillna. apply continua_map, continua_zip_with.
    - rewrite length_map, diff_length, !series_length. exact L.
    - apply continua_map, continua_diff, continua_map, Hc.
    - apply continua_map, Hv. }
  destruct Z as (z & ->). apply continua_cumsum_from.
Qed.

(** The causal columns of the row at position [i] of a group are the same
    when the group is continued by later rows. *)
Lemma columnas_causales_app (sqrtQ : Q -> Q) (g z : list PricePoint)
      (lv lv' : Q * Q * Q * Q * Q * Q) (n n' e e' : string)
      (i : nat) (p : PricePoint) :
  (i < length g)%nat ->
  columnas_causales (indicador_fila sqrtQ (g ++ z) lv' n' e' i p)
  = columnas_causales (indicador_fila sqrtQ g lv n e i p).
Proof.
  intros Hi.
  destruct (indicador_fila_cols sqrtQ g lv n e i p)
    as (A1 & A2 & A3 & A4 & A5 & A6 & A7 & A8 & A9 & A10 & A11 & A12).
  destruct (indicador_fila_cols sqrtQ (g ++ z) lv' n' e' i p)
    as (B1 & B2 & B3 & B4 & B5 & B6 & B7 & B8 & B9 & B10 & B11 & B12).
  assert (K : forall f : PricePoint -> Q,
             continua (map f g) (map f (g ++ z)))
    by (intros f; exists (map f z); apply map_app).
  assert (Lf : forall f : PricePoint -> Q, length (map f g) = length g)
    by (intros f; apply length_map).
  pose proof (K Close) as KC.
  assert (SC : continua (series (map Close g))
                        (series (map Close (g ++ z))))
    by (apply continua_map, KC).
  assert (LS : length (series (map Close g)) = length g)
    by (rewrite series_length; apply Lf).
  assert (E1 : SMA_20 (indicador_fila sqrtQ (g ++ z) lv' n' e' i p)
               = SMA_20 (indicador_fila sqrtQ g lv n e i p)).
  { rewrite A1, B1. apply continua_nth.
    - apply continua_rolling, SC.
    - unfold rolling_mean. rewrite rolling_length, LS. exact Hi. }
  assert (E2 : SMA_50 (indicador_fila sqrtQ (g ++ z) lv' n' e' i p)
               = SMA_50 (indicador_fila sqrtQ g lv n e i p)).
  { rewrite A2, B2. apply continua_nth.
    - apply continua_rolling, SC.
    - unfold rolling_mean. rewrite rolling_length, LS. exact Hi. }
  assert (E3 : EMA_20 (indicador_fila sqrtQ (g ++ z) lv' n' e' i p)
               = EMA_20 (indicador_fila sqrtQ g lv n e i p)).
  { rewrite A3, B3. apply continua_nth.
    - apply continua_ewm_mean, SC.
    - rewrite ewm_mean_length, LS. exact Hi. }
  assert (E4 : RSI_14 (indicador_fila sqrtQ (g ++ z) lv' n' e' i p)
               = RSI_14 (indicador_fila sqrtQ g lv n e i p)).
  { rewrite A4, B4. apply continua_nth.
    - apply continua_calcular_rsi, KC.
    - rewrite calcular_rsi_length, Lf. exact Hi. }
  pose proof (continua_calcular_macd _ _ KC) as KM.
  assert (LM : forall l : list Q,
             let '(m, s, h) := calcular_macd l 12 26 9 in
             length m = length l /\ length s = length l /\
             length h = length l).
  { intros l. unfold calcular_macd.
    rewrite !zip_with_length, !ewm_mean_length, ?zip_with_length;
      rewrite ?ewm_mean_length, ?series_length; auto. }
  specialize (LM (map Close g)).
  destruct (calcular_macd (map Close g) 12 26 9) as [[m s] h].
  destruct (calcular_macd (map Close (g ++ z)) 12 26 9) as [[m' s'] h'].
  cbn [fst snd] in A5, A6, A7, B5, B6, B7.
  destruct KM as (Km & Ks & Kh). destruct LM as (Lm & Ls & Lh).
  rewrite Lf in Lm, Ls, Lh.
  assert (E5 : MACD (indicador_fila sqrtQ (g ++ z) lv' n' e' i p)
               = MACD (indicador_fila sqrtQ g lv n e i p))
    by (rewrite A5, B5; apply continua_nth; [exact Km|lia]).
  assert (E6 : MACD_Signal (indicador_fila sqrtQ (g ++ z) lv' n' e' i p)
               = MACD_Signal (indicador_fila sqrtQ g lv n e i p))
    by (rewrite A6, B6; apply continua_nth; [exact Ks|lia]).
  assert (E7 : MACD_Hist (indicador_fila sqrtQ (g ++ z) lv' n' e' i p)
               = MACD_Hist (indicador_fila sqrtQ g lv n e i p))
    by (rewrite A7, B7; apply continua_nth; [exact Kh|lia]).
  assert (E8 : ATR_14 (indicador_fila sqrtQ (g ++ z) lv' n' e' i p)
               = ATR_14 (indicador_fila sqrtQ g lv n e i p)).
  { rewrite A8, B8. apply continua_nth.
    - apply continua_rolling, continua_true_range;
        rewrite ?Lf; auto.
    - rewrite calcular_atr_length by (rewrite !Lf; reflexivity).
      rewrite Lf. exact Hi. }
  assert (E9 : BB_Middle (indicador_fila sqrtQ (g ++ z) lv' n' e' i p)
               = BB_Middle (indicador_fila sqrtQ g lv n e i p)).
  { rewrite A9, B9. apply continua_nth.
    - apply continua_rolling, SC.
    - unfold rolling_mean. rewrite rolling_length, LS. exact Hi. }
  assert (KS : continua
                 (map (lift1 (Qmult 2))
                      (rolling_std sqrtQ 20 (series (map Close g))))
                 (map (lift1 (Qmult 2))
                      (rolling_std sqrtQ 20 (series (map Close (g ++ z))))))
    by (apply continua_map, continua_rolling, SC).
  assert (E10 : BB_Upper (indicador_fila sqrtQ (g ++ z) lv' n' e' i p)
                = BB_Upper (indicador_fila sqrtQ g lv n e i p)).
  { rewrite A10, B10. apply continua_nth.
    - apply continua_zip_with; [|apply continua_rolling, SC|exact KS].
      unfold rolling_mean.
      rewrite length_map, rolling_std_length, rolling_length. reflexivity.
    - rewrite zip_with_length; unfold rolling_mean;
        rewrite ?length_map, ?rolling_std_length, !rolling_length; lia. }
  assert (E11 : BB_Lower (indicador_fila sqrtQ (g ++ z) lv' n' e' i p)
                = BB_Lower (indicador_fila sqrtQ g lv n e i p)).
  { rewrite A11, B11. apply continua_nth.
    - apply continua_zip_with; [|apply continua_rolling, SC|exact KS].
      unfold rolling_mean.
      rewrite length_map, rolling_std_length, rolling_length. reflexivity.
    - rewrite zip_with_length; unfold rolling_mean;
        rewrite ?length_map, ?rolling_std_length, !rolling_length; lia. }
  assert (E12 : Volatility_20 (indicador_fila sqrtQ (g ++ z) lv' n' e' i p)
                = Volatility_20 (indicador_fila sqrtQ g lv n e i p)).
  { rewrite A12, B12. apply continua_nth.
    - apply continua_rolling, SC.
    - rewrite rolling_std_length, LS. exact Hi. }
  assert (E13 : OBV (indicador_fila sqrtQ (g ++ z) lv' n' e' i p)
                = OBV (indicador_fila sqrtQ g lv n e i p)).
  { destruct lv as [[[[[? ?] ?] ?] ?] ?], lv' as [[[[[? ?] ?] ?] ?] ?].
    cbn [indicador_fila OBV].
    apply continua_nth.
    - apply continua_calcular_obv; rewrite ?Lf; auto.
    - rewrite calcular_obv_length by (rewrite !Lf; reflexivity).
      rewrite Lf. exact Hi. }
  unfold columnas_causales.
  rewrite E1, E2, E3, E4, E5, E6, E7, E8, E9, E10, E11, E12, E13.
  destruct lv as [[[[[? ?] ?] ?] ?] ?], lv' as [[[[[? ?] ?] ?] ?] ?].
  reflexivity.
Qed.

Lemma insert_by_app {B} (leb : B -> B -> bool) (x : B) (l1 l2 : list B) :
  (forall q, In q l2 -> leb x q = true) ->
  insert_by leb x (l1 ++ l2) = insert_by leb x l1 ++ l2.
Proof.
  intros H. induction l1 as [|y l1 IH]; cbn [app insert_by].
  - destruct l2 as [|q l2]; [reflexivity|].
    cbn [insert_by]. rewrite (H q (or_introl eq_refl)). reflexivity.
  - destruct (leb x y); [reflexivity|]. rewrite IH. reflexivity.
Qed.

(** Sorting a table followed by rows that sort after it is sorting each
    part. *)
Lemma sort_values_app (a b : list PricePoint) :
  (forall p q, In p a -> In q b -> ticker_date_le p q) ->
  sort_values (a ++ b) = sort_values a ++ sort_values b.
Proof.
  intros H. induction a as [|x a IH]; [reflexivity|].
  change (sort_values ((x :: a) ++ b))
    with (insert_by ticker_date_leb x (sort_values (a ++ b))).
  rewrite IH by (intros; apply H; [right|]; assumption).
  apply insert_by_app. intros q Hq.
  apply H; [left; reflexivity|]. apply sort_values_In, Hq.
Qed.

Lemma imap_from_app {B C} (f : nat -> B -> C) (l1 l2 : list B) (k : nat) :
  imap_from k f (l1 ++ l2)
  = imap_from k f l1 ++ imap_from (k + length l1) f l2.
Proof.
  revert k. induction l1 as [|x l1 IH]; intros k; cbn [app imap_from length].
  - rewrite Nat.add_0_r. reflexivity.
  - rewrite IH. replace (S k + length l1)%nat with (k + S (length l1))%nat
      by lia. reflexivity.
Qed.

Lemma map_imap_from_ext {B C D} (h : C -> D) (f f' : nat -> B -> C)
      (l : list B) (k : nat) :
  (forall i a, (k <= i < k + length l)%nat -> h (f i a) = h (f' i a)) ->
  map h (imap_from k f l) = map h (imap_from k f' l).
Proof.
  revert k. induction l as [|x l IH]; intros k H; [reflexivity|].
  cbn [imap_from map]. rewrite (H k x) by (cbn [length]; lia).
  rewrite IH; [reflexivity|]. intros i a Hi. apply H. cbn [length]. lia.
Qed.

Lemma imap_from_ext {B C} (f f' : nat -> B -> C) (l : list B) (k : nat) :
  (forall i a, (k <= i < k + length l)%nat -> f i a = f' i a) ->
  imap_from k f l = imap_from k f' l.
Proof.
  revert k. induction l as [|x l IH]; intros k H; [reflexivity|].
  cbn [imap_from]. rewrite (H k x) by (cbn [length]; lia).
  rewrite IH; [reflexivity|]. intros i a Hi. apply H. cbn [length]. lia.
Qed.

Lemma continua_pct_change (n : nat) (l l' : list Q) :
  continua l l' -> continua (pct_change n l) (pct_change n l').
Proof.
  intros H. unfold pct_change. apply continua_zip_with.
  - rewrite shift_length, series_length. reflexivity.
  - exact H.
  - apply continua_shift, continua_map, H.
Qed.

Lemma continua_variaciones_grupo (g z : list PricePoint) :
  continua (variaciones_grupo g) (variaciones_grupo (g ++ z)).
Proof.
  unfold variaciones_grupo, imap. rewrite imap_from_app.
  eexists. f_equal.
  apply imap_from_ext. intros i a Hi. f_equal.
  apply map_ext. intros nd. do 2 f_equal.
  destruct (ticker_isna (Ticker a)); [reflexivity|].
  apply continua_nth.
  - apply continua_pct_change. exists (map Close z). apply map_app.
  - rewrite pct_change_length, length_map. lia.
Qed.

(** X21.  The indicators and the variations have no look-ahead.  When
    rows are added to the price table that are not dated before the rows
    a ticker already has, the output rows of the ticker continue the
    earlier ones: on every earlier row the date, the close, the moving
    averages, RSI, the MACD columns, ATR, OBV, the Bollinger columns and
    the volatility are unchanged, and so is the whole row of the
    variation table.  (The Fibonacci columns are taken over the whole
    history and are not part of this.) *)
Theorem sin_anticipacion (sqrtQ : Q -> Q) (df nuevos : list PricePoint)
        (out out' : list IndicatorRow) (t : string) :
  calcular_indicadores_tecnicos sqrtQ df = Ok out ->
  calcular_indicadores_tecnicos sqrtQ (df ++ nuevos) = Ok out' ->
  (forall p q, In p df -> In q nuevos -> Ticker p = t -> Ticker q = t ->
               (Date p <= Date q)%Z) ->
  continua (map columnas_causales (out_rows_of ind_Ticker t out))
           (map columnas_causales (out_rows_of ind_Ticker t out')) /\
  continua (out_rows_of var_Ticker t (calcular_variaciones_precios df))
           (out_rows_of var_Ticker t
                        (calcular_variaciones_precios (df ++ nuevos))).
Proof.
  intros Hout Hout' Hord.
  assert (Hs : rows_of t (sort_values (df ++ nuevos))
               = sort_values (rows_of t df)
                 ++ sort_values (rows_of t nuevos)).
  { rewrite rows_of_sort_values_eq. unfold rows_of at 1.
    rewrite filter_app. fold (rows_of t df). fold (rows_of t nuevos).
    apply sort_values_app.
    intros p q Hp Hq. apply rows_of_In in Hp, Hq.
    destruct Hp as [Hp Tp], Hq as [Hq Tq].
    unfold ticker_date_le, ticker_date_leb. rewrite Tp, Tq.
    rewrite string_compare_refl. apply Z.leb_le.
    apply Hord; assumption. }
  split; [|rewrite !variaciones_rows, Hs, rows_of_sort_values_eq;
           apply continua_variaciones_grupo].
  rewrite (engine_rows_all _ _ _ t Hout), (engine_rows_all _ _ _ t Hout').
  unfold filas_de. rewrite Hs, rows_of_sort_values_eq.
  - set (g := sort_values (rows_of t df)).
    set (z := sort_values (rows_of t nuevos)).
    destruct g as [|p0 g0] eqn:Eg.
    + cbn [indicadores_grupo map series_max]. eexists. reflexivity.
    + rewrite <- Eg.
      destruct (fib_of_exists (map Close g))
        as (mx & mn & u & nivel & Hf); [rewrite Eg; discriminate|].
      destruct (fib_of_exists (map Close (g ++ z)))
        as (mx' & mn' & u' & nivel' & Hf'); [rewrite Eg; discriminate|].
      rewrite (indicadores_grupo_ok _ _ _ _ _ _ Hf).
      rewrite (indicadores_grupo_ok _ _ _ _ _ _ Hf').
      unfold imap. rewrite imap_from_app, map_app.
      eexists. f_equal. symmetry.
      apply map_imap_from_ext. intros i a Hi. symmetry.
      apply columnas_causales_app. lia.
Qed.

Lemma sin_anticipacion_witness :
  let nuevos := [mkPricePoint 4 "A" 130 131 129 130 10]%string in
  exists out out',
    calcular_indicadores_tecnicos sqrt6 df_example = Ok out /\
    calcular_indicadores_tecnicos sqrt6 (df_example ++ nuevos) = Ok out' /\
    continua (map columnas_causales (out_rows_of ind_Ticker "A" out))
             (map columnas_causales (out_rows_of ind_Ticker "A" out')).
Proof.
  intros nuevos.
  destruct (calcular_indicadores_tecnicos sqrt6 df_example) as [out|e] eqn:H1;
    [|vm_compute in H1; discriminate].
  destruct (calcular_indicadores_tecnicos sqrt6 (df_example ++ nuevos))
    as [out'|e] eqn:H2; [|vm_compute in H2; discriminate].
  exists out, out'. split; [reflexivity|]. split; [reflexivity|].
  apply (proj1 (sin_anticipacion sqrt6 df_example nuevos out out' "A"
                                 H1 H2
                                 ltac:(intros p q Hp Hq _ _;
                                       cbn [In] in Hq;
                                       destruct Hq as [<-|[]];
                                       unfold df_example in Hp;
                                       cbn [In] in Hp;
                                       destruct Hp as [<-|[<-|[<-|[]]]];
                                       cbn [Date]; lia))).
Defined.

(* ------------------------------------------------------------------ *)
(** ** The rows of the file and the missing tickers *)

Lemma filter_insert_by (f : PricePoint -> bool) (x : PricePoint)
      (l : list PricePoint) :
  StronglySorted ticker_date_le l ->
  filter f (insert_by ticker_date_leb x l)
  = if f x then insert_by ticker_date_leb x (filter f l) else filter f l.
Proof.
  induction 1 as [|y l S IH F]; cbn [insert_by].
  - cbn [filter insert_by]. destruct (f x); reflexivity.
  - destruct (ticker_date_leb x y) eqn:E.
    + change (filter f (x :: y :: l))
        with (if f x then x :: filter f (y :: l) else filter f (y :: l)).
      destruct (f x); [|reflexivity].
      symmetry. apply insert_by_front. intros z Hz.
      apply filter_In in Hz. destruct Hz as [[<-|Hz] _]; [exact E|].
      rewrite Forall_forall in F.
      exact (ticker_date_le_trans _ _ _ E (F z Hz)).
    + cbn [filter]. rewrite IH.
      destruct (f y), (f x); try reflexivity.
      cbn [insert_by]. rewrite E. reflexivity.
Qed.

Lemma filter_sort_values (f : PricePoint -> bool) (df : list PricePoint) :
  filter f (sort_values df) = sort_values (filter f df).
Proof.
  induction df as [|x df IH]; [reflexivity|].
  change (sort_values (x :: df))
    with (insert_by ticker_date_leb x (sort_values df)).
  rewrite filter_insert_by by apply sort_values_sorted.
  cbn [filter]. rewrite IH. destruct (f x); reflexivity.
Qed.

Lemma rows_of_dropna (t : string) (df : list PricePoint) :
  rows_of t (dropna_ticker df)
  = if ticker_isna t then [] else rows_of t df.
Proof.
  unfold rows_of, dropna_ticker.
  induction df as [|p df IH]; cbn [filter];
    [destruct (ticker_isna t); reflexivity|].
  destruct (ticker_isna (Ticker p)) eqn:T1; cbn [negb];
    destruct (String.eqb (Ticker p) t) eqn:E; cbn [filter]; rewrite ?E;
    try exact IH.
  - apply String.eqb_eq in E. subst t. rewrite T1 in IH |- *. exact IH.
  - apply String.eqb_eq in E. subst t. rewrite T1 in IH |- *.
    f_equal. exact IH.
Qed.

(** The engine on the rows of the file is the engine on the rows whose
    ticker is present. *)
Lemma engine_csv_dropna (sqrtQ : Q -> Q) (df : list PricePoint) :
  calcular_indicadores_tecnicos_csv sqrtQ df
  = calcular_indicadores_tecnicos sqrtQ (dropna_ticker df).
Proof.
  unfold calcular_indicadores_tecnicos_csv, calcular_indicadores_tecnicos.
  f_equal. f_equal.
  unfold groupby_ticker_dropna, groupby_ticker.
  assert (S : sort_values (dropna_ticker df)
              = dropna_ticker (sort_values df))
    by (unfold dropna_ticker; symmetry; apply filter_sort_values).
  rewrite S.
  assert (K : filter (fun t => negb (ticker_isna t))
                     (map Ticker (sort_values df))
              = map Ticker (dropna_ticker (sort_values df)))
    by (unfold dropna_ticker; apply filter_map_swap).
  rewrite K. apply map_ext_in. intros t Ht. f_equal.
  rewrite rows_of_dropna.
  destruct (ticker_isna t) eqn:T; [|reflexivity].
  exfalso.
  apply (Permutation_in _ (sort_by_perm _ _)) in Ht.
  apply nodup_In in Ht.
  apply in_map_iff in Ht. destruct Ht as (p & <- & Hp).
  apply filter_In in Hp. destruct Hp as [_ Hp].
  rewrite T in Hp. discriminate.
Qed.

(** C1 (as amended).  On a price file with at least one row whose ticker
    is present the engine returns a table with exactly one row per input
    row with a present ticker: the rows of a ticker in the output carry
    the dates and closes of its input rows in the sorted order, which is a
    rearrangement of the input rows of that ticker; the rows whose ticker
    cell is read as missing are left out; and a ticker with fewer than
    two price points gets its rows with every windowed field missing.  On
    a file without a row with a present ticker, such as the empty file,
    the call to [pd.concat] raises. *)
Theorem indicator_rows_one_per_input (sqrtQ : Q -> Q)
        (df : list PricePoint) :
  (dropna_ticker df <> [] ->
   exists out,
     calcular_indicadores_tecnicos_csv sqrtQ df = Ok out /\
     length out = length (dropna_ticker df) /\
     (forall t,
         ticker_isna t = false ->
         map (fun r => (ind_Date r, ind_Ticker r, ind_Close r))
             (out_rows_of ind_Ticker t out)
         = map (fun p => (Date p, Ticker p, Close p))
               (rows_of t (sort_values df)) /\
         Permutation (rows_of t (sort_values df)) (rows_of t df) /\
         length (out_rows_of ind_Ticker t out) = length (rows_of t df)) /\
     (forall t,
         ticker_isna t = true -> out_rows_of ind_Ticker t out = []) /\
     (forall t r,
         (length (rows_of t df) < 2)%nat ->
         In r out -> ind_Ticker r = t -> windowed_null r)) /\
  (dropna_ticker df = [] ->
   calcular_indicadores_tecnicos_csv sqrtQ df = Raise ValueError).
Proof.
  split.
  - intros Hne.
    destruct (engine_one_per_input sqrtQ (dropna_ticker df) Hne)
      as (out & Hout & Hlen & Hrows & Hnull).
    exists out. rewrite engine_csv_dropna.
    split; [exact Hout|]. split; [exact Hlen|].
    split; [|split].
    + intros t Hna. destruct (Hrows t) as (K & P & L).
      assert (R : rows_of t (dropna_ticker df) = rows_of t df)
        by (rewrite rows_of_dropna, Hna; reflexivity).
      assert (RS : rows_of t (sort_values (dropna_ticker df))
                   = rows_of t (sort_values df))
        by (rewrite !rows_of_sort_values_eq, R; reflexivity).
      rewrite RS in K, P. rewrite R in P, L. auto.
    + intros t Hna. rewrite (engine_rows_all _ _ _ t Hout).
      apply filas_de_empty.
      rewrite rows_of_sort_values_eq, rows_of_dropna, Hna. reflexivity.
    + intros t r Hlt Hr Ht. apply (Hnull t r); trivial.
      rewrite rows_of_dropna. destruct (ticker_isna t); [cbn; lia|exact Hlt].
  - intros E. rewrite engine_csv_dropna, E. reflexivity.
Qed.

Lemma indicator_rows_one_per_input_witness :
  let df := (mkPricePoint 1 "NA" 5 5 5 5 1 :: df_example)%string in
  dropna_ticker df <> [] /\
  exists out,
    calcular_indicadores_tecnicos_csv sqrt6 df = Ok out /\
    length out = 3%nat /\
    out_rows_of ind_Ticker "NA" out = [].
Proof.
  intros df.
  assert (H : dropna_ticker df <> []) by (vm_compute; discriminate).
  split; [exact H|].
  destruct (proj1 (indicator_rows_one_per_input sqrt6 df) H)
    as (out & Hout & Hlen & _ & Hna & _).
  exists out. split; [exact Hout|]. split; [exact Hlen|].
  apply Hna. reflexivity.
Defined.

(** C1 as stated fails on the empty table: the engine raises. *)
Lemma indicator_rows_empty_table_raises :
  calcular_indicadores_tecnicos sqrt6 [] = Raise ValueError /\
  calcular_indicadores_tecnicos sqrt6 [] <> Ok [] /\
  calcular_indicadores_tecnicos_csv sqrt6 [] = Raise ValueError /\
  calcular_indicadores_tecnicos_csv sqrt6 [] <> Ok [].
Proof.
  split; [reflexivity|]. split; [discriminate|].
  split; [reflexivity|discriminate].
Qed.




